(** * Voice capsule recorder: capture session hook and segment orchestrator

    A shallow embedding of [src/hooks/useRecorder.ts] (the capture session)
    and of the handlers of [src/components/Recorder.tsx] (the segment
    orchestrator), together with the part of the browser they act on:
    timers, media streams, audio contexts, object URLs and the promises
    that are still pending.

    Conventions of the embedding.
    - React state and refs are fields of one [World] record; a handler is a
      function [World -> World].
    - A handler runs up to its first [await] without interruption and sees
      the state of the latest render; what follows an [await] is a separate
      step, taken when the awaited promise settles.  Values captured by a
      closure before the [await] (the segment index, the blob) travel with
      the pending promise.
    - Calls that cross the component's boundary ([startRecording],
      [stopRecording], [resetRecording], [uploadAudioSegment], [alert],
      [onComplete]) are recorded in [log], most recent first.
    - [handle] lets a handler run in every state, which is the safe side
      for an invariant.  The page itself calls a handler only through a
      control the view has mounted: what the view renders is given by
      [canRecord], [nextControlRendered], ..., and a run the page can
      deliver is one all of whose user events are [offered].  The runs on
      which the code is shown to fail are of that kind.
    - [tick] is the tick of the production build; [tickUpdater] covers the
      development build as well, where [React.StrictMode] runs a state
      updater twice.
    - What the browser and the libraries decide comes with the event: the
      outcome of [getUserMedia], the blob RecordRTC hands to the stop
      callback, the result of the upload client, the volume average.
      [startRecording] is taken to fail only where [getUserMedia] rejects.
    - [volume] is a rational number; the [taskId] prop, the same in every
      upload, is left out of the recorded calls.

    After the component come the parts of the repository around it, each
    with its own small state: the upload client ([utils/cos-upload]), the
    order form ([components/VerifyForm.tsx]), the player
    ([components/Player.tsx]) and the service worker ([public/sw.js]). *)

From Stdlib Require Import QArith Qminmax.
From stdpp Require Import base list strings pretty.

Open Scope string_scope.
Open Scope list_scope.
Close Scope Q_scope.
Open Scope nat_scope.

(** ** Constants of Recorder.tsx and useRecorder.ts *)

Definition SEGMENT_DURATION : nat := 60.
Definition MAX_RETRIES : nat := 3.
Definition HOLD_DELAY : nat := 500.
Definition MAX_RECORDING_TIME : nat := 60.

(** ** Data *)

(** The [status] union of [interface Segment]. *)
Inductive Status :=
| Pending | Recording | Processing | Recorded | Uploading | Uploaded | Error.

Global Instance Status_eq_dec : EqDecision Status.
Proof. solve_decision. Defined.

(** A [Blob]: its bytes and its MIME type. *)
Record Blob := mkBlob {
  blob_data : list Byte.byte;
  blob_type : string
}.

Definition blob_size (b : Blob) : nat := length (blob_data b).

(** Handles of browser objects. *)
Abbreviation ObjectUrl := nat (only parsing).
Abbreviation TimerId := nat (only parsing).
Abbreviation StreamId := nat (only parsing).
Abbreviation ContextId := nat (only parsing).
Abbreviation RecorderId := nat (only parsing).

(** [interface Segment] of Recorder.tsx. *)
Record Segment := mkSegment {
  id : nat;
  status : Status;
  blob : option Blob;
  url : option ObjectUrl;
  uploadUrl : option string;
  retryCount : nat;
  errorMsg : option string
}.

(** [interface RecorderState] of useRecorder.ts. *)
Record RecorderState := mkRecorderState {
  isRecording : bool;
  isPaused : bool;
  recordingTime : nat;
  volume : Q;
  error : option string;
  audioBlob : option Blob;
  audioUrl : option ObjectUrl
}.

(** The [useRef] cells of useRecorder.ts. *)
Record Refs := mkRefs {
  recorderRef : option RecorderId;
  streamRef : option StreamId;
  timerRef : option TimerId;
  volumeRef : option TimerId;
  audioContextRef : option ContextId;
  analyserRef : option ContextId
}.

Inductive IntervalKind := TickInterval | VolumeInterval.

Global Instance IntervalKind_eq_dec : EqDecision IntervalKind.
Proof. solve_decision. Defined.

(** The browser objects the code acts on.  [intervals] and [timeouts] hold
    the timers that are still armed; a timeout carries its deadline and the
    segment index its callback captured.  [liveStreams] are the streams
    whose tracks still run (the device is held), [openContexts] the audio
    contexts that are not closed, [objectUrls] the object URLs that are not
    revoked. *)
Record Browser := mkBrowser {
  clock : nat;
  nextId : nat;
  intervals : list (TimerId * IntervalKind);
  timeouts : list (TimerId * (nat * nat));
  liveStreams : list StreamId;
  openContexts : list ContextId;
  objectUrls : list ObjectUrl
}.

(** Who awaits a [stopRecording()] promise: the timer of the hook itself
    (nobody reads the result), [handleAutoStop] or [handleTouchEnd], each
    with the segment index its closure captured. *)
Inductive StopWaiter :=
| WaitInternal
| WaitAutoStop (idx : nat)
| WaitManualStop (idx : nat).

(** Promises that have not settled: [getUserMedia] requests, RecordRTC stop
    callbacks, and calls of [uploadAudioSegment] with their arguments. *)
Record Promises := mkPromises {
  pendingStarts : nat;
  pendingStops : list StopWaiter;
  inflight : list (Blob * nat)
}.

(** The [useState] cells and the [holdTimerRef] of the component. *)
Record Orch := mkOrch {
  currentSegment : nat;
  segments : list Segment;
  isHoldStarting : bool;
  showGuide : bool;
  holdTimerRef : option TimerId
}.

(** Calls that leave the component. *)
Inductive Command :=
| CmdStart
| CmdStop
| CmdReset
| CmdUpload (b : Blob) (idx : nat)
| CmdAlert (msg : string)
| CmdComplete (segs : list Segment).

Record World := mkWorld {
  state : RecorderState;
  refs : Refs;
  browser : Browser;
  pend : Promises;
  orch : Orch;
  log : list Command
}.

(** ** Field updates *)

Definition setState (f : RecorderState -> RecorderState) (w : World) : World :=
  mkWorld (f (state w)) (refs w) (browser w) (pend w) (orch w) (log w).

Definition setRefs (f : Refs -> Refs) (w : World) : World :=
  mkWorld (state w) (f (refs w)) (browser w) (pend w) (orch w) (log w).

Definition setBrowser (f : Browser -> Browser) (w : World) : World :=
  mkWorld (state w) (refs w) (f (browser w)) (pend w) (orch w) (log w).

Definition setPend (f : Promises -> Promises) (w : World) : World :=
  mkWorld (state w) (refs w) (browser w) (f (pend w)) (orch w) (log w).

Definition setOrch (f : Orch -> Orch) (w : World) : World :=
  mkWorld (state w) (refs w) (browser w) (pend w) (f (orch w)) (log w).

Definition emit (c : Command) (w : World) : World :=
  mkWorld (state w) (refs w) (browser w) (pend w) (orch w) (c :: log w).

(** [setSegments(prev => { const n = [...prev]; n[idx] = f(n[idx]); return n })].
    The index is always one of 0, 1, 2 (see [reachable_shape]); outside the
    array the model leaves the list as it is. *)
Definition setSegment (idx : nat) (f : Segment -> Segment) (w : World) : World :=
  setOrch (fun o => mkOrch (currentSegment o) (alter f idx (segments o))
                      (isHoldStarting o) (showGuide o) (holdTimerRef o)) w.

Definition setIsHoldStarting (b : bool) (w : World) : World :=
  setOrch (fun o => mkOrch (currentSegment o) (segments o) b
                      (showGuide o) (holdTimerRef o)) w.

Definition setShowGuide (b : bool) (w : World) : World :=
  setOrch (fun o => mkOrch (currentSegment o) (segments o) (isHoldStarting o)
                      b (holdTimerRef o)) w.

Definition setHoldTimerRef (t : option TimerId) (w : World) : World :=
  setOrch (fun o => mkOrch (currentSegment o) (segments o) (isHoldStarting o)
                      (showGuide o) t) w.

Definition setCurrentSegment (f : nat -> nat) (w : World) : World :=
  setOrch (fun o => mkOrch (f (currentSegment o)) (segments o) (isHoldStarting o)
                      (showGuide o) (holdTimerRef o)) w.

(** The patches the handlers apply to a segment ([{...seg, field: value}]). *)
Definition withStatus (s : Status) (g : Segment) : Segment :=
  mkSegment (id g) s (blob g) (url g) (uploadUrl g) (retryCount g) (errorMsg g).

Definition patchRecorded (b : Blob) (u : ObjectUrl) (g : Segment) : Segment :=
  mkSegment (id g) Recorded (Some b) (Some u) (uploadUrl g) (retryCount g) (errorMsg g).

Definition patchCaptureFailed (msg : string) (g : Segment) : Segment :=
  mkSegment (id g) Error (blob g) (url g) (uploadUrl g) (retryCount g) (Some msg).

Definition patchUploaded (u : option string) (g : Segment) : Segment :=
  mkSegment (id g) Uploaded (blob g) (url g) u (retryCount g) (errorMsg g).

Definition patchUploadFailed (msg : string) (g : Segment) : Segment :=
  mkSegment (id g) Error (blob g) (url g) (uploadUrl g) (retryCount g + 1) (Some msg).

Definition patchReRecord (g : Segment) : Segment :=
  mkSegment (id g) Pending None None None (retryCount g) None.

(** ** Browser primitives *)

(** [clearInterval(t)] and [clearTimeout(t)]: disarm the timer; unknown
    handles are ignored. *)
Definition clearInterval (t : TimerId) (w : World) : World :=
  setBrowser (fun b => mkBrowser (clock b) (nextId b)
      (filter (fun p => fst p <> t) (intervals b)) (timeouts b)
      (liveStreams b) (openContexts b) (objectUrls b)) w.

Definition clearTimeout (t : TimerId) (w : World) : World :=
  setBrowser (fun b => mkBrowser (clock b) (nextId b) (intervals b)
      (filter (fun p => fst p <> t) (timeouts b))
      (liveStreams b) (openContexts b) (objectUrls b)) w.

(** A handle that is not in use. *)
Definition freshId (w : World) : nat * World :=
  (nextId (browser w),
   setBrowser (fun b => mkBrowser (clock b) (S (nextId b)) (intervals b) (timeouts b)
      (liveStreams b) (openContexts b) (objectUrls b)) w).

Definition setInterval (k : IntervalKind) (w : World) : TimerId * World :=
  let '(t, w1) := freshId w in
  (t, setBrowser (fun b => mkBrowser (clock b) (nextId b)
      (intervals b ++ [(t, k)]) (timeouts b)
      (liveStreams b) (openContexts b) (objectUrls b)) w1).

(** [setTimeout(cb, delay)] for the hold callback, which captures [idx]. *)
Definition setTimeout (delay idx : nat) (w : World) : TimerId * World :=
  let '(t, w1) := freshId w in
  (t, setBrowser (fun b => mkBrowser (clock b) (nextId b) (intervals b)
      (timeouts b ++ [(t, (clock b + delay, idx))])
      (liveStreams b) (openContexts b) (objectUrls b)) w1).

(** [URL.createObjectURL] and [URL.revokeObjectURL]. *)
Definition createObjectURL (w : World) : ObjectUrl * World :=
  let '(u, w1) := freshId w in
  (u, setBrowser (fun b => mkBrowser (clock b) (nextId b) (intervals b) (timeouts b)
      (liveStreams b) (openContexts b) (objectUrls b ++ [u])) w1).

Definition revokeObjectURL (u : ObjectUrl) (w : World) : World :=
  setBrowser (fun b => mkBrowser (clock b) (nextId b) (intervals b) (timeouts b)
      (liveStreams b) (openContexts b) (filter (fun v => v <> u) (objectUrls b))) w.

(** [stream.getTracks().forEach(track => track.stop())]: the device is
    released; stopping a stream that is already stopped changes nothing. *)
Definition stopTracks (s : StreamId) (w : World) : World :=
  setBrowser (fun b => mkBrowser (clock b) (nextId b) (intervals b) (timeouts b)
      (filter (fun v => v <> s) (liveStreams b)) (openContexts b) (objectUrls b)) w.

(** [if (ctx && ctx.state !== 'closed') ctx.close()]. *)
Definition closeContext (c : ContextId) (w : World) : World :=
  setBrowser (fun b => mkBrowser (clock b) (nextId b) (intervals b) (timeouts b)
      (liveStreams b) (filter (fun v => v <> c) (openContexts b)) (objectUrls b)) w.

Definition advanceClock (dt : nat) (w : World) : World :=
  setBrowser (fun b => mkBrowser (clock b + dt) (nextId b) (intervals b) (timeouts b)
      (liveStreams b) (openContexts b) (objectUrls b)) w.

(** ** Messages *)

Definition dquote : string := String (Ascii.ascii_of_nat 34) EmptyString.

(** useRecorder.ts, [startRecording], the [catch] clause. *)
Definition msgStartGeneric : string := "无法启动录音，请检查麦克风权限".
Definition msgPermissionDenied : string :=
  "麦克风权限被拒绝，请点击右上角" +:+ dquote +:+ "在浏览器打开" +:+ dquote +:+ "后重试".
Definition msgNoDevice : string := "未找到麦克风设备".

(** Recorder.tsx. *)
Definition msgCaptureFailed : string := "录制失败，请重试".
Definition msgUploadFailed : string := "上传失败".
Definition msgCannotRetryUpload : string := "无法重试，请重新录制".
Definition msgTooManyRetries : string := "该段已重试次数过多，请继续下一段".
Definition msgWaitForUploads : string := "请等待所有音频上传完成".

(** ** The upload client (utils/cos-upload) *)

(** [interface UploadResult]; [key] plays no part in the component. *)
Record UploadResult := mkUploadResult {
  success : bool;
  result_url : option string;
  result_error : option string
}.

(** What a [catch] clause can receive: an [Error] with its message, or any
    other thrown value. *)
Inductive Thrown := ThrownError (message : string) | ThrownOther.

(** How the promise of [uploadAudioSegment] settles. *)
Inductive UploadOutcome :=
| Resolved (r : UploadResult)
| Rejected (e : Thrown).

(** [s || fallback] on an optional string: [undefined], [null] and the
    empty string are falsy. *)
Definition truthy (s : option string) : option string :=
  match s with
  | Some EmptyString => None
  | Some v => Some v
  | None => None
  end.

Definition orElse (s : option string) (fallback : string) : string :=
  match truthy s with
  | Some v => v
  | None => fallback
  end.

(** ** The capture session: useRecorder.ts *)

(** What [getUserMedia] can reject with. *)
Inductive StartError := DOMException (name : string) | OtherFailure.

Inductive MediaOutcome := MediaGranted | MediaRejected (e : StartError).

(** The message chosen by the [catch] clause of [startRecording]. *)
Definition startErrorMessage (e : StartError) : string :=
  match e with
  | DOMException name =>
      if String.eqb name "NotAllowedError" then msgPermissionDenied
      else if String.eqb name "NotFoundError" then msgNoDevice
      else msgStartGeneric
  | OtherFailure => msgStartGeneric
  end.

Definition initialRecorderState : RecorderState :=
  mkRecorderState false false 0 0%Q None None None.

Definition initialRefs : Refs := mkRefs None None None None None None.

(** [startRecording], up to [await navigator.mediaDevices.getUserMedia]. *)
Definition startRecording (w : World) : World :=
  setPend (fun p => mkPromises (S (pendingStarts p)) (pendingStops p) (inflight p))
    (setState (fun s => mkRecorderState (isRecording s) (isPaused s) (recordingTime s)
                          (volume s) None (audioBlob s) (audioUrl s)) w).

(** [startRecording], after the [await]: the rest of the [try] block when
    the stream is granted, the [catch] clause when it is not. *)
Definition startRecording_settled (o : MediaOutcome) (w : World) : World :=
  match o with
  | MediaRejected e =>
      setState (fun s => mkRecorderState (isRecording s) (isPaused s) (recordingTime s)
                           (volume s) (Some (startErrorMessage e))
                           (audioBlob s) (audioUrl s)) w
  | MediaGranted =>
      let '(stream, w1) := freshId w in
      let w2 := setBrowser (fun b => mkBrowser (clock b) (nextId b) (intervals b)
                    (timeouts b) (liveStreams b ++ [stream]) (openContexts b)
                    (objectUrls b)) w1 in
      let '(ctx, w3) := freshId w2 in
      let w4 := setBrowser (fun b => mkBrowser (clock b) (nextId b) (intervals b)
                    (timeouts b) (liveStreams b) (openContexts b ++ [ctx])
                    (objectUrls b)) w3 in
      let '(rec, w5) := freshId w4 in
      let w6 := setState (fun s => mkRecorderState true false 0 (volume s) (error s)
                    (audioBlob s) (audioUrl s)) w5 in
      let '(tick, w7) := setInterval TickInterval w6 in
      let '(vol, w8) := setInterval VolumeInterval w7 in
      setRefs (fun _ => mkRefs (Some rec) (Some stream) (Some tick) (Some vol)
                          (Some ctx) (Some ctx)) w8
  end.

(** The part of [stopRecording] that runs before RecordRTC is asked to
    stop: both timers are cleared and the audio context is closed. *)
Definition stopRecording_cleanup (w : World) : World :=
  let w1 := match timerRef (refs w) with
            | Some t =>
                setRefs (fun r => mkRefs (recorderRef r) (streamRef r) None (volumeRef r)
                                    (audioContextRef r) (analyserRef r))
                  (clearInterval t w)
            | None => w
            end in
  let w2 := match volumeRef (refs w1) with
            | Some t =>
                setRefs (fun r => mkRefs (recorderRef r) (streamRef r) (timerRef r) None
                                    (audioContextRef r) (analyserRef r))
                  (clearInterval t w1)
            | None => w1
            end in
  match audioContextRef (refs w2) with
  | Some c => closeContext c w2
  | None => w2
  end.

(** The callback handed to [recorderRef.current.stopRecording]: [b] is what
    [getBlob()] returns at that moment.  The result is the value the
    promise resolves with. *)
Definition stopRecording_callback (b : option Blob) (w : World) : option Blob * World :=
  let blob := match recorderRef (refs w) with
              | Some _ => b
              | None => None
              end in
  let '(u, w1) := match blob with
                  | Some _ => let '(u, w1) := createObjectURL w in (Some u, w1)
                  | None => (None, w)
                  end in
  let w2 := setState (fun s => mkRecorderState false false (recordingTime s) 0%Q
                                 (error s) blob u) w1 in
  let w3 := match streamRef (refs w2) with
            | Some s => stopTracks s w2
            | None => w2
            end in
  (blob, w3).

(** [resetRecording]. *)
Definition resetRecording (w : World) : World :=
  let w1 := match timerRef (refs w) with
            | Some t =>
                setRefs (fun r => mkRefs (recorderRef r) (streamRef r) None (volumeRef r)
                                    (audioContextRef r) (analyserRef r))
                  (clearInterval t w)
            | None => w
            end in
  let w2 := match volumeRef (refs w1) with
            | Some t =>
                setRefs (fun r => mkRefs (recorderRef r) (streamRef r) (timerRef r) None
                                    (audioContextRef r) (analyserRef r))
                  (clearInterval t w1)
            | None => w1
            end in
  let w3 := match streamRef (refs w2) with
            | Some s => stopTracks s w2
            | None => w2
            end in
  let w4 := match audioContextRef (refs w3) with
            | Some c => closeContext c w3
            | None => w3
            end in
  let w5 := match audioUrl (state w4) with
            | Some u => revokeObjectURL u w4
            | None => w4
            end in
  setRefs (fun _ => initialRefs) (setState (fun _ => initialRecorderState) w5).

(** The volume sampler: [Math.min(average / 128, 1)]. *)
Definition volumeSample (average : Q) (w : World) : World :=
  match analyserRef (refs w) with
  | Some _ =>
      setState (fun s => mkRecorderState (isRecording s) (isPaused s) (recordingTime s)
                           (Qmin (average / 128) 1) (error s) (audioBlob s)
                           (audioUrl s)) w
  | None => w
  end.

(** ** The segment orchestrator: Recorder.tsx *)

Definition initialSegments : list Segment :=
  [ mkSegment 0 Pending None None None 0 None;
    mkSegment 1 Pending None None None 0 None;
    mkSegment 2 Pending None None None 0 None ].

Definition initialWorld : World :=
  mkWorld initialRecorderState initialRefs
    (mkBrowser 0 0 [] [] [] [] [])
    (mkPromises 0 [] [])
    (mkOrch 0 initialSegments false true None)
    [].

(** [segments[currentSegment]]. *)
Definition currentSeg (w : World) : option Segment :=
  segments (orch w) !! currentSegment (orch w).

Definition alert (msg : string) (w : World) : World := emit (CmdAlert msg) w.

(** [uploadSegment], up to [await uploadAudioSegment(...)]. *)
Definition uploadSegment (b : Blob) (idx : nat) (w : World) : World :=
  setPend (fun p => mkPromises (pendingStarts p) (pendingStops p) (inflight p ++ [(b, idx)]))
    (emit (CmdUpload b idx) (setSegment idx (withStatus Uploading) w)).

(** [uploadSegment], after the [await]: the success branch, and the
    [catch] clause, which also receives the [Error] thrown for a result
    with [success] false. *)
Definition uploadSegment_settled (idx : nat) (o : UploadOutcome) (w : World) : World :=
  match o with
  | Resolved r =>
      if success r
      then setSegment idx (patchUploaded (truthy (result_url r))) w
      else setSegment idx (patchUploadFailed (orElse (result_error r) msgUploadFailed)) w
  | Rejected (ThrownError m) => setSegment idx (patchUploadFailed m) w
  | Rejected ThrownOther => setSegment idx (patchUploadFailed msgUploadFailed) w
  end.

(** The MIME correction of the stop handlers: a blob typed [audio/wav] or
    untyped is wrapped in a new blob typed [audio/webm]. *)
Definition correctedBlob (b : Blob) : Blob :=
  if String.eqb (blob_type b) "audio/wav" || String.eqb (blob_type b) ""
  then mkBlob (blob_data b) "audio/webm"
  else b.

(** The block [if (correctedBlob) { ...; uploadSegment(correctedBlob, idx) }]
    shared by both stop handlers. *)
Definition uploadCorrected (idx : nat) (blob : option Blob) (w : World) : World :=
  match blob with
  | Some b =>
      let '(_, w1) := createObjectURL w in
      uploadSegment (correctedBlob b) idx w1
  | None => w
  end.

(** [handleAutoStop], after [await stopRecording()]. *)
Definition handleAutoStop_resumed (idx : nat) (blob : option Blob) (w : World) : World :=
  let w1 := uploadCorrected idx blob w in
  match blob with
  | Some b =>
      let '(u, w2) := createObjectURL w1 in
      uploadSegment b idx (setSegment idx (patchRecorded b u) w2)
  | None => setSegment idx (patchCaptureFailed msgCaptureFailed) w1
  end.

(** [handleTouchEnd], after [await stopRecording()]. *)
Definition handleTouchEnd_resumed (idx : nat) (blob : option Blob) (w : World) : World :=
  let w1 := uploadCorrected idx blob w in
  match blob with
  | Some b =>
      let '(u, w2) := createObjectURL w1 in
      uploadSegment b idx (setSegment idx (patchRecorded b u) w2)
  | None => w1
  end.

(** The code that waits for a [stopRecording()] promise. *)
Definition resumeStop (k : StopWaiter) (blob : option Blob) (w : World) : World :=
  match k with
  | WaitInternal => w
  | WaitAutoStop idx => handleAutoStop_resumed idx blob w
  | WaitManualStop idx => handleTouchEnd_resumed idx blob w
  end.

(** [stopRecording()] called by [k]: with a recorder the callback is left
    pending; without one the promise resolves with [null] at once. *)
Definition stopRecording (k : StopWaiter) (w : World) : World :=
  let w1 := stopRecording_cleanup w in
  match recorderRef (refs w1) with
  | Some _ =>
      setPend (fun p => mkPromises (pendingStarts p) (pendingStops p ++ [k]) (inflight p)) w1
  | None => resumeStop k None w1
  end.

(** The RecordRTC callback of the [k]-th pending stop runs, then the code
    awaiting that promise. *)
Definition stopRecording_settled (k : nat) (b : option Blob) (w : World) : World :=
  match pendingStops (pend w) !! k with
  | Some waiter =>
      let w1 := setPend (fun p => mkPromises (pendingStarts p) (delete k (pendingStops p))
                                    (inflight p)) w in
      let '(blob, w2) := stopRecording_callback b w1 in
      resumeStop waiter blob w2
  | None => w
  end.

(** The 1 s interval of the hook: at [MAX_RECORDING_TIME] the updater calls
    [stopRecording()] itself and drops the result. *)
Definition tick (w : World) : World :=
  let newTime := recordingTime (state w) + 1 in
  let w1 := if (MAX_RECORDING_TIME <=? newTime)%nat then stopRecording WaitInternal w else w in
  setState (fun s => mkRecorderState (isRecording s) (isPaused s) newTime (volume s)
                       (error s) (audioBlob s) (audioUrl s)) w1.

(** [handleAutoStop], called by the effect on
    [state.isRecording, state.recordingTime]. *)
Definition handleAutoStop (w : World) : World :=
  if negb (isRecording (state w)) then w
  else
    let idx := currentSegment (orch w) in
    stopRecording (WaitAutoStop idx) (emit CmdStop (setSegment idx (withStatus Processing) w)).

(** [handleTouchStart].  Reading [segments[currentSegment].status] outside
    the array would throw, which leaves everything as it was. *)
Definition handleTouchStart (w : World) : World :=
  match currentSeg w with
  | None => w
  | Some g =>
      if bool_decide (status g <> Pending) && bool_decide (status g <> Error) then w
      else
        let idx := currentSegment (orch w) in
        let w1 := setIsHoldStarting true w in
        let '(t, w2) := setTimeout HOLD_DELAY idx w1 in
        setHoldTimerRef (Some t) w2
  end.

(** The callback given to [setTimeout] by [handleTouchStart], up to the
    [await] inside [startRecording]. *)
Definition holdCallback (idx : nat) (w : World) : World :=
  let w1 := setIsHoldStarting false w in
  let w2 := setShowGuide false w1 in
  let w3 := setSegment idx (withStatus Recording) w2 in
  startRecording (emit CmdStart w3).

(** [handleTouchEnd], up to [await stopRecording()]. *)
Definition handleTouchEnd (w : World) : World :=
  if isHoldStarting (orch w) then
    let w1 := match holdTimerRef (orch w) with
              | Some t => clearTimeout t w
              | None => w
              end in
    setIsHoldStarting false w1
  else if negb (isRecording (state w)) || (SEGMENT_DURATION <=? recordingTime (state w))%nat then w
  else
    let idx := currentSegment (orch w) in
    stopRecording (WaitManualStop idx) (emit CmdStop (setSegment idx (withStatus Processing) w)).

(** [handleManualStop]. *)
Definition handleManualStop (w : World) : World :=
  if negb (isRecording (state w)) then w else handleTouchEnd w.

(** [handleRetryUpload]. *)
Definition handleRetryUpload (w : World) : World :=
  match currentSeg w with
  | None => w
  | Some g =>
      match blob g with
      | None => alert msgCannotRetryUpload w
      | Some b =>
          if (MAX_RETRIES <=? retryCount g)%nat then alert msgCannotRetryUpload w
          else uploadSegment b (currentSegment (orch w)) w
      end
  end.

(** [handleRetry]. *)
Definition handleRetry (w : World) : World :=
  match currentSeg w with
  | None => w
  | Some g =>
      if (MAX_RETRIES <=? retryCount g)%nat then alert msgTooManyRetries w
      else
        let w1 := match url g with
                  | Some u => revokeObjectURL u w
                  | None => w
                  end in
        let w2 := setSegment (currentSegment (orch w)) patchReRecord w1 in
        resetRecording (emit CmdReset w2)
  end.

(** [handleNextSegment]. *)
Definition handleNextSegment (w : World) : World :=
  if (currentSegment (orch w) <? 2)%nat
  then resetRecording (emit CmdReset (setCurrentSegment (fun prev => prev + 1) w))
  else w.

(** [segments.every(s => s.status === 'uploaded')]. *)
Definition allUploaded (w : World) : bool :=
  forallb (fun g => bool_decide (status g = Uploaded)) (segments (orch w)).

(** [handleComplete]. *)
Definition handleComplete (w : World) : World :=
  if allUploaded w then emit (CmdComplete (segments (orch w))) w
  else alert msgWaitForUploads w.

(** ** What the view renders *)

(** [canRecord]: the hold button and, while recording, the stop button
    are rendered; otherwise the row with the three click controls is. *)
Definition canRecord (w : World) : bool :=
  match currentSeg w with
  | Some g => bool_decide (status g = Pending) || bool_decide (status g = Error)
  | None => false
  end.

Definition nextControlRendered (w : World) : bool :=
  negb (canRecord w) &&
  match currentSeg w with
  | Some g => bool_decide (status g = Uploaded) && (currentSegment (orch w) <? 2)%nat
  | None => false
  end.

Definition reRecordControlRendered (w : World) : bool :=
  negb (canRecord w) &&
  match currentSeg w with
  | Some g => bool_decide (status g = Error) || bool_decide (status g = Uploaded)
  | None => false
  end.

Definition retryUploadControlRendered (w : World) : bool :=
  negb (canRecord w) &&
  match currentSeg w with
  | Some g => bool_decide (status g = Error) && bool_decide (is_Some (blob g))
  | None => false
  end.

(** A click on the advance control: it can only happen when the control
    is rendered. *)
Definition clickNextSegment (w : World) : World :=
  if nextControlRendered w then handleNextSegment w else w.

(** ** Events and steps *)

(** What can happen next: the user acts, time passes, a timer fires, or a
    pending promise settles.  [k] selects one of the pending promises. *)
Inductive Event :=
| Elapse (dt : nat)
| TouchStart
| TouchEnd
| ClickManualStop
| ClickRetryUpload
| ClickRetry
| ClickNext
| ClickComplete
| HoldTimerFires (t : TimerId)
| MediaSettles (o : MediaOutcome)
| TickFires (t : TimerId)
| VolumeFires (t : TimerId) (average : Q)
| StopCompletes (k : nat) (b : option Blob)
| UploadSettles (k : nat) (o : UploadOutcome).

(** The armed timeout with handle [t]. *)
Fixpoint findTimeout (t : TimerId) (l : list (TimerId * (nat * nat))) : option (nat * nat) :=
  match l with
  | [] => None
  | (t', d) :: l' => if Nat.eqb t' t then Some d else findTimeout t l'
  end.

(** Is the interval [t] of kind [k] armed? *)
Definition armed (t : TimerId) (k : IntervalKind) (w : World) : bool :=
  existsb (fun p => Nat.eqb (fst p) t && bool_decide (snd p = k)) (intervals (browser w)).

(** The event itself; an event that cannot happen in [w] (a timer that is
    not armed or not due, a promise that is not pending) leaves [w] as it
    is. *)
Definition handle (e : Event) (w : World) : World :=
  match e with
  | Elapse dt => advanceClock dt w
  | TouchStart => handleTouchStart w
  | TouchEnd => handleTouchEnd w
  | ClickManualStop => handleManualStop w
  | ClickRetryUpload => handleRetryUpload w
  | ClickRetry => handleRetry w
  | ClickNext => handleNextSegment w
  | ClickComplete => handleComplete w
  | HoldTimerFires t =>
      match findTimeout t (timeouts (browser w)) with
      | Some (deadline, idx) =>
          if (deadline <=? clock (browser w))%nat
          then holdCallback idx (clearTimeout t w)
          else w
      | None => w
      end
  | MediaSettles o =>
      match pendingStarts (pend w) with
      | S n =>
          startRecording_settled o
            (setPend (fun p => mkPromises n (pendingStops p) (inflight p)) w)
      | O => w
      end
  | TickFires t => if armed t TickInterval w then tick w else w
  | VolumeFires t average => if armed t VolumeInterval w then volumeSample average w else w
  | StopCompletes k b => stopRecording_settled k b w
  | UploadSettles k o =>
      match inflight (pend w) !! k with
      | Some (_, idx) =>
          uploadSegment_settled idx o
            (setPend (fun p => mkPromises (pendingStarts p) (pendingStops p)
                                  (delete k (inflight p))) w)
      | None => w
      end
  end.

(** The effect with dependencies [state.isRecording, state.recordingTime]:
    it runs after a render in which one of them changed. *)
Definition autoStopEffect (before after : World) : World :=
  if Bool.eqb (isRecording (state before)) (isRecording (state after))
     && Nat.eqb (recordingTime (state before)) (recordingTime (state after))
  then after
  else if isRecording (state after) && (SEGMENT_DURATION <=? recordingTime (state after))%nat
  then handleAutoStop after
  else after.

Definition step (e : Event) (w : World) : World :=
  autoStopEffect w (handle e w).

Fixpoint run (evs : list Event) (w : World) : World :=
  match evs with
  | [] => w
  | e :: evs' => run evs' (step e w)
  end.

(** ** Observations used in the statements *)

Definition isStop (c : Command) : bool :=
  match c with CmdStop => true | _ => false end.

Definition isStart (c : Command) : bool :=
  match c with CmdStart => true | _ => false end.

Definition isUpload (idx : nat) (c : Command) : bool :=
  match c with CmdUpload _ i => Nat.eqb i idx | _ => false end.

(** How many times the orchestrator has begun a stop sequence, issued
    [startRecording], called the upload client for position [idx]. *)
Definition stopCount (w : World) : nat := length (List.filter isStop (log w)).
Definition startCount (w : World) : nat := length (List.filter isStart (log w)).
Definition uploadCount (idx : nat) (w : World) : nat :=
  length (List.filter (isUpload idx) (log w)).

(** Uploads for position [idx] whose promise has not settled. *)
Definition inflightCount (idx : nat) (w : World) : nat :=
  length (List.filter (fun p => Nat.eqb (snd p) idx) (inflight (pend w))).

(** No tick interval is armed. *)
Definition noTicks (w : World) : Prop :=
  Forall (fun p => snd p <> TickInterval) (intervals (browser w)).

(** Every armed tick interval is the one [timerRef] points to. *)
Definition ticksOwned (w : World) : Prop :=
  Forall (fun p => snd p = TickInterval -> timerRef (refs w) = Some (fst p))
         (intervals (browser w)).

Definition isMediaGranted (e : Event) : bool :=
  match e with MediaSettles MediaGranted => true | _ => false end.

Definition isManualStop (e : Event) : bool :=
  match e with TouchEnd | ClickManualStop => true | _ => false end.

(** A successful upload result that carries a non-empty URL. *)
Definition carriesUrl (e : Event) : Prop :=
  match e with
  | UploadSettles _ (Resolved r) => success r = true -> is_Some (truthy (result_url r))
  | _ => True
  end.

(** A promise of the upload client that ends in the [catch] clause of
    [uploadSegment]. *)
Definition uploadFails (o : UploadOutcome) : bool :=
  match o with
  | Resolved r => negb (success r)
  | Rejected _ => true
  end.

(** While the hold is pending: time passes, or the hold timer [t] is
    tried. *)
Definition isWaitFor (t : TimerId) (e : Event) : bool :=
  match e with
  | Elapse _ => true
  | HoldTimerFires t' => Nat.eqb t' t
  | _ => false
  end.

(** Milliseconds that pass during [evs]. *)
Fixpoint elapsed (evs : list Event) : nat :=
  match evs with
  | [] => 0
  | Elapse dt :: evs' => dt + elapsed evs'
  | _ :: evs' => elapsed evs'
  end.

(** The session is out of recording, or the elapsed time is at the limit:
    what the guard of [handleTouchEnd] tests. *)
Definition stopped (w : World) : Prop :=
  isRecording (state w) = false \/ SEGMENT_DURATION <= recordingTime (state w).

(** ** Relations between worlds used in the proofs *)

(** A property of segments that every patch of the component preserves;
    [U] says which remote URLs a successful upload may store. *)
Record stable (U : option string -> Prop) (P : Segment -> Prop) : Prop := mkStable {
  stable_status : forall s g, s <> Uploaded -> s <> Pending -> P g -> P (withStatus s g);
  stable_recorded : forall b u g, P g -> P (patchRecorded b u g);
  stable_capture : forall m g, P g -> P (patchCaptureFailed m g);
  stable_failed : forall m g, P g -> P (patchUploadFailed m g);
  stable_rerecord : forall g, P g -> P (patchReRecord g);
  stable_uploaded : forall u g, U u -> P g -> P (patchUploaded u g)
}.

(** Handles of armed timers are below the next handle to be given out. *)
Definition timersFresh (w : World) : Prop :=
  Forall (fun p => fst p < nextId (browser w)) (timeouts (browser w))
  /\ Forall (fun p => fst p < nextId (browser w)) (intervals (browser w)).

(** Without a recorder every ref of the hook is [null]. *)
Definition refsCoherent (w : World) : Prop :=
  recorderRef (refs w) = None -> refs w = initialRefs.

(** What every step keeps: three segments, a cursor inside them, the
    stable properties of segments, and the two conditions above. *)
Definition keeps (U : option string -> Prop) (w w' : World) : Prop :=
  length (segments (orch w')) = length (segments (orch w))
  /\ (currentSegment (orch w) <= 2 -> currentSegment (orch w') <= 2)
  /\ (forall P, stable U P -> Forall P (segments (orch w)) -> Forall P (segments (orch w')))
  /\ (refsCoherent w -> refsCoherent w')
  /\ (timersFresh w -> timersFresh w').

(** The upload results an event may deliver, for a choice of [U]. *)
Definition admits (U : option string -> Prop) (e : Event) : Prop :=
  match e with
  | UploadSettles _ (Resolved r) => success r = true -> U (truthy (result_url r))
  | _ => True
  end.

(** [w'] comes from [w] by steps that neither begin a stop sequence nor
    restart the recording: the session keeps its recording flag and time,
    or leaves recording; no tick interval is armed; no stop is issued. *)
Definition quiet (w w' : World) : Prop :=
  (isRecording (state w') = isRecording (state w)
     /\ recordingTime (state w') = recordingTime (state w)
   \/ isRecording (state w') = false
     /\ (recordingTime (state w') = recordingTime (state w)
         \/ recordingTime (state w') = 0))
  /\ (noTicks w -> noTicks w')
  /\ stopCount w' = stopCount w.

(** ** Sample runs *)

Definition sampleBlob : Blob :=
  mkBlob [Byte.x1a; Byte.x45; Byte.xdf; Byte.xa3] "audio/webm".

Definition uploadFailure : UploadOutcome :=
  Resolved (mkUploadResult false None (Some "Failed to fetch")).

Definition uploadSuccess : UploadOutcome :=
  Resolved (mkUploadResult true (Some "https://cos.example/audio/segment_0.webm") None).

(** Hold for the whole delay on segment 0; the microphone is granted.
    The handles given out are 0 (hold timer), 1 (stream), 2 (audio
    context), 3 (recorder), 4 (tick interval), 5 (volume interval). *)
Definition startGesture : list Event :=
  [TouchStart; Elapse HOLD_DELAY; HoldTimerFires 0; MediaSettles MediaGranted].

Definition recordingWorld : World := run startGesture initialWorld.

(** Recording, [n] seconds in; the last tick is taken without the effect
    that follows the render. *)
Definition recordingAt (n : nat) : World :=
  match n with
  | O => recordingWorld
  | S m => handle (TickFires 4) (run (repeat (TickFires 4) m) recordingWorld)
  end.

(** Released after 5 s; RecordRTC delivers [sampleBlob]. *)
Definition uploadingWorld : World :=
  run [TouchEnd; StopCompletes 0 (Some sampleBlob)] (recordingAt 5).

(** Both uploads of the stop fail, the retried upload fails too. *)
Definition threeFailuresWorld : World :=
  run [UploadSettles 0 uploadFailure; UploadSettles 0 uploadFailure;
       ClickRetryUpload; UploadSettles 0 uploadFailure] uploadingWorld.

(** The segments met in the sample runs. *)
Definition pendingSegment (i : nat) : Segment := mkSegment i Pending None None None 0 None.

Definition uploadingSegment : Segment :=
  mkSegment 0 Uploading (Some sampleBlob) (Some 8) None 0 None.

Definition cappedSegment : Segment :=
  mkSegment 0 Error (Some sampleBlob) (Some 8) None 3 (Some "Failed to fetch").

Definition failedOnceSegment : Segment :=
  mkSegment 0 Error (Some sampleBlob) (Some 8) None 1 (Some "Failed to fetch").

Definition uploadedSegment : Segment :=
  mkSegment 0 Uploaded (Some sampleBlob) (Some 8)
    (Some "https://cos.example/audio/segment_0.webm") 0 None.

(** One of the two uploads of the stop has failed. *)
Definition oneFailureWorld : World :=
  run [UploadSettles 0 uploadFailure] uploadingWorld.



(** From the first render to a first successful upload of segment 0. *)
Definition sampleRun : list Event :=
  startGesture ++ repeat (TickFires 4) 5 ++
  [TouchEnd; StopCompletes 0 (Some sampleBlob); UploadSettles 0 uploadSuccess].

(** What happens after the auto-stop in the sample of the stop race. *)
Definition afterAutoStop : list Event :=
  [TouchEnd; ClickManualStop; StopCompletes 0 None; TouchEnd;
   StopCompletes 0 (Some sampleBlob); ClickManualStop; UploadSettles 0 uploadSuccess].

(** What happens after the manual stop in the sample of the stop race. *)
Definition afterManualStop : list Event :=
  [TickFires 4; Elapse 1000; StopCompletes 0 (Some sampleBlob); TickFires 4;
   UploadSettles 1 uploadSuccess].

(** ** The rest of the hook: pauseRecording and resumeRecording *)

(** [pauseRecording]: both intervals are cleared, the refs keep their
    handles.  Pausing RecordRTC itself leaves the browser objects of the
    model as they are. *)
Definition pauseRecording (w : World) : World :=
  match recorderRef (refs w) with
  | Some _ =>
      if isRecording (state w) then
        let w1 := match timerRef (refs w) with
                  | Some t => clearInterval t w
                  | None => w
                  end in
        let w2 := match volumeRef (refs w1) with
                  | Some t => clearInterval t w1
                  | None => w1
                  end in
        setState (fun s => mkRecorderState (isRecording s) true (recordingTime s)
                             (volume s) (error s) (audioBlob s) (audioUrl s)) w2
      else w
  | None => w
  end.

(** [resumeRecording]: two new intervals, with the same callbacks as the
    ones [startRecording] arms. *)
Definition resumeRecording (w : World) : World :=
  match recorderRef (refs w) with
  | Some _ =>
      if isPaused (state w) then
        let '(tick, w1) := setInterval TickInterval w in
        let w2 := setRefs (fun r => mkRefs (recorderRef r) (streamRef r) (Some tick)
                                      (volumeRef r) (audioContextRef r) (analyserRef r)) w1 in
        let '(vol, w3) := setInterval VolumeInterval w2 in
        let w4 := setRefs (fun r => mkRefs (recorderRef r) (streamRef r) (timerRef r)
                                      (Some vol) (audioContextRef r) (analyserRef r)) w3 in
        setState (fun s => mkRecorderState (isRecording s) false (recordingTime s)
                             (volume s) (error s) (audioBlob s) (audioUrl s)) w4
      else w
  | None => w
  end.

(** The component does not call [pauseRecording] and [resumeRecording],
    the hook exports them.  An action is an event of the component or a
    call of one of the two by another client of the hook. *)
Inductive Action :=
| Ev (e : Event)
| CallPause
| CallResume.

Definition perform (a : Action) (w : World) : World :=
  match a with
  | Ev e => handle e w
  | CallPause => pauseRecording w
  | CallResume => resumeRecording w
  end.

Definition act (a : Action) (w : World) : World :=
  autoStopEffect w (perform a w).

Fixpoint runActs (acts : list Action) (w : World) : World :=
  match acts with
  | [] => w
  | a :: acts' => runActs acts' (act a w)
  end.

(** ** The rest of the view of Recorder.tsx *)

(** The hold button is rendered when [canRecord] holds, the button with
    [handleManualStop] when the session records as well; the hold button
    is disabled while recording unless a hold is being started. *)
Definition holdButtonRendered (w : World) : bool := canRecord w.

Definition manualStopControlRendered (w : World) : bool :=
  canRecord w && isRecording (state w).

Definition holdButtonDisabled (w : World) : bool :=
  isRecording (state w) && negb (isHoldStarting (orch w)).

(** [canProceed]: the button with [handleComplete] is rendered when it
    holds. *)
Definition canProceed (w : World) : bool :=
  forallb (fun g => bool_decide (status g = Uploaded)) (segments (orch w)).

(** ** Relations used in the proofs of the invariants *)

(** A property of the session state that every [setState] of the hook
    preserves; [A] says which averages the volume sampler may read. *)
Record stateInv (A : Q -> Prop) (I : RecorderState -> Prop) : Prop := mkStateInv {
  inv_error : forall e s, I s ->
    I (mkRecorderState (isRecording s) (isPaused s) (recordingTime s) (volume s) e
         (audioBlob s) (audioUrl s));
  inv_volume : forall a s, A a -> I s ->
    I (mkRecorderState (isRecording s) (isPaused s) (recordingTime s)
         (Qmin (a / 128) 1) (error s) (audioBlob s) (audioUrl s));
  inv_time : forall n s, I s ->
    I (mkRecorderState (isRecording s) (isPaused s) n (volume s) (error s)
         (audioBlob s) (audioUrl s));
  inv_granted : forall s, I s ->
    I (mkRecorderState true false 0 (volume s) (error s) (audioBlob s) (audioUrl s));
  inv_stopped : forall b u s, (is_Some u <-> is_Some b) -> I s ->
    I (mkRecorderState false false (recordingTime s) 0%Q (error s) b u);
  inv_paused : forall s, isRecording s = true -> I s ->
    I (mkRecorderState (isRecording s) true (recordingTime s) (volume s) (error s)
         (audioBlob s) (audioUrl s));
  inv_resumed : forall s, I s ->
    I (mkRecorderState (isRecording s) false (recordingTime s) (volume s) (error s)
         (audioBlob s) (audioUrl s));
  inv_initial : I initialRecorderState
}.

(** A relation between the segment a position held at the start and the
    one it holds now that every patch of the component extends; with [F]
    false the patch of a failed upload is left out. *)
Record evolving (F : bool) (R : Segment -> Segment -> Prop) : Prop := mkEvolving {
  ev_status : forall s g g',
    s = Recording \/ s = Processing \/ s = Uploading -> R g g' -> R g (withStatus s g');
  ev_recorded : forall b u g g', R g g' -> R g (patchRecorded b u g');
  ev_capture : forall m g g', R g g' -> R g (patchCaptureFailed m g');
  ev_failed : forall m g g', F = true -> R g g' -> R g (patchUploadFailed m g');
  ev_rerecord : forall g g', R g g' -> R g (patchReRecord g');
  ev_uploaded : forall u g g', R g g' -> R g (patchUploaded u g')
}.

Definition evolves (I : RecorderState -> Prop) (R : Segment -> Segment -> Prop)
    (w0 w : World) : Prop :=
  I (state w) /\ Forall2 R (segments (orch w0)) (segments (orch w))
  /\ currentSegment (orch w0) <= currentSegment (orch w)
  /\ (currentSegment (orch w0) <= 2 -> currentSegment (orch w) <= 2).

(** The actions a choice of [A] and [F] allows. *)
Definition permits (A : Q -> Prop) (F : bool) (a : Action) : Prop :=
  match a with
  | Ev (VolumeFires _ average) => A average
  | Ev (UploadSettles _ o) => F = false -> uploadFails o = false
  | _ => True
  end.

(** The average of the analyser's unsigned bytes is not negative. *)
Definition byteAverage (a : Action) : Prop :=
  match a with
  | Ev (VolumeFires _ average) => (0 <= average)%Q
  | _ => True
  end.

(** An upload promise settles in the [catch] clause of [uploadSegment]. *)
Definition failedUpload (a : Action) : bool :=
  match a with
  | Ev (UploadSettles _ o) => uploadFails o
  | _ => false
  end.

(** Paused 5 s into the recording of segment 0, by a client of the hook. *)
Definition pausedRun : list Action :=
  (Ev <$> startGesture) ++ repeat (Ev (TickFires 4)) 5 ++ [Ev (VolumeFires 5 64%Q); CallPause].

(** What is left of a list of timers, or of handles, after the one an
    optional ref points to has been removed. *)
Definition withoutTimer {K} (o : option TimerId) (l : list (TimerId * K)) : list (TimerId * K) :=
  match o with
  | Some t => filter (fun p => fst p <> t) l
  | None => l
  end.

Definition withoutHandle (o : option nat) (l : list nat) : list nat :=
  match o with
  | Some h => filter (fun v => v <> h) l
  | None => l
  end.

(** One segment from the press to the second of the two uploads of its
    stop, both successful; [t] is the handle the hold timer gets. *)
Definition recordAndUpload (t : TimerId) : list Event :=
  [TouchStart; Elapse HOLD_DELAY; HoldTimerFires t; MediaSettles MediaGranted;
   TickFires (t + 4); TouchEnd; StopCompletes 0 (Some sampleBlob);
   UploadSettles 0 uploadSuccess; UploadSettles 0 uploadSuccess].

(** The three segments, one after the other. *)
Definition fullRun : list Event :=
  recordAndUpload 0 ++ [ClickNext] ++ recordAndUpload 9 ++ [ClickNext] ++ recordAndUpload 18.

(** ** The countdown of Recorder.tsx *)

(** [s.padStart(2, '0')]. *)
Definition padStart2 (s : string) : string :=
  match String.length s with
  | 0 => "00" +:+ s
  | 1 => "0" +:+ s
  | _ => s
  end.

(** [formatTime]: [Math.floor(seconds / 60)] and [seconds % 60], the
    remainder with the sign of [seconds], each printed in decimal and
    padded to two characters. *)
Definition formatTime (seconds : Z) : string :=
  let mins := (seconds `div` 60)%Z in
  let secs := Z.rem seconds 60 in
  padStart2 (pretty mins) +:+ ":" +:+ padStart2 (pretty secs).

(** What the view shows while the session records:
    [formatTime(SEGMENT_DURATION - state.recordingTime)]. *)
Definition countdown (w : World) : option string :=
  if isRecording (state w)
  then Some (formatTime (Z.of_nat SEGMENT_DURATION - Z.of_nat (recordingTime (state w))))
  else None.

(** The decimal digit of a number below ten. *)
Definition digit (n : nat) : Ascii.ascii := pretty_N_char (N.of_nat n).

(** Two digits, a colon (character 58), two digits. *)
Definition clockFace (m s : nat) : string :=
  String (digit (m / 10)) (String (digit (m mod 10)) (String (Ascii.ascii_of_nat 58)
    (String (digit (s / 10)) (String (digit (s mod 10)) EmptyString)))).

(** ** The upload client: utils/cos-upload *)

(** What the backend and the network decide in [uploadViaBackend]:
    [fetch] rejects, the response is not [ok], [response.json()] rejects,
    or the body is parsed.  Reading [data.url] of a [null] body throws a
    [TypeError], whose message is the engine's; of any other body it
    gives the [url] member, taken to be a string when it is there. *)
Inductive JsonBody :=
| BodyNull (typeErrorMessage : string)
| BodyValue (url : option string).

Inductive BackendOutcome :=
| FetchRejects (e : Thrown)
| ResponseNotOk
| JsonRejects (e : Thrown)
| JsonParsed (data : JsonBody).

(** The [catch] clause of [uploadViaBackend]. *)
Definition uploadCaught (e : Thrown) : UploadResult :=
  mkUploadResult false None
    (Some match e with
          | ThrownError m => m
          | ThrownOther => "上传失败"
          end).

(** [uploadViaBackend]: the promise always resolves, with this result. *)
Definition uploadViaBackend (o : BackendOutcome) : UploadResult :=
  match o with
  | FetchRejects e => uploadCaught e
  | ResponseNotOk => uploadCaught (ThrownError "上传失败")
  | JsonRejects e => uploadCaught e
  | JsonParsed (BodyNull m) => uploadCaught (ThrownError m)
  | JsonParsed (BodyValue u) => mkUploadResult true u None
  end.

(** [uploadAudioSegment]. *)
Definition uploadAudioSegment (o : BackendOutcome) : UploadOutcome :=
  Resolved (uploadViaBackend o).

(** ** The order form: components/VerifyForm.tsx *)

(** A string is taken as its sequence of code units; the form only asks
    whether a unit is one of the digits 0 to 9, which is what [\d] and
    [\D] mean in a JavaScript regular expression without the [u] flag. *)
Module VerifyForm.

Definition isDigit (c : Ascii.ascii) : bool :=
  (48 <=? Ascii.nat_of_ascii c) && (Ascii.nat_of_ascii c <=? 57).

(** [v.replace(/\D/g, '')]. *)
Fixpoint removeNonDigits (v : string) : string :=
  match v with
  | EmptyString => EmptyString
  | String c r => if isDigit c then String c (removeNonDigits r) else removeNonDigits r
  end.

(** [v.slice(0, n)]. *)
Definition slice (n : nat) (v : string) : string := String.substring 0 n v.

Fixpoint allDigits (v : string) : bool :=
  match v with
  | EmptyString => true
  | String c r => isDigit c && allDigits r
  end.

(** [/^\d{16}$/.test(sn)] and [/^\d{4}$/.test(tail)]. *)
Definition isValidOrderSn (sn : string) : bool :=
  Nat.eqb (String.length sn) 16 && allDigits sn.

Definition isValidMobileTail (tail : string) : bool :=
  Nat.eqb (String.length tail) 4 && allDigits tail.

Definition msgBadOrderSn : string := "订单号应为16位数字".
Definition msgBadMobileTail : string := "手机号后4位应为4位数字".
Definition msgVerifyFailed : string := "验证失败，请检查订单信息".
Definition msgNetwork : string := "网络错误，请稍后重试".

(** The body of the response of [/api/verify]: [success] as the
    condition reads it, the two spellings of the task id, the message. *)
Record VerifyResponse := mkVerifyResponse {
  success : bool;
  taskId : option string;
  task_id : option string;
  message : option string
}.

(** How the request ends: with a parsed body, or in the [catch] clause
    ([fetch] or [response.json()] rejects, or the body is [null]). *)
Inductive VerifyOutcome :=
| Responded (data : VerifyResponse)
| Failed.

(** Calls that leave the form. *)
Inductive Call :=
| Fetch (order_sn mobile_tail : string)
| OnVerified (taskId orderSn mobileTail : string).

(** The [useState] cells of the form; the requests that have not
    settled and the 800 ms timers that have not fired, each with the
    values its closure captured; the calls made, most recent first. *)
Record Form := mkForm {
  orderSn : string;
  mobileTail : string;
  isLoading : bool;
  error : option string;
  isSuccess : bool;
  requests : list (string * string);
  timers : list (string * (string * string));
  calls : list Call
}.

Definition initialForm : Form := mkForm "" "" false None false [] [] [].

Definition setOrderSn (v : string) (f : Form) : Form :=
  mkForm v (mobileTail f) (isLoading f) (error f) (isSuccess f) (requests f) (timers f) (calls f).

Definition setMobileTail (v : string) (f : Form) : Form :=
  mkForm (orderSn f) v (isLoading f) (error f) (isSuccess f) (requests f) (timers f) (calls f).

Definition setIsLoading (b : bool) (f : Form) : Form :=
  mkForm (orderSn f) (mobileTail f) b (error f) (isSuccess f) (requests f) (timers f) (calls f).

Definition setError (e : option string) (f : Form) : Form :=
  mkForm (orderSn f) (mobileTail f) (isLoading f) e (isSuccess f) (requests f) (timers f) (calls f).

Definition setIsSuccess (b : bool) (f : Form) : Form :=
  mkForm (orderSn f) (mobileTail f) (isLoading f) (error f) b (requests f) (timers f) (calls f).

(** The effect that runs once after the first render: the [order_sn]
    parameter of the page's URL, when it is there and not empty, fills
    the order number as it is. *)
Definition mount (order_sn : option string) : Form :=
  match truthy order_sn with
  | Some v => setOrderSn v initialForm
  | None => initialForm
  end.

(** The [onChange] handlers of the two inputs. *)
Definition onOrderSnChange (v : string) (f : Form) : Form :=
  setOrderSn (slice 16 (removeNonDigits v)) f.

Definition onMobileTailChange (v : string) (f : Form) : Form :=
  setMobileTail (slice 4 (removeNonDigits v)) f.

(** [handleSubmit], up to [await fetch(...)]. *)
Definition handleSubmit (f : Form) : Form :=
  let f1 := setError None f in
  if negb (isValidOrderSn (orderSn f1)) then setError (Some msgBadOrderSn) f1
  else if negb (isValidMobileTail (mobileTail f1)) then setError (Some msgBadMobileTail) f1
  else
    let f2 := setIsLoading true f1 in
    mkForm (orderSn f2) (mobileTail f2) (isLoading f2) (error f2) (isSuccess f2)
      (requests f2 ++ [(orderSn f2, mobileTail f2)]) (timers f2)
      (Fetch (orderSn f2) (mobileTail f2) :: calls f2).

(** [data.taskId || data.task_id], when [data.success] holds. *)
Definition verifiedTaskId (data : VerifyResponse) : option string :=
  if success data then
    match truthy (taskId data) with
    | Some t => Some t
    | None => truthy (task_id data)
    end
  else None.

(** [handleSubmit], after the [await]s, for the request that captured
    [sn] and [tail]. *)
Definition handleSubmit_settled (sn tail : string) (o : VerifyOutcome) (f : Form) : Form :=
  let f1 :=
    match o with
    | Responded data =>
        match verifiedTaskId data with
        | Some t =>
            let f' := setIsSuccess true f in
            mkForm (orderSn f') (mobileTail f') (isLoading f') (error f') (isSuccess f')
              (requests f') (timers f' ++ [(t, (sn, tail))]) (calls f')
        | None => setError (Some (orElse (message data) msgVerifyFailed)) f
        end
    | Failed => setError (Some msgNetwork) f
    end in
  setIsLoading false f1.

Inductive Event :=
| ChangeOrderSn (v : string)
| ChangeMobileTail (v : string)
| Submit
| Responds (k : nat) (o : VerifyOutcome)
| TimerFires (k : nat).

(** An event that cannot happen (a request that is not pending, a timer
    that is not armed) leaves the form as it is. *)
Definition step (e : Event) (f : Form) : Form :=
  match e with
  | ChangeOrderSn v => onOrderSnChange v f
  | ChangeMobileTail v => onMobileTailChange v f
  | Submit => handleSubmit f
  | Responds k o =>
      match requests f !! k with
      | Some (sn, tail) =>
          handleSubmit_settled sn tail o
            (mkForm (orderSn f) (mobileTail f) (isLoading f) (error f) (isSuccess f)
               (delete k (requests f)) (timers f) (calls f))
      | None => f
      end
  | TimerFires k =>
      match timers f !! k with
      | Some (t, (sn, tail)) =>
          mkForm (orderSn f) (mobileTail f) (isLoading f) (error f) (isSuccess f)
            (requests f) (delete k (timers f)) (OnVerified t sn tail :: calls f)
      | None => f
      end
  end.

Fixpoint run (evs : list Event) (f : Form) : Form :=
  match evs with
  | [] => f
  | e :: evs' => run evs' (step e f)
  end.

(** A request with a 16-digit order number and a 4-digit tail; a call of
    [onVerified] with a task id that is not empty and such a pair. *)
Definition wellFormed (c : Call) : bool :=
  match c with
  | Fetch sn tail => isValidOrderSn sn && isValidMobileTail tail
  | OnVerified t sn tail =>
      negb (String.eqb t "") && isValidOrderSn sn && isValidMobileTail tail
  end.

(** How many digits [v] holds. *)
Definition digitCount (v : string) : nat := String.length (removeNonDigits v).

End VerifyForm.

(** What the calls made, the pending requests and the armed timers of
    the form have in common. *)
Definition formInvariant (f : VerifyForm.Form) : Prop :=
  forallb VerifyForm.wellFormed (VerifyForm.calls f) = true
  /\ Forall (fun p => VerifyForm.isValidOrderSn (fst p) = true
                      /\ VerifyForm.isValidMobileTail (snd p) = true)
       (VerifyForm.requests f)
  /\ Forall (fun p => String.eqb (fst p) "" = false
                      /\ VerifyForm.isValidOrderSn (fst (snd p)) = true
                      /\ VerifyForm.isValidMobileTail (snd (snd p)) = true)
       (VerifyForm.timers f).

(** ** The player: components/Player.tsx *)

(** The cursor of the player, the flags set by the events of the audio
    element, and the timers of the auto-advance that have not fired.  The
    two toggles [showQR] and [isLiked] are left out. *)
Module Player.

(** [interface Segment] of Player.tsx. *)
Record Segment := mkSegment {
  id : nat;
  uploadUrl : option string
}.

Record State := mkState {
  currentSegment : nat;
  isPlaying : bool;
  progress : Q;
  duration : Q;
  advanceTimers : nat;
  playTimers : nat
}.

Definition initialState : State := mkState 0 false 0%Q 0%Q 0 0.

(** [segments[currentSegment]?.uploadUrl]. *)
Definition currentUrl (segments : list Segment) (s : State) : option string :=
  match segments !! currentSegment s with
  | Some g => uploadUrl g
  | None => None
  end.

(** [disabled={!currentUrl}] on the play and the download button. *)
Definition controlsDisabled (segments : list Segment) (s : State) : bool :=
  match truthy (currentUrl segments s) with
  | Some _ => false
  | None => true
  end.

(** [handleSegmentChange]. *)
Definition handleSegmentChange (index : nat) (s : State) : State :=
  if Nat.eqb index (currentSegment s) then s
  else mkState index false 0%Q (duration s) (advanceTimers s) (playTimers s).

(** The listener of [ended]: [currentSegment < segments.length - 1] is
    written without the subtraction. *)
Definition handleEnded (segments : list Segment) (s : State) : State :=
  if (currentSegment s + 1 <? length segments)%nat
  then mkState (currentSegment s) false (progress s) (duration s)
         (S (advanceTimers s)) (playTimers s)
  else mkState (currentSegment s) false (progress s) (duration s)
         (advanceTimers s) (playTimers s).

(** The listener of [timeupdate]; [d] is [None] for a duration that is
    [NaN]. *)
Definition handleTimeUpdate (t : Q) (d : option Q) (s : State) : State :=
  mkState (currentSegment s) (isPlaying s) t
    match d with Some x => x | None => 0%Q end
    (advanceTimers s) (playTimers s).

Definition setIsPlaying (b : bool) (s : State) : State :=
  mkState (currentSegment s) b (progress s) (duration s) (advanceTimers s) (playTimers s).

Inductive Event :=
| ClickSegment (idx : nat)
| AudioEnded
| AudioPlay
| AudioPause
| TimeUpdate (t : Q) (d : option Q)
| AdvanceTimerFires
| PlayTimerFires.

(** There is a button for each index of [segments]; a timer fires only
    when one is armed.  The 500 ms timer runs
    [setCurrentSegment(prev => prev + 1)] and arms the 100 ms timer, which
    calls [audio.play()]. *)
Definition step (segments : list Segment) (e : Event) (s : State) : State :=
  match e with
  | ClickSegment idx => if (idx <? length segments)%nat then handleSegmentChange idx s else s
  | AudioEnded => handleEnded segments s
  | AudioPlay => setIsPlaying true s
  | AudioPause => setIsPlaying false s
  | TimeUpdate t d => handleTimeUpdate t d s
  | AdvanceTimerFires =>
      match advanceTimers s with
      | S n => mkState (currentSegment s + 1) (isPlaying s) (progress s) (duration s)
                 n (S (playTimers s))
      | O => s
      end
  | PlayTimerFires =>
      match playTimers s with
      | S n => mkState (currentSegment s) (isPlaying s) (progress s) (duration s)
                 (advanceTimers s) n
      | O => s
      end
  end.

Fixpoint run (segments : list Segment) (evs : list Event) (s : State) : State :=
  match evs with
  | [] => s
  | e :: evs' => run segments evs' (step segments e s)
  end.

(** Three uploaded segments, and the player after a click on the second
    one. *)
Definition sampleSegments : list Segment :=
  [ mkSegment 0 (Some "https://cos.example/audio/segment_0.webm");
    mkSegment 1 (Some "https://cos.example/audio/segment_1.webm");
    mkSegment 2 (Some "https://cos.example/audio/segment_2.webm") ].

Definition onSecondSegment : State := step sampleSegments (ClickSegment 1) initialState.

End Player.

(** ** The service worker: public/sw.js *)

Module ServiceWorker.

Definition CACHE_NAME : string := "voice-capsule-v1".

(** A URL as [new URL(request.url)] splits it. *)
Record Url := mkUrl {
  origin : string;
  pathname : string;
  search : string
}.

Global Instance Url_eq_dec : EqDecision Url.
Proof. solve_decision. Defined.

Record Request := mkRequest {
  method : string;
  url : Url;
  mode : string
}.

Record Response := mkResponse {
  status : nat;
  body : string
}.

(** A cache holds at most one response for a URL; the cache storage
    keeps its caches in the order they were created. *)
Abbreviation Cache := (list (Url * Response)) (only parsing).
Abbreviation CacheStorage := (list (string * list (Url * Response))) (only parsing).

(** The static assets, as URLs of the worker's own origin. *)
Definition STATIC_ASSETS (self : string) : list Url :=
  [ mkUrl self "/" ""; mkUrl self "/index.html" ""; mkUrl self "/manifest.json" "";
    mkUrl self "/icons/icon-192x192.png" ""; mkUrl self "/icons/icon-512x512.png" "" ].

(** [cache.match(url)] and [cache.put(url, response)]. *)
Fixpoint cacheMatch (u : Url) (c : Cache) : option Response :=
  match c with
  | [] => None
  | (k, r) :: c' => if bool_decide (k = u) then Some r else cacheMatch u c'
  end.

Definition cachePut (u : Url) (r : Response) (c : Cache) : Cache :=
  filter (fun p => fst p <> u) c ++ [(u, r)].

(** [caches.match(url)]: the first cache, in creation order, that holds
    a response. *)
Fixpoint cachesMatch (u : Url) (cs : CacheStorage) : option Response :=
  match cs with
  | [] => None
  | (_, c) :: cs' =>
      match cacheMatch u c with
      | Some r => Some r
      | None => cachesMatch u cs'
      end
  end.

(** [caches.open(name).then(cache => f(cache))]: the cache is created
    when there is none of that name. *)
Fixpoint openWith (name : string) (f : Cache -> Cache) (cs : CacheStorage) : CacheStorage :=
  match cs with
  | [] => [(name, f [])]
  | (n, c) :: cs' => if String.eqb n name then (n, f c) :: cs' else (n, c) :: openWith name f cs'
  end.

(** The cache of that name, when there is one. *)
Fixpoint cacheNamed (name : string) (cs : CacheStorage) : option Cache :=
  match cs with
  | [] => None
  | (n, c) :: cs' => if String.eqb n name then Some c else cacheNamed name cs'
  end.

(** The [install] listener.  [cache.addAll] stores a response for each
    asset when all of them could be fetched with an [ok] status, and
    nothing otherwise; [fetched] holds those responses. *)
Definition onInstall (self : string) (fetched : option (list Response)) (cs : CacheStorage)
    : CacheStorage :=
  openWith CACHE_NAME
    (fun c =>
       match fetched with
       | Some rs =>
           if Nat.eqb (length rs) (length (STATIC_ASSETS self))
           then foldl (fun c' p => cachePut (fst p) (snd p) c') c (zip (STATIC_ASSETS self) rs)
           else c
       | None => c
       end) cs.

(** The [activate] listener: every cache of another name is deleted. *)
Definition onActivate (cs : CacheStorage) : CacheStorage :=
  filter (fun p => fst p = CACHE_NAME) cs.

(** [pathname.match(/\.(webm|mp3|wav|ogg)$/)]. *)
Definition endsWith (suffix s : string) : bool :=
  (String.length suffix <=? String.length s)%nat
  && String.eqb (String.substring (String.length s - String.length suffix)
                   (String.length suffix) s) suffix.

Definition isAudioPath (p : string) : bool :=
  endsWith ".webm" p || endsWith ".mp3" p || endsWith ".wav" p || endsWith ".ogg" p.

(** The requests the [fetch] listener answers itself. *)
Definition intercepted (req : Request) : bool :=
  String.eqb (method req) "GET"
  && negb (String.prefix "/api/" (pathname (url req)))
  && negb (isAudioPath (pathname (url req))).

(** What the listener does with the event: it returns without calling
    [respondWith], or it answers; the answer of [caches.match] can be
    [undefined]. *)
Inductive Answer :=
| NotHandled
| RespondWith (r : option Response).

Definition offlineResponse : Response := mkResponse 503 "Offline".

(** The [fetch] listener; [network] is what [fetch(request)] resolves
    with, [None] when it rejects. *)
Definition onFetch (self : string) (req : Request) (network : option Response)
    (cs : CacheStorage) : Answer * CacheStorage :=
  if negb (intercepted req) then (NotHandled, cs)
  else
    match network with
    | Some r =>
        (RespondWith (Some r),
         if Nat.eqb (status r) 200 then openWith CACHE_NAME (cachePut (url req) r) cs else cs)
    | None =>
        match cachesMatch (url req) cs with
        | Some r => (RespondWith (Some r), cs)
        | None =>
            if String.eqb (mode req) "navigate"
            then (RespondWith (cachesMatch (mkUrl self "/index.html" "") cs), cs)
            else (RespondWith (Some offlineResponse), cs)
        end
    end.

Inductive Event :=
| Install (fetched : option (list Response))
| Activate
| FetchEvent (req : Request) (network : option Response).

Definition step (self : string) (e : Event) (cs : CacheStorage) : CacheStorage :=
  match e with
  | Install fetched => onInstall self fetched cs
  | Activate => onActivate cs
  | FetchEvent req network => snd (onFetch self req network cs)
  end.

Fixpoint run (self : string) (evs : list Event) (cs : CacheStorage) : CacheStorage :=
  match evs with
  | [] => cs
  | e :: evs' => run self evs' (step self e cs)
  end.

(** An entry the worker may hold: a static asset, or a response with
    status 200 for a path that is neither under [/api/] nor an audio
    file. *)
Definition cacheable (self : string) (p : Url * Response) : Prop :=
  fst p ∈ STATIC_ASSETS self
  \/ (status (snd p) = 200
      /\ String.prefix "/api/" (pathname (fst p)) = false
      /\ isAudioPath (pathname (fst p)) = false).

(** Every entry of the worker's cache is one it may hold. *)
Definition cleanCaches (self : string) (cs : CacheStorage) : Prop :=
  forall c, cacheNamed CACHE_NAME cs = Some c -> Forall (cacheable self) c.

End ServiceWorker.

(** ** The development build *)

(** The entry point renders [<React.StrictMode><App /></React.StrictMode>].
    In the development build React then calls every state updater twice
    with the same previous state.  The other updaters of the hook and of
    the component only build the next state; the one of the tick calls
    [stopRecording()] as well, so in that build the call is made twice at
    the limit.  [strict] is true for the development build; without it
    the updater is [tick]. *)
Definition tickUpdater (strict : bool) (w : World) : World :=
  let newTime := recordingTime (state w) + 1 in
  let w1 := if (MAX_RECORDING_TIME <=? newTime)%nat
            then (if strict
                  then stopRecording WaitInternal (stopRecording WaitInternal w)
                  else stopRecording WaitInternal w)
            else w in
  setState (fun s => mkRecorderState (isRecording s) (isPaused s) newTime (volume s)
                       (error s) (audioBlob s) (audioUrl s)) w1.

(** The tick interval [t] fires, in either build, and the effect on
    [state.isRecording, state.recordingTime] follows. *)
Definition tickStep (strict : bool) (t : TimerId) (w : World) : World :=
  autoStopEffect w (if armed t TickInterval w then tickUpdater strict w else w).

(** ** What the page can deliver *)

(** A user event reaches its handler through a control the view has
    mounted: the hold button for a press or a release; the stop button;
    the three click controls; the complete button.  A disabled hold
    button is taken to deliver nothing.  Timers and promises need no
    control. *)
Definition offered (e : Event) (w : World) : bool :=
  match e with
  | TouchStart | TouchEnd => holdButtonRendered w && negb (holdButtonDisabled w)
  | ClickManualStop => manualStopControlRendered w
  | ClickRetryUpload => retryUploadControlRendered w
  | ClickRetry => reRecordControlRendered w
  | ClickNext => nextControlRendered w
  | ClickComplete => canProceed w
  | _ => true
  end.

(** Every event of the run is offered in the world in which it happens. *)
Fixpoint offeredAlong (evs : list Event) (w : World) : bool :=
  match evs with
  | [] => true
  | e :: evs' => offered e w && offeredAlong evs' (step e w)
  end.

(** Hold on segment 0 and go on recording: the sixtieth tick stops the
    recording at the limit. *)
Definition autoStopRun : list Event := startGesture ++ repeat (TickFires 4) 60.

(** ... and RecordRTC answers the two stops that are pending with the
    recording. *)
Definition firstTake : list Event :=
  autoStopRun ++ [StopCompletes 0 (Some sampleBlob); StopCompletes 0 (Some sampleBlob)].

(** ... and the first upload of the take succeeds, the second fails. *)
Definition mixedUploads : list Event :=
  firstTake ++ [UploadSettles 0 uploadSuccess; UploadSettles 0 uploadFailure].

(** Two presses, both released 100 ms later; then the timer of the first
    press, handle 0, comes due. *)
Definition twoEarlyReleases : list Event :=
  [TouchStart; TouchStart; Elapse 100; TouchEnd; TouchEnd; Elapse 400; HoldTimerFires 0].

(** Two presses held for the whole delay: both timers fire and the
    microphone is granted twice.  The handles given out are 0 and 1 (hold
    timers), 2 to 6 for the first grant (tick interval 5) and 7 to 11 for
    the second (recorder 9, tick interval 10). *)
Definition doubleStart : list Event :=
  [TouchStart; TouchStart; Elapse HOLD_DELAY; HoldTimerFires 0; HoldTimerFires 1;
   MediaSettles MediaGranted; MediaSettles MediaGranted].

(** ... and the two tick intervals bring the elapsed time to the limit,
    where the recording is stopped; RecordRTC answers both pending
    stops. *)
Definition doubleStartStopped : list Event :=
  doubleStart ++ concat (repeat [TickFires 5; TickFires 10] 30)
  ++ [StopCompletes 0 (Some sampleBlob); StopCompletes 0 (Some sampleBlob)].

(** A second take of segment 0 that a failed upload of the first take
    overtakes: the first take ends at the limit and its first upload
    succeeds; the segment is recorded again, with two presses (hold timers
    10 and 11, tick intervals 15 and 20); the second upload of the first
    take fails while the second take records, which puts the segment in
    [Error]; the elapsed time is brought to 59 s. *)
Definition secondTake : list Event :=
  firstTake
  ++ [UploadSettles 0 uploadSuccess; ClickRetry;
      TouchStart; TouchStart; Elapse HOLD_DELAY; HoldTimerFires 10; HoldTimerFires 11;
      MediaSettles MediaGranted; MediaSettles MediaGranted;
      UploadSettles 0 uploadFailure]
  ++ concat (repeat [TickFires 15; TickFires 20] 29) ++ [TickFires 15].

(** * Proofs *)

Ltac destruct_world w :=
  destruct w as [[rec pau tm vol err ab au] [rr sr tr vr ar an]
                 [clk nid ivs tos ls oc ou] [ps pst fl]
                 [cur segs hold guide htr] lg].

(** ** Lists of timers *)

Lemma Forall_filter_keep {A} (P Q : A -> Prop) `{!forall x, Decision (Q x)} (l : list A) :
  Forall P l -> Forall P (filter Q l).
Proof.
  rewrite !Forall_forall. intros HP x Hx. apply list_elem_of_filter in Hx. apply HP, Hx.
Qed.

Lemma Forall_filter_self {A} (Q : A -> Prop) `{!forall x, Decision (Q x)} (l : list A) :
  Forall Q (filter Q l).
Proof.
  rewrite Forall_forall. intros x Hx. apply list_elem_of_filter in Hx. apply Hx.
Qed.

Lemma Forall_lt_S {A} (f : A -> nat) n (l : list A) :
  Forall (fun p => f p < n) l -> Forall (fun p => f p < S n) l.
Proof. intros H. eapply Forall_impl; [exact H|]. intros; cbn in *; lia. Qed.

Lemma filter_filter_same {A} (P : A -> Prop) `{!forall x, Decision (P x)} (l : list A) :
  filter P (filter P l) = filter P l.
Proof.
  induction l as [|x l IH]; [done|].
  rewrite filter_cons. case_decide as Hx; [|done].
  rewrite filter_cons. case_decide; [|done]. by rewrite IH.
Qed.

(** A timer whose handle was filtered out is not armed. *)
Lemma not_armed_id (t : nat) (k : IntervalKind) (iv : list (nat * IntervalKind)) :
  Forall (fun p => fst p <> t) iv ->
  existsb (fun p : nat * IntervalKind => Nat.eqb (fst p) t && bool_decide (snd p = k)) iv = false.
Proof.
  induction 1 as [|[t' k'] iv Hx _ IH]; [done|].
  cbn in *. rewrite IH. apply Nat.eqb_neq in Hx. by rewrite Hx.
Qed.

(** No interval of kind [k] is left, so none of that kind is armed. *)
Lemma not_armed_kind (t : nat) (k : IntervalKind) (iv : list (nat * IntervalKind)) :
  Forall (fun p => snd p <> k) iv ->
  existsb (fun p : nat * IntervalKind => Nat.eqb (fst p) t && bool_decide (snd p = k)) iv = false.
Proof.
  induction 1 as [|[t' k'] iv Hx _ IH]; [done|].
  cbn in *. rewrite IH. rewrite (bool_decide_eq_false_2 _ Hx). by rewrite andb_false_r.
Qed.

Lemma findTimeout_app_new t d l :
  findTimeout t l = None -> findTimeout t (l ++ [(t, d)]) = Some d.
Proof.
  induction l as [|[t' d'] l IH]; cbn; [by rewrite Nat.eqb_refl|].
  destruct (Nat.eqb t' t); [done|auto].
Qed.

Lemma findTimeout_filter t (l : list (nat * (nat * nat))) :
  findTimeout t l = None -> filter (fun p => fst p <> t) l = l.
Proof.
  induction l as [|[t' d'] l IH]; [done|]. simpl findTimeout.
  destruct (Nat.eqb t' t) eqn:E; [done|]. intros H.
  rewrite filter_cons. apply Nat.eqb_neq in E.
  case_decide as Hd; [|by destruct Hd]. by rewrite IH.
Qed.

Lemma filter_app_new t d (l : list (nat * (nat * nat))) :
  filter (fun p => fst p <> t) (l ++ [(t, d)]) = filter (fun p => fst p <> t) l.
Proof.
  rewrite filter_app, filter_cons. case_decide as Hd; [by destruct Hd|].
  by rewrite filter_nil, app_nil_r.
Qed.

Lemma findTimeout_fresh (n : nat) (l : list (nat * (nat * nat))) :
  Forall (fun p => fst p < n) l -> findTimeout n l = None.
Proof.
  induction 1 as [|[t d] l Hx _ IH]; [done|]. cbn in *.
  destruct (Nat.eqb_spec t n); [lia|done].
Qed.

Lemma filter_noTicks (t : nat) (iv : list (nat * IntervalKind)) :
  Forall (fun p => snd p = TickInterval -> Some t = Some (fst p)) iv ->
  Forall (fun p => snd p <> TickInterval) (filter (fun p => fst p <> t) iv).
Proof.
  rewrite !Forall_forall. intros H p Hp. apply list_elem_of_filter in Hp as [Hne Hin].
  intros Hk. specialize (H p Hin Hk). congruence.
Qed.

(** ** The capture session *)

(** Clearing twice is clearing once. *)
Lemma cleanup_idem w : stopRecording_cleanup (stopRecording_cleanup w) = stopRecording_cleanup w.
Proof.
  destruct_world w. unfold stopRecording_cleanup.
  destruct tr, vr, ar; cbn; unfold closeContext, setBrowser; cbn; by rewrite ?filter_filter_same.
Qed.

(** What the clearing leaves alone, and what it resets. *)
Lemma cleanup_frame w :
  state (stopRecording_cleanup w) = state w /\ orch (stopRecording_cleanup w) = orch w
  /\ pend (stopRecording_cleanup w) = pend w /\ log (stopRecording_cleanup w) = log w
  /\ recorderRef (refs (stopRecording_cleanup w)) = recorderRef (refs w)
  /\ streamRef (refs (stopRecording_cleanup w)) = streamRef (refs w)
  /\ timerRef (refs (stopRecording_cleanup w)) = None
  /\ volumeRef (refs (stopRecording_cleanup w)) = None.
Proof.
  destruct_world w. unfold stopRecording_cleanup.
  destruct tr, vr, ar; cbn; done.
Qed.

(** With its tick interval owned by [timerRef], the clearing leaves no
    tick interval armed. *)
Lemma cleanup_noTicks w : ticksOwned w -> noTicks (stopRecording_cleanup w).
Proof.
  destruct_world w. unfold ticksOwned, noTicks, stopRecording_cleanup. cbn.
  destruct tr as [t|]; cbn.
  - intros H. destruct vr, ar; cbn; auto using Forall_filter_keep, filter_noTicks.
  - intros H.
    assert (Forall (fun p : nat * IntervalKind => snd p <> TickInterval) ivs).
    { eapply Forall_impl; [exact H|]. cbn. intros p Hp Hk. by specialize (Hp Hk). }
    destruct vr, ar; cbn; auto using Forall_filter_keep.
Qed.

(** The effect does not run when neither dependency changed. *)
Lemma autoStopEffect_same w w' :
  isRecording (state w') = isRecording (state w) ->
  recordingTime (state w') = recordingTime (state w) ->
  autoStopEffect w w' = w'.
Proof.
  intros E1 E2. unfold autoStopEffect. by rewrite E1, E2, Bool.eqb_reflx, Nat.eqb_refl.
Qed.

(** ** What every step keeps *)

Section Keeps.

Variable U : option string -> Prop.

Lemma keeps_refl w : keeps U w w.
Proof. unfold keeps. split_and!; auto. Qed.

Lemma keeps_trans w1 w2 w3 : keeps U w1 w2 -> keeps U w2 w3 -> keeps U w1 w3.
Proof.
  intros (L1 & C1 & S1 & R1 & T1) (L2 & C2 & S2 & R2 & T2).
  unfold keeps. split_and!; auto. congruence.
Qed.

Ltac fin :=
  auto; try done;
  try (intros Hc E; specialize (Hc E); unfold initialRefs in *; congruence);
  try (intros []; split; auto using Forall_filter_keep, Forall_lt_S).

Ltac prim_with tac w :=
  intros; eapply keeps_trans; [eassumption|]; destruct_world w; tac;
  unfold keeps, refsCoherent, timersFresh; cbn;
  split_and!; fin.

Ltac prim w := prim_with idtac w.

Lemma keeps_setState w0 f w : keeps U w0 w -> keeps U w0 (setState f w).
Proof. prim w. Qed.

Lemma keeps_setPend w0 f w : keeps U w0 w -> keeps U w0 (setPend f w).
Proof. prim w. Qed.

Lemma keeps_emit w0 c w : keeps U w0 w -> keeps U w0 (emit c w).
Proof. prim w. Qed.

Lemma keeps_setIsHoldStarting w0 b w : keeps U w0 w -> keeps U w0 (setIsHoldStarting b w).
Proof. prim w. Qed.

Lemma keeps_setShowGuide w0 b w : keeps U w0 w -> keeps U w0 (setShowGuide b w).
Proof. prim w. Qed.

Lemma keeps_setHoldTimerRef w0 b w : keeps U w0 w -> keeps U w0 (setHoldTimerRef b w).
Proof. prim w. Qed.

Lemma keeps_advanceClock w0 dt w : keeps U w0 w -> keeps U w0 (advanceClock dt w).
Proof. prim w. Qed.

Lemma keeps_clearInterval w0 t w : keeps U w0 w -> keeps U w0 (clearInterval t w).
Proof. prim w. Qed.

Lemma keeps_clearTimeout w0 t w : keeps U w0 w -> keeps U w0 (clearTimeout t w).
Proof. prim w. Qed.

Lemma keeps_revokeObjectURL w0 t w : keeps U w0 w -> keeps U w0 (revokeObjectURL t w).
Proof. prim w. Qed.

Lemma keeps_stopTracks w0 t w : keeps U w0 w -> keeps U w0 (stopTracks t w).
Proof. prim w. Qed.

Lemma keeps_closeContext w0 t w : keeps U w0 w -> keeps U w0 (closeContext t w).
Proof. prim w. Qed.

Lemma keeps_setSegment w0 idx f w :
  (forall P, stable U P -> forall g, P g -> P (f g)) ->
  keeps U w0 w -> keeps U w0 (setSegment idx f w).
Proof.
  intros Hf. prim w.
  - by rewrite length_alter.
  - intros P HP Hs. apply Forall_alter; [done|]. intros g _. by apply Hf.
Qed.

Lemma keeps_freshId w0 w a w1 : freshId w = (a, w1) -> keeps U w0 w -> keeps U w0 w1.
Proof. intros [= <- <-]. prim w. Qed.

Lemma keeps_createObjectURL w0 w a w1 :
  createObjectURL w = (a, w1) -> keeps U w0 w -> keeps U w0 w1.
Proof. intros [= <- <-]. prim w. Qed.

Lemma keeps_setTimeout w0 d i w a w1 :
  setTimeout d i w = (a, w1) -> keeps U w0 w -> keeps U w0 w1.
Proof.
  intros [= <- <-]. prim w.
  apply Forall_app. split; [by apply Forall_lt_S|]. repeat constructor.
Qed.

Lemma keeps_startRecording w0 w : keeps U w0 w -> keeps U w0 (startRecording w).
Proof. prim w. Qed.

Lemma keeps_startRecording_settled w0 o w :
  keeps U w0 w -> keeps U w0 (startRecording_settled o w).
Proof.
  destruct o; prim w.
  - eapply Forall_impl; [eassumption|]. intros; cbn in *; lia.
  - rewrite !Forall_app. split_and!; [|repeat constructor..].
    eapply Forall_impl; [eassumption|]. intros; cbn in *; lia.
Qed.

Lemma keeps_stopRecording_cleanup w0 w :
  keeps U w0 w -> keeps U w0 (stopRecording_cleanup w).
Proof.
  prim_with ltac:(unfold stopRecording_cleanup; destruct tr, vr, ar) w.
Qed.

Lemma keeps_resetRecording w0 w : keeps U w0 w -> keeps U w0 (resetRecording w).
Proof.
  prim_with ltac:(unfold resetRecording; destruct tr, vr, sr, ar, au) w.
Qed.

Lemma keeps_stopRecording_callback w0 b w r w1 :
  stopRecording_callback b w = (r, w1) -> keeps U w0 w -> keeps U w0 w1.
Proof.
  unfold stopRecording_callback. intros E.
  prim_with ltac:(revert E; cbn; destruct rr, b, sr; cbn; intros [= <- <-]) w.
Qed.

Lemma keeps_volumeSample w0 a w : keeps U w0 w -> keeps U w0 (volumeSample a w).
Proof. unfold volumeSample. intros. case_match; [by apply keeps_setState|done]. Qed.

Lemma keeps_setCurrentSegment_next w0 w :
  currentSegment (orch w) < 2 ->
  keeps U w0 w -> keeps U w0 (setCurrentSegment (fun prev => prev + 1) w).
Proof. intros Hlt. prim w. cbn in Hlt. intros. lia. Qed.

Lemma keeps_withStatus w0 idx s w :
  s <> Uploaded -> s <> Pending ->
  keeps U w0 w -> keeps U w0 (setSegment idx (withStatus s) w).
Proof.
  intros. apply keeps_setSegment; [|done]. intros P HP g.
  by apply (stable_status U P HP).
Qed.

Lemma keeps_patchRecorded w0 idx b u w :
  keeps U w0 w -> keeps U w0 (setSegment idx (patchRecorded b u) w).
Proof.
  intros. apply keeps_setSegment; [|done]. intros P HP g.
  by apply (stable_recorded U P HP).
Qed.

Lemma keeps_patchCaptureFailed w0 idx m w :
  keeps U w0 w -> keeps U w0 (setSegment idx (patchCaptureFailed m) w).
Proof.
  intros. apply keeps_setSegment; [|done]. intros P HP g.
  by apply (stable_capture U P HP).
Qed.

Lemma keeps_patchUploadFailed w0 idx m w :
  keeps U w0 w -> keeps U w0 (setSegment idx (patchUploadFailed m) w).
Proof.
  intros. apply keeps_setSegment; [|done]. intros P HP g.
  by apply (stable_failed U P HP).
Qed.

Lemma keeps_patchReRecord w0 idx w :
  keeps U w0 w -> keeps U w0 (setSegment idx patchReRecord w).
Proof.
  intros. apply keeps_setSegment; [|done]. intros P HP g.
  by apply (stable_rerecord U P HP).
Qed.

Lemma keeps_patchUploaded w0 idx u w :
  U u -> keeps U w0 w -> keeps U w0 (setSegment idx (patchUploaded u) w).
Proof.
  intros. apply keeps_setSegment; [|done]. intros P HP g.
  by apply (stable_uploaded U P HP).
Qed.

Create HintDb keeps discriminated.

Hint Resolve keeps_refl keeps_setState keeps_setPend keeps_emit keeps_setIsHoldStarting
  keeps_setShowGuide keeps_setHoldTimerRef keeps_advanceClock keeps_clearInterval
  keeps_clearTimeout keeps_revokeObjectURL keeps_stopTracks keeps_closeContext
  keeps_freshId keeps_createObjectURL keeps_setTimeout keeps_startRecording
  keeps_startRecording_settled keeps_stopRecording_cleanup keeps_resetRecording
  keeps_stopRecording_callback keeps_volumeSample keeps_withStatus keeps_patchRecorded
  keeps_patchCaptureFailed keeps_patchUploadFailed keeps_patchReRecord
  keeps_patchUploaded : keeps.

Ltac comp := intros; repeat case_match; eauto 12 with keeps.

Lemma keeps_uploadSegment w0 b idx w : keeps U w0 w -> keeps U w0 (uploadSegment b idx w).
Proof. unfold uploadSegment. comp. Qed.

Hint Resolve keeps_uploadSegment : keeps.

Lemma keeps_uploadCorrected w0 idx b w :
  keeps U w0 w -> keeps U w0 (uploadCorrected idx b w).
Proof. unfold uploadCorrected. comp. Qed.

Hint Resolve keeps_uploadCorrected : keeps.

Lemma keeps_handleAutoStop_resumed w0 idx b w :
  keeps U w0 w -> keeps U w0 (handleAutoStop_resumed idx b w).
Proof. unfold handleAutoStop_resumed. comp. Qed.

Lemma keeps_handleTouchEnd_resumed w0 idx b w :
  keeps U w0 w -> keeps U w0 (handleTouchEnd_resumed idx b w).
Proof. unfold handleTouchEnd_resumed. comp. Qed.

Hint Resolve keeps_handleAutoStop_resumed keeps_handleTouchEnd_resumed : keeps.

Lemma keeps_resumeStop w0 k b w : keeps U w0 w -> keeps U w0 (resumeStop k b w).
Proof. unfold resumeStop. comp. Qed.

Hint Resolve keeps_resumeStop : keeps.

Lemma keeps_stopRecording w0 k w : keeps U w0 w -> keeps U w0 (stopRecording k w).
Proof. unfold stopRecording. comp. Qed.

Hint Resolve keeps_stopRecording : keeps.

Lemma keeps_stopRecording_settled w0 k b w :
  keeps U w0 w -> keeps U w0 (stopRecording_settled k b w).
Proof. unfold stopRecording_settled. comp. Qed.

Lemma keeps_tick w0 w : keeps U w0 w -> keeps U w0 (tick w).
Proof. unfold tick. comp. Qed.

Lemma keeps_handleAutoStop w0 w : keeps U w0 w -> keeps U w0 (handleAutoStop w).
Proof. unfold handleAutoStop. comp. Qed.

Lemma keeps_handleTouchStart w0 w : keeps U w0 w -> keeps U w0 (handleTouchStart w).
Proof. unfold handleTouchStart. comp. Qed.

Lemma keeps_holdCallback w0 idx w : keeps U w0 w -> keeps U w0 (holdCallback idx w).
Proof. unfold holdCallback. comp. Qed.

Lemma keeps_handleTouchEnd w0 w : keeps U w0 w -> keeps U w0 (handleTouchEnd w).
Proof. unfold handleTouchEnd. comp. Qed.

Hint Resolve keeps_handleTouchEnd : keeps.

Lemma keeps_handleManualStop w0 w : keeps U w0 w -> keeps U w0 (handleManualStop w).
Proof. unfold handleManualStop. comp. Qed.

Lemma keeps_handleRetryUpload w0 w : keeps U w0 w -> keeps U w0 (handleRetryUpload w).
Proof. unfold handleRetryUpload, alert. comp. Qed.

Lemma keeps_handleRetry w0 w : keeps U w0 w -> keeps U w0 (handleRetry w).
Proof. unfold handleRetry, alert. comp. Qed.

Lemma keeps_handleNextSegment w0 w : keeps U w0 w -> keeps U w0 (handleNextSegment w).
Proof.
  unfold handleNextSegment. intros. case_match; [|done].
  apply keeps_resetRecording, keeps_emit, keeps_setCurrentSegment_next; [|done].
  by apply Nat.ltb_lt.
Qed.

Lemma keeps_handleComplete w0 w : keeps U w0 w -> keeps U w0 (handleComplete w).
Proof. unfold handleComplete, alert. comp. Qed.

Hint Resolve keeps_stopRecording_settled keeps_tick keeps_handleAutoStop
  keeps_handleTouchStart keeps_holdCallback keeps_handleManualStop
  keeps_handleRetryUpload keeps_handleRetry keeps_handleNextSegment
  keeps_handleComplete : keeps.

Lemma keeps_uploadSegment_settled w0 idx o w :
  (forall r, o = Resolved r -> success r = true -> U (truthy (result_url r))) ->
  keeps U w0 w -> keeps U w0 (uploadSegment_settled idx o w).
Proof. unfold uploadSegment_settled. intros Ho. comp. Qed.

Lemma keeps_handle w0 e w : admits U e -> keeps U w0 w -> keeps U w0 (handle e w).
Proof.
  intros He. destruct e; cbn [handle]; comp.
  apply keeps_uploadSegment_settled; [|auto with keeps].
  intros r -> Hs. by apply He.
Qed.

Lemma keeps_step w0 e w : admits U e -> keeps U w0 w -> keeps U w0 (step e w).
Proof.
  intros He Hw. unfold step, autoStopEffect.
  repeat case_match; auto using keeps_handle, keeps_handleAutoStop.
Qed.

Lemma keeps_run w0 evs w :
  Forall (admits U) evs -> keeps U w0 w -> keeps U w0 (run evs w).
Proof.
  intros H. revert w. induction H as [|e evs He _ IH]; intros w Hw; [done|].
  cbn. apply IH. by apply keeps_step.
Qed.

End Keeps.

(** ** Every reachable world *)

Lemma any_event_admitted (e : Event) : admits (fun _ => True) e.
Proof. destruct e as [| | | | | | | | | | | | |k [r|t]]; cbn; auto. Qed.

(** Three segments, the cursor on one of them, coherent refs and fresh
    timer handles, whatever has happened since the first render. *)
Lemma reachable_shape (evs : list Event) :
  length (segments (orch (run evs initialWorld))) = 3
  /\ currentSegment (orch (run evs initialWorld)) <= 2
  /\ refsCoherent (run evs initialWorld)
  /\ timersFresh (run evs initialWorld).
Proof.
  assert (H : keeps (fun _ => True) initialWorld (run evs initialWorld)).
  { apply keeps_run; [|apply keeps_refl].
    apply Forall_forall. intros e _. apply any_event_admitted. }
  destruct H as (HL & HC & _ & HR & HT).
  split; [exact HL|]. split; [apply HC; cbn; lia|].
  split; [by apply HR|]. apply HT. split; constructor.
Qed.

(** The handle the next timer gets is not the handle of an armed
    timeout. *)
Lemma reachable_handle_fresh (evs : list Event) :
  findTimeout (nextId (browser (run evs initialWorld)))
              (timeouts (browser (run evs initialWorld))) = None.
Proof.
  destruct (reachable_shape evs) as (_ & _ & _ & [Ht _]). by apply findTimeout_fresh.
Qed.

(** A pending segment carries no remote URL: no patch breaks it. *)
Lemma stable_pending_no_url :
  stable (fun _ => True) (fun g => status g = Pending -> uploadUrl g = None).
Proof. split; cbn; intros; congruence. Qed.

(** An uploaded segment carries a remote URL, as long as successful
    uploads deliver one. *)
Lemma stable_uploaded_has_url :
  stable is_Some (fun g => status g = Uploaded -> is_Some (uploadUrl g)).
Proof. split; cbn; intros; try congruence; auto. Qed.

(** ** Steps that begin no stop sequence *)

Lemma quiet_refl w : quiet w w.
Proof. unfold quiet. split_and!; auto. Qed.

Lemma quiet_trans w1 w2 w3 : quiet w1 w2 -> quiet w2 w3 -> quiet w1 w3.
Proof.
  intros (D1 & N1 & S1) (D2 & N2 & S2). unfold quiet. split_and!; [|auto|congruence].
  destruct D1 as [[E1 T1]|[E1 T1]], D2 as [[E2 T2]|[E2 T2]].
  - left. split; congruence.
  - right. split; [done|]. destruct T2 as [T2|T2]; [left; congruence|by right].
  - right. split; [congruence|]. rewrite T2. done.
  - right. split; [done|]. destruct T1 as [T1|T1], T2 as [T2|T2]; rewrite ?T2, ?T1; auto.
Qed.

Ltac qfin := auto; try done; try (intros; auto using Forall_filter_keep).

Ltac qprim_with tac w :=
  intros; eapply quiet_trans; [eassumption|]; destruct_world w; tac;
  unfold quiet, noTicks, stopCount; cbn;
  split_and!; qfin.

Ltac qprim w := qprim_with idtac w.

Lemma quiet_setPend w0 f w : quiet w0 w -> quiet w0 (setPend f w).
Proof. qprim w. Qed.

Lemma quiet_setSegment w0 idx f w : quiet w0 w -> quiet w0 (setSegment idx f w).
Proof. qprim w. Qed.

Lemma quiet_setIsHoldStarting w0 b w : quiet w0 w -> quiet w0 (setIsHoldStarting b w).
Proof. qprim w. Qed.

Lemma quiet_setShowGuide w0 b w : quiet w0 w -> quiet w0 (setShowGuide b w).
Proof. qprim w. Qed.

Lemma quiet_setHoldTimerRef w0 b w : quiet w0 w -> quiet w0 (setHoldTimerRef b w).
Proof. qprim w. Qed.

Lemma quiet_setCurrentSegment w0 f w : quiet w0 w -> quiet w0 (setCurrentSegment f w).
Proof. qprim w. Qed.

Lemma quiet_emit w0 c w : isStop c = false -> quiet w0 w -> quiet w0 (emit c w).
Proof. intros Hc. qprim w. by rewrite Hc. Qed.

Lemma quiet_alert w0 m w : quiet w0 w -> quiet w0 (alert m w).
Proof. by apply quiet_emit. Qed.

Lemma quiet_advanceClock w0 dt w : quiet w0 w -> quiet w0 (advanceClock dt w).
Proof. qprim w. Qed.

Lemma quiet_clearInterval w0 t w : quiet w0 w -> quiet w0 (clearInterval t w).
Proof. qprim w. Qed.

Lemma quiet_clearTimeout w0 t w : quiet w0 w -> quiet w0 (clearTimeout t w).
Proof. qprim w. Qed.

Lemma quiet_revokeObjectURL w0 t w : quiet w0 w -> quiet w0 (revokeObjectURL t w).
Proof. qprim w. Qed.

Lemma quiet_stopTracks w0 t w : quiet w0 w -> quiet w0 (stopTracks t w).
Proof. qprim w. Qed.

Lemma quiet_closeContext w0 t w : quiet w0 w -> quiet w0 (closeContext t w).
Proof. qprim w. Qed.

Lemma quiet_createObjectURL w0 w a w1 :
  createObjectURL w = (a, w1) -> quiet w0 w -> quiet w0 w1.
Proof. intros [= <- <-]. qprim w. Qed.

Lemma quiet_setTimeout w0 d i w a w1 :
  setTimeout d i w = (a, w1) -> quiet w0 w -> quiet w0 w1.
Proof. intros [= <- <-]. qprim w. Qed.

Lemma quiet_startRecording w0 w : quiet w0 w -> quiet w0 (startRecording w).
Proof. qprim w. Qed.

Lemma quiet_startRecording_rejected w0 e w :
  quiet w0 w -> quiet w0 (startRecording_settled (MediaRejected e) w).
Proof. qprim w. Qed.

Lemma quiet_stopRecording_cleanup w0 w : quiet w0 w -> quiet w0 (stopRecording_cleanup w).
Proof. qprim_with ltac:(unfold stopRecording_cleanup; destruct tr, vr, ar) w. Qed.

Lemma quiet_resetRecording w0 w : quiet w0 w -> quiet w0 (resetRecording w).
Proof. qprim_with ltac:(unfold resetRecording; destruct tr, vr, sr, ar, au) w. Qed.

Lemma quiet_stopRecording_callback w0 b w r w1 :
  stopRecording_callback b w = (r, w1) -> quiet w0 w -> quiet w0 w1.
Proof.
  unfold stopRecording_callback. intros E.
  qprim_with ltac:(revert E; cbn; destruct rr, b, sr; cbn; intros [= <- <-]) w.
Qed.

Lemma quiet_volumeSample w0 a w : quiet w0 w -> quiet w0 (volumeSample a w).
Proof. qprim_with ltac:(unfold volumeSample; destruct an) w. Qed.

Create HintDb quiet discriminated.

#[local] Hint Resolve quiet_refl quiet_setPend quiet_setSegment quiet_setIsHoldStarting
  quiet_setShowGuide quiet_setHoldTimerRef quiet_setCurrentSegment quiet_alert
  quiet_advanceClock quiet_clearInterval quiet_clearTimeout quiet_revokeObjectURL
  quiet_stopTracks quiet_closeContext quiet_createObjectURL quiet_setTimeout
  quiet_startRecording quiet_startRecording_rejected quiet_stopRecording_cleanup
  quiet_resetRecording quiet_stopRecording_callback quiet_volumeSample : quiet.

#[local] Hint Extern 1 (quiet _ (emit _ _)) => apply quiet_emit; [reflexivity|] : quiet.

Ltac qcomp := intros; repeat case_match; eauto 12 with quiet.

Lemma quiet_uploadSegment w0 b idx w : quiet w0 w -> quiet w0 (uploadSegment b idx w).
Proof. unfold uploadSegment. qcomp. Qed.

#[local] Hint Resolve quiet_uploadSegment : quiet.

Lemma quiet_uploadSegment_settled w0 idx o w :
  quiet w0 w -> quiet w0 (uploadSegment_settled idx o w).
Proof. unfold uploadSegment_settled. qcomp. Qed.

Lemma quiet_uploadCorrected w0 idx b w : quiet w0 w -> quiet w0 (uploadCorrected idx b w).
Proof. unfold uploadCorrected. qcomp. Qed.

#[local] Hint Resolve quiet_uploadSegment_settled quiet_uploadCorrected : quiet.

Lemma quiet_handleAutoStop_resumed w0 idx b w :
  quiet w0 w -> quiet w0 (handleAutoStop_resumed idx b w).
Proof. unfold handleAutoStop_resumed. qcomp. Qed.

Lemma quiet_handleTouchEnd_resumed w0 idx b w :
  quiet w0 w -> quiet w0 (handleTouchEnd_resumed idx b w).
Proof. unfold handleTouchEnd_resumed. qcomp. Qed.

#[local] Hint Resolve quiet_handleAutoStop_resumed quiet_handleTouchEnd_resumed : quiet.

Lemma quiet_resumeStop w0 k b w : quiet w0 w -> quiet w0 (resumeStop k b w).
Proof. unfold resumeStop. qcomp. Qed.

#[local] Hint Resolve quiet_resumeStop : quiet.

(** [stopRecording] itself issues no stop of the orchestrator: the
    handlers that call it do. *)
Lemma quiet_stopRecording w0 k w : quiet w0 w -> quiet w0 (stopRecording k w).
Proof. unfold stopRecording. qcomp. Qed.

Lemma quiet_stopRecording_settled w0 k b w :
  quiet w0 w -> quiet w0 (stopRecording_settled k b w).
Proof. unfold stopRecording_settled. qcomp. Qed.

Lemma quiet_handleTouchStart w0 w : quiet w0 w -> quiet w0 (handleTouchStart w).
Proof. unfold handleTouchStart. qcomp. Qed.

Lemma quiet_holdCallback w0 idx w : quiet w0 w -> quiet w0 (holdCallback idx w).
Proof. unfold holdCallback. qcomp. Qed.

Lemma quiet_handleRetryUpload w0 w : quiet w0 w -> quiet w0 (handleRetryUpload w).
Proof. unfold handleRetryUpload. qcomp. Qed.

Lemma quiet_handleRetry w0 w : quiet w0 w -> quiet w0 (handleRetry w).
Proof. unfold handleRetry. qcomp. Qed.

Lemma quiet_handleNextSegment w0 w : quiet w0 w -> quiet w0 (handleNextSegment w).
Proof. unfold handleNextSegment. qcomp. Qed.

Lemma quiet_handleComplete w0 w : quiet w0 w -> quiet w0 (handleComplete w).
Proof. unfold handleComplete. qcomp. Qed.

#[local] Hint Resolve quiet_stopRecording quiet_stopRecording_settled quiet_handleTouchStart
  quiet_holdCallback quiet_handleRetryUpload quiet_handleRetry quiet_handleNextSegment
  quiet_handleComplete : quiet.

(** Once the session is stopped, a release or a click on the stop button
    begins no stop sequence: it cancels a pending hold or does nothing. *)
Lemma handleTouchEnd_stopped w0 w : stopped w -> quiet w0 w -> quiet w0 (handleTouchEnd w).
Proof.
  intros Hs Hq. unfold handleTouchEnd. case_match; [qcomp|].
  assert (negb (isRecording (state w)) || (SEGMENT_DURATION <=? recordingTime (state w)) = true)
    as ->; [|done].
  destruct Hs as [->|Hs]; [done|]. apply Nat.leb_le in Hs. rewrite Hs. apply orb_true_r.
Qed.

(** Every event but a granted microphone is quiet when no tick interval
    is armed, a manual stop only when the session is stopped. *)
Lemma handle_quiet w0 e w :
  isMediaGranted e = false ->
  noTicks w ->
  (isManualStop e = true -> stopped w) ->
  quiet w0 w -> quiet w0 (handle e w).
Proof.
  intros Hg Hn Hm Hq. destruct e; cbn [handle]; try (by qcomp).
  - apply handleTouchEnd_stopped; auto.
  - unfold handleManualStop. case_match; [done|]. apply handleTouchEnd_stopped; auto.
  - destruct o; [done|]. qcomp.
  - unfold armed. rewrite not_armed_kind; done.
Qed.

(** After a quiet step the effect does not call [handleAutoStop]. *)
Lemma autoStopEffect_quiet w w' : quiet w w' -> autoStopEffect w w' = w'.
Proof.
  intros ([[E1 E2]|[E1 _]] & _ & _); unfold autoStopEffect.
  - rewrite E1, E2, Bool.eqb_reflx, Nat.eqb_refl. done.
  - rewrite E1. cbn. by case_match.
Qed.

Lemma step_quiet e w :
  isMediaGranted e = false -> noTicks w -> (isManualStop e = true -> stopped w) ->
  quiet w (step e w).
Proof.
  intros Hg Hn Hm. pose proof (handle_quiet w e w Hg Hn Hm (quiet_refl w)) as Hq.
  unfold step. by rewrite autoStopEffect_quiet.
Qed.

Lemma quiet_stopped w w' : quiet w w' -> stopped w -> stopped w'.
Proof.
  intros (D & _ & _) Hs. unfold stopped in *.
  destruct D as [[-> ->]|[-> _]]; auto.
Qed.

(** From a stopped session with no tick interval, no run begins a stop
    sequence until the microphone is granted again. *)
Lemma run_after_auto evs w :
  forallb (fun e => negb (isMediaGranted e)) evs = true ->
  noTicks w -> stopped w -> stopCount (run evs w) = stopCount w.
Proof.
  revert w. induction evs as [|e evs IH]; intros w Hg Hn Hs; [done|].
  cbn in Hg. apply andb_true_iff in Hg as [He Hg]. apply negb_true_iff in He.
  pose proof (step_quiet e w He Hn (fun _ => Hs)) as Hq.
  cbn. rewrite IH; [apply Hq|done|apply Hq, Hn|by eapply quiet_stopped].
Qed.

(** With no tick interval armed the elapsed time stands still, so a run
    without manual stops begins no stop sequence. *)
Lemma run_without_manual evs w :
  forallb (fun e => negb (isMediaGranted e) && negb (isManualStop e)) evs = true ->
  noTicks w -> stopCount (run evs w) = stopCount w.
Proof.
  revert w. induction evs as [|e evs IH]; intros w Hg Hn; [done|].
  cbn in Hg. apply andb_true_iff in Hg as [He Hg]. apply andb_true_iff in He as [He Hm].
  apply negb_true_iff in He, Hm.
  assert (Hq : quiet w (step e w)) by (apply step_quiet; [done|done|congruence]).
  cbn. rewrite IH; [apply Hq|done|apply Hq, Hn].
Qed.

(** A stop handler past its guard: one stop is issued, the tick interval
    is cleared, the session still counts as recording at the same time. *)
Lemma stopRecording_begins k w :
  ticksOwned w ->
  let w' := stopRecording k (emit CmdStop (setSegment (currentSegment (orch w))
                                            (withStatus Processing) w)) in
  stopCount w' = S (stopCount w) /\ noTicks w'
  /\ isRecording (state w') = isRecording (state w)
  /\ recordingTime (state w') = recordingTime (state w).
Proof.
  intros Ht w'.
  set (w1 := emit CmdStop (setSegment (currentSegment (orch w)) (withStatus Processing) w)) in *.
  assert (Hn : noTicks (stopRecording_cleanup w1)).
  { apply cleanup_noTicks. destruct_world w. exact Ht. }
  assert (Hc : quiet w1 (stopRecording_cleanup w1)) by auto with quiet.
  assert (Hq : quiet (stopRecording_cleanup w1) w').
  { unfold w', stopRecording. cbv zeta. qcomp. }
  destruct Hq as (_ & Hn' & Hs'). destruct Hc as (_ & _ & Hs).
  split; [rewrite Hs', Hs; by destruct_world w|]. split; [auto|].
  clear. subst w' w1. destruct_world w. unfold stopRecording, stopRecording_cleanup. cbn.
  destruct tr, vr, ar, rr, k; cbn; done.
Qed.

(** ** Upload failures and the retry cap *)

(** The [catch] clause of [uploadSegment] applies [patchUploadFailed] to
    the segment it was called for. *)
Lemma upload_failure_patch idx o w :
  uploadFails o = true ->
  exists msg, uploadSegment_settled idx o w = setSegment idx (patchUploadFailed msg) w.
Proof.
  destruct o as [[[] u e]|[m|]]; cbn; try done; eauto.
Qed.

Lemma upload_failure_segment idx o w g :
  uploadFails o = true ->
  segments (orch w) !! idx = Some g ->
  exists msg,
    segments (orch (uploadSegment_settled idx o w)) !! idx =
      Some (mkSegment (id g) Error (blob g) (url g) (uploadUrl g) (retryCount g + 1) (Some msg))
    /\ currentSegment (orch (uploadSegment_settled idx o w)) = currentSegment (orch w).
Proof.
  intros Hf Hg. destruct (upload_failure_patch idx o w Hf) as [msg ->].
  exists msg. destruct_world w. cbn in *. by rewrite list_lookup_alter_eq, Hg.
Qed.






(** C10.  When an upload for position [idx] fails, the segment at [idx]
    gets status [Error], [retryCount] plus one and an error message; its
    blob, preview URL, remote URL and id are as before; every other
    segment, the cursor, the session and the browser are untouched.  With
    the blob still there, a retry-upload below the cap uploads it again. *)
Theorem upload_failure_frame (idx : nat) (o : UploadOutcome) (w : World) (g : Segment) :
  uploadFails o = true ->
  segments (orch w) !! idx = Some g ->
  let w' := uploadSegment_settled idx o w in
  (exists msg,
      segments (orch w') !! idx =
        Some (mkSegment (id g) Error (blob g) (url g) (uploadUrl g) (retryCount g + 1) (Some msg)))
  /\ (forall j, j <> idx -> segments (orch w') !! j = segments (orch w) !! j)
  /\ length (segments (orch w')) = length (segments (orch w))
  /\ currentSegment (orch w') = currentSegment (orch w)
  /\ state w' = state w /\ refs w' = refs w /\ browser w' = browser w
  /\ pend w' = pend w /\ log w' = log w
  /\ (forall b, blob g = Some b -> idx = currentSegment (orch w) ->
        retryCount g + 1 < MAX_RETRIES ->
        handleRetryUpload w' = uploadSegment b idx w').
Proof.
  intros Hf Hg w'. subst w'.
  destruct (upload_failure_segment idx o w g Hf Hg) as (msg' & Hl & Hc).
  destruct (upload_failure_patch idx o w Hf) as [msg E]. rewrite E in *.
  split; [by exists msg'|].
  split; [intros j Hj; destruct_world w; cbn; by rewrite list_lookup_alter_ne|].
  split; [destruct_world w; cbn; by rewrite length_alter|].
  split; [done|]. do 5 (split; [by destruct_world w|]).
  intros b Hb -> Hlt. unfold handleRetryUpload, currentSeg. rewrite Hc, Hl.
  cbn [blob retryCount]. rewrite Hb. apply Nat.leb_gt in Hlt. by rewrite Hlt.
Qed.

(** The theorem at the first failed upload of the sample. *)
Lemma upload_failure_frame_witness :
  exists msg,
    segments (orch (uploadSegment_settled 0 uploadFailure uploadingWorld)) !! 0 =
      Some (mkSegment 0 Error (Some sampleBlob) (Some 8) None 1 (Some msg)).
Proof.
  refine (proj1 (upload_failure_frame 0 uploadFailure uploadingWorld uploadingSegment _ _)).
  - reflexivity.
  - vm_compute. reflexivity.
Defined.

(** ** Advancing the cursor *)

(** The two halves of the advance.  [handleNextSegment] tests the
    position: it adds one to [currentSegment] when that is below 2 and
    does nothing at the last position; the segments are left as they are.
    The view tests the status: it renders the control that calls
    [handleNextSegment], its only caller, exactly when the current segment
    is [Uploaded] and the position is below 2. *)
Lemma advance_checks_position_only (w : World) :
  currentSegment (orch (handleNextSegment w)) =
    (if currentSegment (orch w) <? 2 then currentSegment (orch w) + 1
     else currentSegment (orch w))
  /\ segments (orch (handleNextSegment w)) = segments (orch w)
  /\ (nextControlRendered w = true <->
      exists g, currentSeg w = Some g /\ status g = Uploaded /\ currentSegment (orch w) < 2)
  /\ (nextControlRendered w = false -> clickNextSegment w = w).
Proof.
  split; [|split; [|split]].
  - unfold handleNextSegment. destruct (currentSegment (orch w) <? 2) eqn:E; [|done].
    destruct_world w. cbn. destruct tr, vr, sr, ar, au; reflexivity.
  - unfold handleNextSegment. destruct (currentSegment (orch w) <? 2) eqn:E; [|done].
    destruct_world w. cbn. destruct tr, vr, sr, ar, au; reflexivity.
  - unfold nextControlRendered, canRecord. destruct (currentSeg w) as [g|].
    + rewrite !andb_true_iff, negb_true_iff, bool_decide_eq_true, Nat.ltb_lt. split.
      * intros (_ & Hs & Hl). eauto.
      * intros (g' & [= <-] & Hs & Hl). rewrite Hs. done.
    + split; [done|]. by intros (g & ? & _).
  - intros H. unfold clickNextSegment. by rewrite H.
Qed.

(** C6.  The advance, as the page can request it, is a click on the
    control that calls [handleNextSegment].  When the current segment is
    [Uploaded] and the position is not the last one, the click adds one to
    [currentSegment] and resets the session: the session state is the
    initial one and a reset is logged.  In every other case, the current
    segment in any status other than [Uploaded] ([Uploading] among them)
    or the position the last one, the click changes nothing: the world is
    what it was.  So the cursor changes only in the first case, and only
    by one; the segments are never touched.  With segment 0 still
    [Uploading] the cursor stays at 0. *)
Theorem advance_only_from_uploaded (w : World) :
  ((exists g, currentSeg w = Some g /\ status g = Uploaded) /\ currentSegment (orch w) < 2 ->
     currentSegment (orch (clickNextSegment w)) = currentSegment (orch w) + 1
     /\ state (clickNextSegment w) = initialRecorderState
     /\ log (clickNextSegment w) = CmdReset :: log w)
  /\ (forall g, currentSeg w = Some g -> status g <> Uploaded -> clickNextSegment w = w)
  /\ (currentSeg w = None -> clickNextSegment w = w)
  /\ (2 <= currentSegment (orch w) -> clickNextSegment w = w)
  /\ (currentSegment (orch (clickNextSegment w)) <> currentSegment (orch w) ->
      (exists g, currentSeg w = Some g /\ status g = Uploaded)
      /\ currentSegment (orch w) < 2
      /\ currentSegment (orch (clickNextSegment w)) = currentSegment (orch w) + 1)
  /\ segments (orch (clickNextSegment w)) = segments (orch w)
  /\ (status uploadingSegment = Uploading
      /\ currentSeg uploadingWorld = Some uploadingSegment
      /\ clickNextSegment uploadingWorld = uploadingWorld
      /\ currentSegment (orch (clickNextSegment uploadingWorld)) = 0
      /\ currentSegment
           (orch (clickNextSegment (run (firstTake ++ [UploadSettles 0 uploadSuccess])
                                        initialWorld))) = 1).
Proof.
  destruct (advance_checks_position_only w) as (Hc & Hs & Hv & Hn).
  assert (Hlog : nextControlRendered w = true ->
                 state (clickNextSegment w) = initialRecorderState
                 /\ log (clickNextSegment w) = CmdReset :: log w).
  { intros Hr. pose proof (proj1 Hv Hr) as (g & _ & _ & Hlt).
    unfold clickNextSegment. rewrite Hr. unfold handleNextSegment.
    apply Nat.ltb_lt in Hlt. rewrite Hlt.
    destruct_world w. cbn. destruct tr, vr, sr, ar, au; by split. }
  assert (Hoff : nextControlRendered w = false -> clickNextSegment w = w) by exact Hn.
  split_and!.
  - intros [(g & Hg & Hu) Hlt].
    assert (Hr : nextControlRendered w = true) by (apply Hv; eauto).
    destruct (Hlog Hr) as [H1 H2]. split_and!; try done.
    unfold clickNextSegment. rewrite Hr, Hc. apply Nat.ltb_lt in Hlt. by rewrite Hlt.
  - intros g Hg Hne. apply Hoff. destruct (nextControlRendered w) eqn:Hr; [|done].
    destruct (proj1 Hv eq_refl) as (g' & Hg' & Hu & _). congruence.
  - intros Hnone. apply Hoff. destruct (nextControlRendered w) eqn:Hr; [|done].
    destruct (proj1 Hv eq_refl) as (g' & Hg' & _). congruence.
  - intros Hge. apply Hoff. destruct (nextControlRendered w) eqn:Hr; [|done].
    destruct (proj1 Hv eq_refl) as (g' & _ & _ & Hlt). lia.
  - intros Hne. destruct (nextControlRendered w) eqn:Hr.
    + destruct (proj1 Hv eq_refl) as (g & Hg & Hu & Hlt). split_and!; eauto.
      unfold clickNextSegment. rewrite Hr, Hc. apply Nat.ltb_lt in Hlt. by rewrite Hlt.
    + by rewrite (Hoff eq_refl) in Hne.
  - unfold clickNextSegment. by destruct (nextControlRendered w).
  - reflexivity.
  - vm_compute. reflexivity.
  - vm_compute. reflexivity.
  - vm_compute. reflexivity.
  - vm_compute. reflexivity.
Qed.

(** ** Starting and stopping the session *)

(** C8.  When [getUserMedia] rejects, [startRecording] leaves the session
    as it was before the call, [isRecording] included, arms no timer and
    takes no device: only [error] changes.  It holds the message for a
    refused permission ([NotAllowedError]), for a missing device
    ([NotFoundError]) or the generic one, and the three differ. *)
Theorem start_failure_leaves_session (e : StartError) (w : World) :
  let w' := handle (MediaSettles (MediaRejected e)) (startRecording w) in
  isRecording (state w') = isRecording (state w)
  /\ isPaused (state w') = isPaused (state w)
  /\ recordingTime (state w') = recordingTime (state w)
  /\ volume (state w') = volume (state w)
  /\ audioBlob (state w') = audioBlob (state w)
  /\ audioUrl (state w') = audioUrl (state w)
  /\ refs w' = refs w /\ browser w' = browser w /\ pend w' = pend w
  /\ orch w' = orch w /\ log w' = log w
  /\ error (state w') = Some (startErrorMessage e)
  /\ startErrorMessage (DOMException "NotAllowedError") = msgPermissionDenied
  /\ startErrorMessage (DOMException "NotFoundError") = msgNoDevice
  /\ (forall name, String.eqb name "NotAllowedError" = false ->
        String.eqb name "NotFoundError" = false ->
        startErrorMessage (DOMException name) = msgStartGeneric)
  /\ startErrorMessage OtherFailure = msgStartGeneric
  /\ String.eqb msgPermissionDenied msgNoDevice = false
  /\ String.eqb msgPermissionDenied msgStartGeneric = false
  /\ String.eqb msgNoDevice msgStartGeneric = false.
Proof.
  destruct_world w. cbn -[String.eqb]. split_and!; try reflexivity.
  intros name H1 H2. unfold startErrorMessage. by rewrite H1, H2.
Qed.

(** [stopRecording()] by the test the code makes, [recorderRef.current].
    While that ref is [null], which is the case before the first start and
    after a reset, the promise resolves with [null] at once: the awaiting
    code is resumed with [None]; the session state, the segments, the
    pending promises and the log are untouched, a second call changes
    nothing more, and in every reachable world nothing changes at all.
    While the ref is set, whether or not a capture is going on, the
    promise stays pending until the RecordRTC callback; both timers are
    cleared at the call, and the callback resolves the promise with the
    blob RecordRTC hands over, leaves recording and stops the tracks of
    the stream. *)
Lemma stop_contract (k : StopWaiter) (b : option Blob) (w : World) :
  (recorderRef (refs w) = None ->
     stopRecording k w = resumeStop k None (stopRecording_cleanup w)
     /\ state (stopRecording_cleanup w) = state w
     /\ orch (stopRecording_cleanup w) = orch w
     /\ pend (stopRecording_cleanup w) = pend w
     /\ log (stopRecording_cleanup w) = log w
     /\ stopRecording_cleanup (stopRecording_cleanup w) = stopRecording_cleanup w
     /\ (forall evs, w = run evs initialWorld -> stopRecording k w = resumeStop k None w))
  /\ (is_Some (recorderRef (refs w)) ->
     let w1 := stopRecording k w in
     let w2 := snd (stopRecording_callback b w1) in
     pendingStops (pend w1) = pendingStops (pend w) ++ [k]
     /\ timerRef (refs w1) = None /\ volumeRef (refs w1) = None
     /\ (forall t kd, timerRef (refs w) = Some t \/ volumeRef (refs w) = Some t ->
           armed t kd w1 = false)
     /\ fst (stopRecording_callback b w1) = b
     /\ isRecording (state w2) = false
     /\ audioBlob (state w2) = b
     /\ (forall s, streamRef (refs w) = Some s -> s ∉ liveStreams (browser w2))).
Proof.
  split.
  - intros Hn. pose proof (cleanup_frame w) as (Hs & Ho & Hp & Hl & Hr & _).
    assert (E : stopRecording k w = resumeStop k None (stopRecording_cleanup w)).
    { unfold stopRecording. cbv zeta. by rewrite Hr, Hn. }
    split; [exact E|]. repeat split; try done. { apply cleanup_idem. }
    intros evs ->. rewrite E. f_equal.
    destruct (reachable_shape evs) as (_ & _ & Hc & _). specialize (Hc Hn).
    clear -Hc. destruct (run evs initialWorld) as [s r br p o l]. cbn in Hc. by subst r.
  - intros [r Hr] w1 w2.
    pose proof (cleanup_frame w) as (Hs & Ho & Hp & Hl & Hrr & Hsr & Ht & Hv).
    assert (E1 : w1 = setPend (fun p => mkPromises (pendingStarts p) (pendingStops p ++ [k])
                                          (inflight p))
                    (stopRecording_cleanup w)).
    { unfold w1, stopRecording. cbv zeta. by rewrite Hrr, Hr. }
    assert (Hrw1 : recorderRef (refs w1) = Some r) by (rewrite E1; cbn; congruence).
    split. { rewrite E1. cbn. by rewrite Hp. }
    split. { by rewrite E1. } split. { by rewrite E1. }
    split.
    { intros t kd Ht'. rewrite E1. clear -Ht'. destruct_world w.
      unfold armed, stopRecording_cleanup. cbn in *. apply not_armed_id.
      destruct Ht' as [->| ->]; destruct ar; try destruct vr; try destruct tr; cbn;
        auto using Forall_filter_keep, Forall_filter_self. }
    assert (Ecb : (stopRecording_callback b w1 =
              (b, snd (stopRecording_callback b w1))) /\
              (isRecording (state (snd (stopRecording_callback b w1))) = false) /\
              (audioBlob (state (snd (stopRecording_callback b w1))) = b) /\
              (forall s, streamRef (refs w1) = Some s ->
                 s ∉ liveStreams (browser (snd (stopRecording_callback b w1))))).
    { unfold stopRecording_callback. rewrite Hrw1.
      destruct b as [bb|]; cbn; destruct (streamRef (refs w1)) as [s|] eqn:Es; cbn;
        repeat split; try done; intros s' [= <-];
        rewrite list_elem_of_filter; by intros [? _]. }
    destruct Ecb as (Ef & Hi & Ha & Hst).
    split. { by rewrite Ef. }
    split; [done|]. split; [done|].
    intros s Hs'. apply Hst. rewrite E1. cbn. congruence.
Qed.

(** Before any recording and five seconds into one. *)
Lemma stop_contract_witness :
  stopRecording WaitInternal initialWorld = initialWorld
  /\ fst (stopRecording_callback (Some sampleBlob) (stopRecording WaitInternal (recordingAt 5)))
     = Some sampleBlob
  /\ timerRef (refs (stopRecording WaitInternal (recordingAt 5))) = None.
Proof.
  split.
  - destruct (proj1 (stop_contract WaitInternal None initialWorld) eq_refl)
      as (_ & _ & _ & _ & _ & _ & H).
    exact (H [] eq_refl).
  - assert (Hr : is_Some (recorderRef (refs (recordingAt 5)))) by (vm_compute; eauto).
    destruct (proj2 (stop_contract WaitInternal (Some sampleBlob) (recordingAt 5)) Hr)
      as (_ & Ht & _ & _ & Hb & _).
    split; [exact Hb|exact Ht].
Defined.

(** ** The hold gesture *)

(** While the hold timer [t] is not due, time passing and attempts to
    fire it only move the clock. *)
Lemma waiting_run (evs : list Event) (d : nat) (w1 : World) (t deadline idx : nat) :
  findTimeout t (timeouts (browser w1)) = Some (deadline, idx) ->
  forallb (isWaitFor t) evs = true ->
  clock (browser w1) + d + elapsed evs < deadline ->
  run evs (advanceClock d w1) = advanceClock (d + elapsed evs) w1.
Proof.
  intros Hf. revert d. induction evs as [|e evs IH]; intros d Hw Hlt.
  - cbn. by rewrite Nat.add_0_r.
  - cbn in Hw. apply andb_true_iff in Hw as [He Hw].
    destruct e; try discriminate He; cbn [run elapsed] in *.
    + unfold step. rewrite autoStopEffect_same by (by destruct_world w1).
      cbn [handle].
      replace (advanceClock dt (advanceClock d w1)) with (advanceClock (d + dt) w1).
      * rewrite IH; [|done|lia]. f_equal. lia.
      * destruct_world w1. unfold advanceClock, setBrowser. cbn. do 2 f_equal. lia.
    + apply Nat.eqb_eq in He as ->.
      assert (E : step (HoldTimerFires t) (advanceClock d w1) = advanceClock d w1).
      { unfold step. cbn [handle].
        replace (timeouts (browser (advanceClock d w1))) with (timeouts (browser w1))
          by (by destruct_world w1).
        rewrite Hf.
        assert ((deadline <=? clock (browser (advanceClock d w1))) = false) as ->.
        { apply Nat.leb_gt. destruct_world w1. cbn in *. lia. }
        by apply autoStopEffect_same. }
      rewrite E. by apply IH.
Qed.

Lemma run_snoc (es : list Event) (e : Event) (u : World) :
  run (es ++ [e]) u = step e (run es u).
Proof. revert u. induction es as [|e' es IH]; intros u; [done|]. cbn. apply IH. Qed.

(** One press alone.  A press on a segment that is [Pending] or in
    [Error], with nothing but waiting until its release, released before
    [HOLD_DELAY] milliseconds have passed, cancels the pending start: in
    between the hold timer cannot fire, the release clears it, and
    afterwards the session state, the refs, the segments, the cursor, the
    pending promises and the log are what they were before the press; no
    [startRecording] was issued, and the cleared timer never fires.  The
    handle the timer gets is not in use: in reachable worlds this is
    [reachable_handle_fresh]. *)
Lemma early_release_cancels_start (w : World) (g : Segment) (evs : list Event) :
  currentSeg w = Some g ->
  status g = Pending \/ status g = Error ->
  findTimeout (nextId (browser w)) (timeouts (browser w)) = None ->
  forallb (isWaitFor (nextId (browser w))) evs = true ->
  elapsed evs < HOLD_DELAY ->
  let w' := run (TouchStart :: evs ++ [TouchEnd]) w in
  state w' = state w /\ refs w' = refs w /\ pend w' = pend w /\ log w' = log w
  /\ startCount w' = startCount w
  /\ segments (orch w') = segments (orch w)
  /\ currentSegment (orch w') = currentSegment (orch w)
  /\ isHoldStarting (orch w') = false
  /\ timeouts (browser w') = timeouts (browser w)
  /\ intervals (browser w') = intervals (browser w)
  /\ handle (HoldTimerFires (nextId (browser w))) w' = w'.
Proof.
  intros Hg Hs Hfresh Hw Hlt w'.
  set (t := nextId (browser w)) in *.
  set (w1 := handleTouchStart w).
  assert (E1 : w1 = setHoldTimerRef (Some t)
                 (snd (setTimeout HOLD_DELAY (currentSegment (orch w))
                         (setIsHoldStarting true w)))).
  { unfold w1, handleTouchStart. rewrite Hg.
    destruct Hs as [-> | ->]; reflexivity. }
  assert (Hf1 : findTimeout t (timeouts (browser w1)) =
                  Some (clock (browser w) + HOLD_DELAY, currentSegment (orch w))).
  { rewrite E1. destruct_world w. cbn in *. by apply findTimeout_app_new. }
  assert (Hrun : run (TouchStart :: evs ++ [TouchEnd]) w =
                 step TouchEnd (advanceClock (elapsed evs) w1)).
  { cbn [run]. unfold step at 1. cbn [handle]. fold w1.
    rewrite autoStopEffect_same by (by rewrite E1; destruct_world w).
    rewrite run_snoc.
    replace w1 with (advanceClock 0 w1) at 1
      by (destruct w1 as [? ? [] ? ? ?]; unfold advanceClock, setBrowser; cbn;
          by rewrite Nat.add_0_r).
    erewrite waiting_run; [done|exact Hf1|done|].
    rewrite E1. destruct_world w. cbn in *. lia. }
  assert (Hnone : forall u, findTimeout t (timeouts (browser u)) = None ->
                    handle (HoldTimerFires t) u = u).
  { intros u Hu. cbn [handle]. by rewrite Hu. }
  assert (Hproj : state w' = state w /\ refs w' = refs w /\ pend w' = pend w /\ log w' = log w
    /\ segments (orch w') = segments (orch w)
    /\ currentSegment (orch w') = currentSegment (orch w)
    /\ isHoldStarting (orch w') = false
    /\ timeouts (browser w') = timeouts (browser w)
    /\ intervals (browser w') = intervals (browser w)).
  { unfold w'. rewrite Hrun, E1. clear -Hfresh. subst t.
    unfold step. rewrite autoStopEffect_same by (by destruct_world w).
    cbn [handle]. destruct_world w. unfold handleTouchEnd. cbn -[filter HOLD_DELAY] in *.
    rewrite filter_app_new, (findTimeout_filter _ _ Hfresh). done. }
  destruct Hproj as (H1 & H2 & H3 & H4 & H5 & H6 & H7 & H8 & H9).
  split_and!; try done.
  - unfold startCount. by rewrite H4.
  - apply Hnone. by rewrite H8.
Qed.

(** A hold of 499 ms on the first segment. *)
Lemma early_release_witness :
  startCount (run (TouchStart :: [Elapse 200; HoldTimerFires 0; Elapse 299] ++ [TouchEnd])
                  initialWorld) = startCount initialWorld
  /\ segments (orch (run (TouchStart :: [Elapse 200; HoldTimerFires 0; Elapse 299] ++ [TouchEnd])
                         initialWorld)) = segments (orch initialWorld).
Proof.
  assert (Hlt : elapsed [Elapse 200; HoldTimerFires 0; Elapse 299] < HOLD_DELAY)
    by (unfold HOLD_DELAY; cbn; lia).
  destruct (early_release_cancels_start initialWorld (pendingSegment 0)
              [Elapse 200; HoldTimerFires 0; Elapse 299]
              eq_refl (or_introl eq_refl) eq_refl eq_refl Hlt)
    as (_ & _ & _ & _ & Hs & Hg & _).
  split; [exact Hs|exact Hg].
Defined.

(** ** The race of auto-stop and manual stop *)

(** How many stop sequences the two handlers begin, for a recording all
    of whose tick intervals are the one the hook holds, and any events
    after the first stop that do not grant the microphone anew.  If the
    elapsed time is at [SEGMENT_DURATION], so that the effect calls
    [handleAutoStop], that call begins the one stop sequence: every later
    release or click on the stop button finds the elapsed time at the
    limit or the session out of recording and begins none.  If the elapsed
    time is below the limit and a release comes first, it begins the one
    stop sequence and clears the tick interval: the elapsed time no longer
    moves, the effect never calls [handleAutoStop], and without a further
    manual stop no second sequence begins.  Nothing is said here of what
    the sequence does once its stop promise settles, nor of a recording
    with a tick interval the hook has lost. *)
Lemma auto_and_manual_stop_exclusive (w : World) (evs : list Event) :
  isRecording (state w) = true ->
  ticksOwned w ->
  forallb (fun e => negb (isMediaGranted e)) evs = true ->
  (SEGMENT_DURATION <= recordingTime (state w) ->
     stopCount (handleAutoStop w) = S (stopCount w)
     /\ stopCount (run evs (handleAutoStop w)) = S (stopCount w))
  /\ (recordingTime (state w) < SEGMENT_DURATION ->
      isHoldStarting (orch w) = false ->
      forallb (fun e => negb (isManualStop e)) evs = true ->
      stopCount (handleTouchEnd w) = S (stopCount w)
      /\ stopCount (run evs (handleTouchEnd w)) = S (stopCount w)).
Proof.
  intros Hr Ht Hg.
  pose proof (stopRecording_begins (WaitAutoStop (currentSegment (orch w))) w Ht)
    as (Ha1 & Ha2 & Ha3 & Ha4).
  pose proof (stopRecording_begins (WaitManualStop (currentSegment (orch w))) w Ht)
    as (Hm1 & Hm2 & _).
  split.
  - intros Hlim. unfold handleAutoStop. rewrite Hr. cbn [negb].
    split; [done|]. rewrite run_after_auto; [done|done|done|].
    right. by rewrite Ha4.
  - intros Hlt Hh Hm. unfold handleTouchEnd. rewrite Hh, Hr. cbn [negb orb].
    apply Nat.leb_gt in Hlt. rewrite Hlt.
    split; [done|]. rewrite run_without_manual; [done| |done].
    clear -Hg Hm. induction evs as [|e evs IH]; [done|]. cbn in *.
    apply andb_true_iff in Hg as [-> Hg]. apply andb_true_iff in Hm as [-> Hm]. cbn. auto.
Qed.

(** At the limit, with manual stops after the auto-stop, and five
    seconds in, with a release first. *)
Lemma auto_and_manual_stop_witness :
  stopCount (run afterAutoStop (handleAutoStop (recordingAt 60)))
    = S (stopCount (recordingAt 60))
  /\ stopCount (run afterManualStop (handleTouchEnd (recordingAt 5)))
    = S (stopCount (recordingAt 5)).
Proof.
  split.
  - refine (proj2 (proj1
      (auto_and_manual_stop_exclusive (recordingAt 60) afterAutoStop _ _ _) _)).
    + vm_compute. reflexivity.
    + unfold ticksOwned. vm_compute. constructor.
    + reflexivity.
    + vm_compute. lia.
  - refine (proj2 (proj2
      (auto_and_manual_stop_exclusive (recordingAt 5) afterManualStop _ _ _) _ _ _)).
    + vm_compute. reflexivity.
    + unfold ticksOwned. vm_compute.
      repeat (constructor; [intros; first [reflexivity | discriminate]|]). constructor.
    + reflexivity.
    + vm_compute. lia.
    + vm_compute. reflexivity.
    + reflexivity.
Defined.

(** The tick that brings the elapsed time to the limit is followed, in
    the same step, by the effect's call of [handleAutoStop]. *)
Lemma tick_at_limit_begins_auto_stop :
  recordingTime (state (recordingAt 59)) = 59
  /\ step (TickFires 4) (recordingAt 59) = handleAutoStop (recordingAt 60)
  /\ pendingStops (pend (handleAutoStop (recordingAt 60))) = [WaitInternal; WaitAutoStop 0].
Proof. vm_compute. repeat split. Qed.

(** ** The remote URL *)

(** What does hold of the remote URL in every reachable world and at
    every position: a segment that is [Pending] has none; and, when every
    successful upload result carried a non-empty URL, as the upload client
    promises, a segment that is [Uploaded] has one. *)
Lemma remote_url_invariant (evs : list Event) (p : nat) (g : Segment) :
  segments (orch (run evs initialWorld)) !! p = Some g ->
  (status g = Pending -> uploadUrl g = None)
  /\ (Forall carriesUrl evs -> status g = Uploaded -> is_Some (uploadUrl g)).
Proof.
  intros Hg. split.
  - assert (H : keeps (fun _ => True) initialWorld (run evs initialWorld)).
    { apply keeps_run; [|apply keeps_refl].
      apply Forall_forall. intros e _. apply any_event_admitted. }
    destruct H as (_ & _ & HS & _).
    specialize (HS _ stable_pending_no_url).
    assert (H0 : Forall (fun g => status g = Pending -> uploadUrl g = None)
                   (segments (orch initialWorld))) by (repeat constructor).
    specialize (HS H0). rewrite Forall_lookup in HS. exact (HS p g Hg).
  - intros Hev.
    assert (H : keeps is_Some initialWorld (run evs initialWorld)).
    { apply keeps_run; [exact Hev|apply keeps_refl]. }
    destruct H as (_ & _ & HS & _).
    specialize (HS _ stable_uploaded_has_url).
    assert (H0 : Forall (fun g => status g = Uploaded -> is_Some (uploadUrl g))
                   (segments (orch initialWorld))) by (repeat constructor; discriminate).
    specialize (HS H0). rewrite Forall_lookup in HS. exact (HS p g Hg).
Qed.

(** After the sample run: segment 1 is pending, segment 0 uploaded. *)
Lemma remote_url_witness :
  uploadUrl (pendingSegment 1) = None /\ is_Some (uploadUrl uploadedSegment).
Proof.
  split.
  - refine (proj1 (remote_url_invariant sampleRun 1 (pendingSegment 1) _) _).
    + vm_compute. reflexivity.
    + reflexivity.
  - refine (proj2 (remote_url_invariant sampleRun 0 uploadedSegment _) _ _).
    + vm_compute. reflexivity.
    + unfold sampleRun, startGesture. cbn [repeat app].
      repeat (constructor; [first [exact I | intros _; cbn; eauto]|]). constructor.
    + reflexivity.
Defined.

(** A remote URL on a segment that is not [Uploaded] comes from the
    second upload of a stop: when the first succeeds and the second fails,
    the segment ends in [Error] and keeps the remote URL. *)
Lemma failed_duplicate_keeps_remote_url :
  currentSeg (run [UploadSettles 0 uploadSuccess; UploadSettles 0 uploadFailure] uploadingWorld)
  = Some (mkSegment 0 Error (Some sampleBlob) (Some 8)
            (Some "https://cos.example/audio/segment_0.webm") 1 (Some "Failed to fetch")).
Proof. vm_compute. reflexivity. Qed.

(** ** Uploads in flight *)

(** After [await stopRecording()] with a blob, either stop handler calls
    [uploadSegment] twice for its segment, first with the corrected blob
    and then with the blob itself: in the sample a single release leaves
    two uploads of position 0 in flight. *)
Lemma one_stop_uploads_twice :
  (forall idx b w,
      log (handleAutoStop_resumed idx (Some b) w)
      = CmdUpload b idx :: CmdUpload (correctedBlob b) idx :: log w)
  /\ (forall idx b w,
      log (handleTouchEnd_resumed idx (Some b) w)
      = CmdUpload b idx :: CmdUpload (correctedBlob b) idx :: log w)
  /\ uploadCount 0 (recordingAt 5) = 0
  /\ uploadCount 0 uploadingWorld = 2
  /\ inflightCount 0 uploadingWorld = 2
  /\ uploadCount 0 (run [StopCompletes 1 (Some sampleBlob)] (handleAutoStop (recordingAt 60))) = 2
  /\ inflightCount 0 (run [StopCompletes 1 (Some sampleBlob)] (handleAutoStop (recordingAt 60))) = 2.
Proof.
  split; [intros idx b w; by destruct_world w|].
  split; [intros idx b w; by destruct_world w|].
  vm_compute. repeat split.
Qed.

(** [uploadSegment] and [handleRetryUpload] taken alone.  Every call of
    [uploadSegment] sets its segment to [Uploading] and makes one call of
    the upload client for that position, which stays in flight until it
    settles.  [handleRetryUpload] alerts and starts no upload when the
    current segment has no blob or its [retryCount] has reached
    [MAX_RETRIES], and sends the stored blob otherwise.  The view does not
    render the retry control for a segment that is [Uploading]. *)
Lemma retry_upload_guard (w : World) (g : Segment) :
  currentSeg w = Some g ->
  (blob g = None \/ MAX_RETRIES <= retryCount g ->
     handleRetryUpload w = alert msgCannotRetryUpload w)
  /\ (forall b, blob g = Some b -> retryCount g < MAX_RETRIES ->
        handleRetryUpload w = uploadSegment b (currentSegment (orch w)) w)
  /\ (forall b idx,
        log (uploadSegment b idx w) = CmdUpload b idx :: log w
        /\ inflight (pend (uploadSegment b idx w)) = inflight (pend w) ++ [(b, idx)]
        /\ segments (orch (uploadSegment b idx w))
           = alter (withStatus Uploading) idx (segments (orch w)))
  /\ (status g = Uploading -> retryUploadControlRendered w = false).
Proof.
  intros Hg. split_and!.
  - intros Hc. unfold handleRetryUpload. rewrite Hg.
    destruct Hc as [-> | Hc]; [done|].
    apply Nat.leb_le in Hc. rewrite Hc. by destruct (blob g).
  - intros b Hb Hlt. unfold handleRetryUpload. rewrite Hg, Hb.
    apply Nat.leb_gt in Hlt. by rewrite Hlt.
  - intros b idx. by destruct_world w.
  - intros Hs. unfold retryUploadControlRendered. rewrite Hg, Hs. apply andb_false_r.
Qed.

(** At the cap and below it. *)
Lemma retry_upload_guard_witness :
  handleRetryUpload threeFailuresWorld = alert msgCannotRetryUpload threeFailuresWorld
  /\ handleRetryUpload oneFailureWorld = uploadSegment sampleBlob 0 oneFailureWorld.
Proof.
  split.
  - refine (proj1 (retry_upload_guard threeFailuresWorld cappedSegment _) _).
    + vm_compute. reflexivity.
    + right. unfold MAX_RETRIES. cbn. lia.
  - refine (proj1 (proj2 (retry_upload_guard oneFailureWorld failedOnceSegment _))
              sampleBlob _ _).
    + vm_compute. reflexivity.
    + reflexivity.
    + unfold MAX_RETRIES. cbn. lia.
Defined.

(** ** Manual stop and auto-stop *)

(** When the stop promise of [handleAutoStop] settles with a blob, the
    segment is set to [Recorded] with the blob and its preview URL and,
    the upload starting at once, is [Uploading] when the step ends;
    without a blob it is set to [Error] with the capture-failure message. *)
Lemma auto_stop_resumed_segment idx b w g :
  segments (orch w) !! idx = Some g ->
  segments (orch (handleAutoStop_resumed idx (Some b) w)) !! idx
  = Some (mkSegment (id g) Uploading (Some b) (Some (S (nextId (browser w))))
            (uploadUrl g) (retryCount g) (errorMsg g))
  /\ segments (orch (handleAutoStop_resumed idx None w)) !! idx
  = Some (mkSegment (id g) Error (blob g) (url g) (uploadUrl g) (retryCount g)
            (Some msgCaptureFailed)).
Proof.
  intros Hg. destruct_world w. cbn in *.
  rewrite !list_lookup_alter_eq, Hg. done.
Qed.

(** C5 (the code at the failing input).  Below the limit a release does
    what the auto-stop does up to the [await]: the segment goes to
    [Processing] and [stopRecording] is called; with a blob the two
    continuations coincide.  Without a blob they differ: [handleAutoStop]
    sets [Error] with the capture-failure message, [handleTouchEnd] has no
    such branch and leaves the segment in [Processing]. *)
Theorem manual_stop_without_payload_stays_processing :
  (forall w, isRecording (state w) = true ->
      recordingTime (state w) < SEGMENT_DURATION ->
      isHoldStarting (orch w) = false ->
      handleTouchEnd w
      = stopRecording (WaitManualStop (currentSegment (orch w)))
          (emit CmdStop (setSegment (currentSegment (orch w)) (withStatus Processing) w))
      /\ handleAutoStop w
      = stopRecording (WaitAutoStop (currentSegment (orch w)))
          (emit CmdStop (setSegment (currentSegment (orch w)) (withStatus Processing) w)))
  /\ (forall idx b w,
      handleTouchEnd_resumed idx (Some b) w = handleAutoStop_resumed idx (Some b) w)
  /\ (forall idx w,
      handleAutoStop_resumed idx None w
      = setSegment idx (patchCaptureFailed msgCaptureFailed) w)
  /\ (forall idx w, handleTouchEnd_resumed idx None w = w)
  /\ currentSeg (run [TouchEnd; StopCompletes 0 None] (recordingAt 5))
     = Some (mkSegment 0 Processing None None None 0 None)
  /\ currentSeg (run [StopCompletes 1 None] (handleAutoStop (recordingAt 60)))
     = Some (mkSegment 0 Error None None None 0 (Some msgCaptureFailed)).
Proof.
  split.
  { intros w Hr Hlt Hh. unfold handleTouchEnd, handleAutoStop. rewrite Hr, Hh.
    apply Nat.leb_gt in Hlt. by rewrite Hlt. }
  split; [done|]. split; [done|]. split; [done|].
  vm_compute. repeat split.
Qed.

(** * The stop handlers and the hold gesture on runs of the page *)

(** Neither [stopRecording] nor its callback clears [recorderRef];
    [resetRecording] does. *)
Lemma recorderRef_kept_by_stop (w : World) :
  (forall k r, recorderRef (refs w) = Some r ->
     recorderRef (refs (stopRecording k w)) = Some r
     /\ pendingStops (pend (stopRecording k w)) = pendingStops (pend w) ++ [k])
  /\ (forall b, recorderRef (refs (snd (stopRecording_callback b w))) = recorderRef (refs w))
  /\ recorderRef (refs (resetRecording w)) = None.
Proof.
  split_and!.
  - intros k r Hr. pose proof (cleanup_frame w) as (_ & _ & Hp & _ & Hrr & _).
    unfold stopRecording. cbv zeta. rewrite Hrr, Hr. cbn. by rewrite Hrr, Hp.
  - intros b. destruct_world w. unfold stopRecording_callback. cbn.
    destruct rr, b, sr; reflexivity.
  - destruct_world w. unfold resetRecording. cbn. destruct tr, vr, sr, ar, au; reflexivity.
Qed.

(** Either stop handler, resumed with a blob, calls the upload client
    twice for its segment. *)
Lemma resumed_stop_uploads_twice (idx : nat) (b : Blob) (w : World) :
  uploadCount idx (handleAutoStop_resumed idx (Some b) w) = 2 + uploadCount idx w
  /\ inflightCount idx (handleAutoStop_resumed idx (Some b) w) = inflightCount idx w + 2
  /\ uploadCount idx (handleTouchEnd_resumed idx (Some b) w) = 2 + uploadCount idx w
  /\ inflightCount idx (handleTouchEnd_resumed idx (Some b) w) = inflightCount idx w + 2.
Proof.
  destruct_world w. unfold uploadCount, inflightCount. cbn.
  rewrite !Nat.eqb_refl. cbn. rewrite !List.filter_app, !length_app. cbn.
  rewrite !Nat.eqb_refl. cbn. split_and!; lia.
Qed.

(** C2 (the code at the failing input).  One stop with a payload starts
    two uploads of its segment.  On the page: a hold on segment 0, the
    recording stopped at the limit, RecordRTC delivering the recording.
    Every event of the run is offered by the view; the orchestrator has
    begun one stop sequence; no upload was called before the stop
    completed, two for position 0 have been called after it, and both are
    in flight.  This holds of every stop with a payload, auto or manual:
    the resumed handler adds two calls and two uploads in flight.  The
    retry-upload control is rendered in no state, so a retry-upload
    request cannot add a third. *)
Theorem one_stop_two_uploads_in_flight :
  offeredAlong firstTake initialWorld = true
  /\ stopCount (run firstTake initialWorld) = 1
  /\ uploadCount 0 (run autoStopRun initialWorld) = 0
  /\ uploadCount 0 (run firstTake initialWorld) = 2
  /\ inflightCount 0 (run firstTake initialWorld) = 2
  /\ inflight (pend (run firstTake initialWorld)) = [(sampleBlob, 0); (sampleBlob, 0)]
  /\ currentSeg (run firstTake initialWorld)
     = Some (mkSegment 0 Uploading (Some sampleBlob) (Some 9) None 0 None)
  /\ (forall idx b w,
        uploadCount idx (handleAutoStop_resumed idx (Some b) w) = 2 + uploadCount idx w
        /\ inflightCount idx (handleAutoStop_resumed idx (Some b) w) = inflightCount idx w + 2
        /\ uploadCount idx (handleTouchEnd_resumed idx (Some b) w) = 2 + uploadCount idx w
        /\ inflightCount idx (handleTouchEnd_resumed idx (Some b) w)
           = inflightCount idx w + 2)
  /\ (forall w, retryUploadControlRendered w = false).
Proof.
  split_and!; try (vm_compute; reflexivity).
  - intros idx b w. apply resumed_stop_uploads_twice.
  - intros w. unfold retryUploadControlRendered, canRecord.
    destruct (currentSeg w) as [g|]; [|done]. by destruct (status g).
Qed.

(** C4 (the code at the failing input).  On the page, with upload
    results that all carry a URL: a hold on segment 0, the recording
    stopped at the limit, RecordRTC delivering the recording, the first of
    the two uploads of that stop succeeding and the second failing.  Every
    event of the run is offered by the view.  After the first result the
    segment is [Uploaded] with its remote URL; after the second it is in
    [Error] and still has the remote URL. *)
Theorem failed_second_upload_keeps_remote_url :
  offeredAlong mixedUploads initialWorld = true
  /\ Forall carriesUrl mixedUploads
  /\ inflightCount 0 (run firstTake initialWorld) = 2
  /\ currentSeg (run (firstTake ++ [UploadSettles 0 uploadSuccess]) initialWorld)
     = Some (mkSegment 0 Uploaded (Some sampleBlob) (Some 9)
               (Some "https://cos.example/audio/segment_0.webm") 0 None)
  /\ currentSeg (run mixedUploads initialWorld)
     = Some (mkSegment 0 Error (Some sampleBlob) (Some 9)
               (Some "https://cos.example/audio/segment_0.webm") 1 (Some "Failed to fetch"))
  /\ inflightCount 0 (run mixedUploads initialWorld) = 0.
Proof.
  split_and!; try (vm_compute; reflexivity).
  unfold mixedUploads, firstTake, autoStopRun, startGesture. cbn [repeat app].
  repeat (constructor; [first [exact I | discriminate 1 | intros _; cbn; eauto]|]).
  constructor.
Qed.

(** [handleTouchStart] arms a new timer and points [holdTimerRef] to it
    without clearing the one armed before. *)
Lemma touch_start_keeps_earlier_timer (w : World) (g : Segment) :
  currentSeg w = Some g ->
  status g = Pending \/ status g = Error ->
  holdTimerRef (orch (handleTouchStart w)) = Some (nextId (browser w))
  /\ timeouts (browser (handleTouchStart w))
     = timeouts (browser w)
       ++ [(nextId (browser w), (clock (browser w) + HOLD_DELAY, currentSegment (orch w)))].
Proof.
  intros Hg Hs. unfold handleTouchStart. rewrite Hg.
  destruct Hs as [-> | ->]; by destruct_world w.
Qed.

(** C7 (the code at the failing input).  Two presses on the hold button
    of the first render, the second before any release, and both released
    100 ms later, before [HOLD_DELAY]; every event is offered by the view.
    The second press has pointed [holdTimerRef] to its own timer, the
    first release clears that one only, and after both releases the timer
    of the first press is still armed.  When it comes due, 500 ms after
    the first press, [startRecording] is issued and segment 0 is
    [Recording], with no press held.  In general [handleTouchStart] arms
    its timer next to any armed before. *)
Theorem second_press_defeats_early_release :
  offeredAlong twoEarlyReleases initialWorld = true
  /\ clock (browser (run (take 5 twoEarlyReleases) initialWorld)) = 100
  /\ 100 < HOLD_DELAY
  /\ isHoldStarting (orch (run (take 5 twoEarlyReleases) initialWorld)) = false
  /\ holdTimerRef (orch (run (take 5 twoEarlyReleases) initialWorld)) = Some 1
  /\ timeouts (browser (run (take 5 twoEarlyReleases) initialWorld)) = [(0, (HOLD_DELAY, 0))]
  /\ startCount (run (take 5 twoEarlyReleases) initialWorld) = 0
  /\ startCount (run twoEarlyReleases initialWorld) = 1
  /\ pendingStarts (pend (run twoEarlyReleases initialWorld)) = 1
  /\ currentSeg (run twoEarlyReleases initialWorld)
     = Some (mkSegment 0 Recording None None None 0 None)
  /\ (forall w g, currentSeg w = Some g -> status g = Pending \/ status g = Error ->
        holdTimerRef (orch (handleTouchStart w)) = Some (nextId (browser w))
        /\ timeouts (browser (handleTouchStart w))
           = timeouts (browser w)
             ++ [(nextId (browser w),
                  (clock (browser w) + HOLD_DELAY, currentSegment (orch w)))]).
Proof.
  split_and!; try (vm_compute; reflexivity).
  - unfold HOLD_DELAY. lia.
  - intros w g. apply touch_start_keeps_earlier_timer.
Qed.

(** C9 (the code at the failing input).  [stopRecording] tells whether
    there is a capture by [recorderRef.current], which neither it nor its
    callback clears; only [resetRecording] does.  So a [stop()] after a
    stop goes to RecordRTC again.  On the page, at the limit: the tick
    calls [stopRecording()] and so does [handleAutoStop]; both promises
    are pending, and when the first callback has ended the capture
    (recording off, tracks stopped) the second still hands over the blob
    and makes another object URL, the first one never revoked.  After a
    start by two presses a tick interval is lost to the hook and goes on
    after the stop has completed: its next tick calls [stopRecording()]
    with no capture going on, the promise is left pending instead of
    resolving with [null], and its callback delivers the blob and replaces
    [audioUrl] by a new object URL, once for every such tick. *)
Theorem stop_after_stop_reaches_recorder :
  (forall w k r, recorderRef (refs w) = Some r ->
     recorderRef (refs (stopRecording k w)) = Some r
     /\ pendingStops (pend (stopRecording k w)) = pendingStops (pend w) ++ [k])
  /\ (forall w b, recorderRef (refs (snd (stopRecording_callback b w))) = recorderRef (refs w))
  /\ (forall w, recorderRef (refs (resetRecording w)) = None)
  /\ (offeredAlong firstTake initialWorld = true
      /\ pendingStops (pend (run autoStopRun initialWorld)) = [WaitInternal; WaitAutoStop 0]
      /\ isRecording (state (run (autoStopRun ++ [StopCompletes 0 (Some sampleBlob)])
                                 initialWorld)) = false
      /\ liveStreams (browser (run (autoStopRun ++ [StopCompletes 0 (Some sampleBlob)])
                                   initialWorld)) = []
      /\ audioUrl (state (run (autoStopRun ++ [StopCompletes 0 (Some sampleBlob)])
                              initialWorld)) = Some 6
      /\ recorderRef (refs (run (autoStopRun ++ [StopCompletes 0 (Some sampleBlob)])
                                initialWorld)) = Some 3
      /\ fst (stopRecording_callback (Some sampleBlob)
                (run (autoStopRun ++ [StopCompletes 0 (Some sampleBlob)]) initialWorld))
         = Some sampleBlob
      /\ audioUrl (state (run firstTake initialWorld)) = Some 7
      /\ objectUrls (browser (run firstTake initialWorld)) = [6; 7; 8; 9])
  /\ (offeredAlong doubleStartStopped initialWorld = true
      /\ isRecording (state (run doubleStartStopped initialWorld)) = false
      /\ pendingStops (pend (run doubleStartStopped initialWorld)) = []
      /\ audioUrl (state (run doubleStartStopped initialWorld)) = Some 13
      /\ recorderRef (refs (run doubleStartStopped initialWorld)) = Some 9
      /\ armed 5 TickInterval (run doubleStartStopped initialWorld) = true
      /\ pendingStops (pend (run (doubleStartStopped ++ [TickFires 5]) initialWorld))
         = [WaitInternal]
      /\ audioBlob (state (run (doubleStartStopped
                                  ++ [TickFires 5; StopCompletes 0 (Some sampleBlob)])
                               initialWorld)) = Some sampleBlob
      /\ audioUrl (state (run (doubleStartStopped
                                 ++ [TickFires 5; StopCompletes 0 (Some sampleBlob)])
                              initialWorld)) = Some 16
      /\ objectUrls (browser (run (doubleStartStopped
                                     ++ [TickFires 5; StopCompletes 0 (Some sampleBlob)])
                                  initialWorld)) = [12; 13; 14; 15; 16]
      /\ armed 5 TickInterval (run (doubleStartStopped
                                      ++ [TickFires 5; StopCompletes 0 (Some sampleBlob)])
                                   initialWorld) = true).
Proof.
  split; [intros w; apply recorderRef_kept_by_stop|].
  split; [intros w; apply recorderRef_kept_by_stop|].
  split; [intros w; apply recorderRef_kept_by_stop|].
  split_and!; vm_compute; reflexivity.
Qed.

(** C3 (the code at the failing input).  A manual stop and the auto-stop
    of one recording, on the page.  Segment 0 is recorded a second time,
    started by two presses, and a late failure of an upload of the first
    take has put it in [Error], so that the view renders the stop button;
    59 s have elapsed.  Every event up to the click is offered by the
    view.  The click begins a stop sequence and clears the tick interval
    the hook holds; the interval of the first of the two starts is still
    armed, and while the stop is pending its tick brings the elapsed time
    to the limit: [handleAutoStop] tests [isRecording] only and begins a
    second stop sequence.  Three stops are pending; the manual one
    completes and the segment is recorded and uploading, then the one of
    the auto-stop completes and the segment is recorded again, with
    another preview URL: four uploads of one recording.  When the click
    is the only stop and RecordRTC delivers no blob, the segment stays
    in [Processing] with nothing pending. *)
Theorem stop_race_runs_two_stop_sequences :
  offeredAlong (secondTake ++ [ClickManualStop]) initialWorld = true
  /\ isRecording (state (run secondTake initialWorld)) = true
  /\ recordingTime (state (run secondTake initialWorld)) = 59
  /\ currentSeg (run secondTake initialWorld)
     = Some (mkSegment 0 Error None None None 1 (Some "Failed to fetch"))
  /\ stopCount (run (secondTake ++ [ClickManualStop]) initialWorld)
     = 1 + stopCount (run secondTake initialWorld)
  /\ currentSeg (run (secondTake ++ [ClickManualStop]) initialWorld)
     = Some (mkSegment 0 Processing None None None 1 (Some "Failed to fetch"))
  /\ isRecording (state (run (secondTake ++ [ClickManualStop]) initialWorld)) = true
  /\ armed 20 TickInterval (run (secondTake ++ [ClickManualStop]) initialWorld) = false
  /\ armed 15 TickInterval (run (secondTake ++ [ClickManualStop]) initialWorld) = true
  /\ recordingTime (state (run (secondTake ++ [ClickManualStop; TickFires 15]) initialWorld))
     = SEGMENT_DURATION
  /\ stopCount (run (secondTake ++ [ClickManualStop; TickFires 15]) initialWorld)
     = 2 + stopCount (run secondTake initialWorld)
  /\ pendingStops (pend (run (secondTake ++ [ClickManualStop; TickFires 15]) initialWorld))
     = [WaitManualStop 0; WaitInternal; WaitAutoStop 0]
  /\ currentSeg (run (secondTake ++ [ClickManualStop; TickFires 15;
                                     StopCompletes 0 (Some sampleBlob)]) initialWorld)
     = Some (mkSegment 0 Uploading (Some sampleBlob) (Some 24) None 1
               (Some "Failed to fetch"))
  /\ currentSeg (run (secondTake ++ [ClickManualStop; TickFires 15;
                                     StopCompletes 0 (Some sampleBlob);
                                     StopCompletes 1 (Some sampleBlob)]) initialWorld)
     = Some (mkSegment 0 Uploading (Some sampleBlob) (Some 27) None 1
               (Some "Failed to fetch"))
  /\ uploadCount 0 (run (secondTake ++ [ClickManualStop; TickFires 15;
                                        StopCompletes 0 (Some sampleBlob);
                                        StopCompletes 1 (Some sampleBlob)]) initialWorld)
     = 4 + uploadCount 0 (run secondTake initialWorld)
  /\ currentSeg (run (secondTake ++ [ClickManualStop; StopCompletes 0 None]) initialWorld)
     = Some (mkSegment 0 Processing None None None 1 (Some "Failed to fetch"))
  /\ pendingStops (pend (run (secondTake ++ [ClickManualStop; StopCompletes 0 None])
                             initialWorld)) = []
  /\ isRecording (state (run (secondTake ++ [ClickManualStop; StopCompletes 0 None])
                             initialWorld)) = false.
Proof. split_and!; vm_compute; reflexivity. Qed.
(** * Further properties of the hook and of the orchestrator *)

(** ** What every action keeps of the session state, of the segments and
    of the cursor *)

Lemma evolves_start (I : RecorderState -> Prop) (R : Segment -> Segment -> Prop) (w : World) :
  I (state w) -> Forall2 R (segments (orch w)) (segments (orch w)) -> evolves I R w w.
Proof. intros H1 H2. unfold evolves. by split_and!. Qed.

Section Evolves.

Variable A : Q -> Prop.
Variable F : bool.
Variable I : RecorderState -> Prop.
Variable R : Segment -> Segment -> Prop.
Hypothesis HI : stateInv A I.
Hypothesis HR : evolving F R.

(** An operation that touches neither the session state nor the
    segments nor the cursor. *)
Lemma evolves_frame w0 w w' :
  state w' = state w -> segments (orch w') = segments (orch w) ->
  currentSegment (orch w') = currentSegment (orch w) ->
  evolves I R w0 w -> evolves I R w0 w'.
Proof. unfold evolves. by intros -> -> ->. Qed.

Lemma evolves_setState w0 f w :
  (forall s, I s -> I (f s)) -> evolves I R w0 w -> evolves I R w0 (setState f w).
Proof. intros Hf [H1 H2]. split; [by apply Hf|done]. Qed.

Lemma evolves_setSegment w0 idx f w :
  (forall g g', R g g' -> R g (f g')) ->
  evolves I R w0 w -> evolves I R w0 (setSegment idx f w).
Proof.
  intros Hf (H1 & H2 & H3). split; [done|]. split; [|done]. cbn.
  apply Forall2_alter_r; [done|]. intros; by apply Hf.
Qed.

Lemma evolves_pair {T} (op : World -> T * World) w0 w a w1 :
  (forall v, state (snd (op v)) = state v) ->
  (forall v, segments (orch (snd (op v))) = segments (orch v)) ->
  (forall v, currentSegment (orch (snd (op v))) = currentSegment (orch v)) ->
  op w = (a, w1) -> evolves I R w0 w -> evolves I R w0 w1.
Proof.
  intros Hs Hg Hc E. apply evolves_frame.
  - specialize (Hs w). by rewrite E in Hs.
  - specialize (Hg w). by rewrite E in Hg.
  - specialize (Hc w). by rewrite E in Hc.
Qed.

Lemma evolves_setInterval w0 k w a w1 :
  setInterval k w = (a, w1) -> evolves I R w0 w -> evolves I R w0 w1.
Proof. by apply evolves_pair. Qed.

Lemma evolves_setTimeout w0 d i w a w1 :
  setTimeout d i w = (a, w1) -> evolves I R w0 w -> evolves I R w0 w1.
Proof. by apply evolves_pair. Qed.

Lemma evolves_createObjectURL w0 w a w1 :
  createObjectURL w = (a, w1) -> evolves I R w0 w -> evolves I R w0 w1.
Proof. by apply evolves_pair. Qed.

Ltac framed := intros; eapply evolves_frame; [| | |eassumption]; reflexivity.

Lemma evolves_setPend w0 f w : evolves I R w0 w -> evolves I R w0 (setPend f w).
Proof. framed. Qed.

Lemma evolves_setRefs w0 f w : evolves I R w0 w -> evolves I R w0 (setRefs f w).
Proof. framed. Qed.

Lemma evolves_emit w0 c w : evolves I R w0 w -> evolves I R w0 (emit c w).
Proof. framed. Qed.

Lemma evolves_alert w0 c w : evolves I R w0 w -> evolves I R w0 (alert c w).
Proof. framed. Qed.

Lemma evolves_setIsHoldStarting w0 b w :
  evolves I R w0 w -> evolves I R w0 (setIsHoldStarting b w).
Proof. framed. Qed.

Lemma evolves_setShowGuide w0 b w : evolves I R w0 w -> evolves I R w0 (setShowGuide b w).
Proof. framed. Qed.

Lemma evolves_setHoldTimerRef w0 b w :
  evolves I R w0 w -> evolves I R w0 (setHoldTimerRef b w).
Proof. framed. Qed.

Lemma evolves_setCurrentSegment_next w0 w :
  (currentSegment (orch w) <? 2) = true ->
  evolves I R w0 w -> evolves I R w0 (setCurrentSegment (fun prev => prev + 1) w).
Proof.
  intros Hlt%Nat.ltb_lt (H1 & H2 & H3 & H4). unfold evolves. cbn. split_and!; try done; lia.
Qed.

Lemma evolves_advanceClock w0 dt w : evolves I R w0 w -> evolves I R w0 (advanceClock dt w).
Proof. framed. Qed.

Lemma evolves_clearInterval w0 t w : evolves I R w0 w -> evolves I R w0 (clearInterval t w).
Proof. framed. Qed.

Lemma evolves_clearTimeout w0 t w : evolves I R w0 w -> evolves I R w0 (clearTimeout t w).
Proof. framed. Qed.

Lemma evolves_revokeObjectURL w0 t w :
  evolves I R w0 w -> evolves I R w0 (revokeObjectURL t w).
Proof. framed. Qed.

Lemma evolves_stopTracks w0 t w : evolves I R w0 w -> evolves I R w0 (stopTracks t w).
Proof. framed. Qed.

Lemma evolves_closeContext w0 t w : evolves I R w0 w -> evolves I R w0 (closeContext t w).
Proof. framed. Qed.

Create HintDb evolves discriminated.

#[local] Hint Resolve evolves_setPend evolves_setRefs evolves_emit evolves_alert
  evolves_setIsHoldStarting evolves_setShowGuide evolves_setHoldTimerRef
  evolves_advanceClock evolves_clearInterval evolves_clearTimeout
  evolves_revokeObjectURL evolves_stopTracks evolves_closeContext evolves_setInterval
  evolves_setTimeout evolves_createObjectURL : evolves.

Ltac ecomp := intros; repeat case_match; eauto 12 with evolves.

Lemma evolves_startRecording w0 w : evolves I R w0 w -> evolves I R w0 (startRecording w).
Proof.
  intros. apply evolves_setPend, evolves_setState; [|done].
  intros s. apply (inv_error A I HI).
Qed.

Lemma evolves_startRecording_settled w0 o w :
  evolves I R w0 w -> evolves I R w0 (startRecording_settled o w).
Proof.
  intros [H1 H2]. destruct o as [|e]; (split; [|done]); cbn.
  - by apply (inv_granted A I HI).
  - by apply (inv_error A I HI).
Qed.

Lemma evolves_stopRecording_cleanup w0 w :
  evolves I R w0 w -> evolves I R w0 (stopRecording_cleanup w).
Proof. unfold stopRecording_cleanup. ecomp. Qed.

Lemma evolves_stopRecording_callback w0 b w r w1 :
  stopRecording_callback b w = (r, w1) -> evolves I R w0 w -> evolves I R w0 w1.
Proof.
  unfold stopRecording_callback. intros E [H1 H2].
  destruct (recorderRef (refs w)), b; cbn in E; repeat case_match;
    injection E as <- <-; (split; [|done]); cbn;
    apply (inv_stopped A I HI); try done;
    split; intros [? [=]] || (split; intros; by eexists).
Qed.

Lemma evolves_resetRecording w0 w : evolves I R w0 w -> evolves I R w0 (resetRecording w).
Proof.
  intros [H1 H2]. split; [apply (inv_initial A I HI)|].
  unfold resetRecording. cbn. by repeat case_match.
Qed.

Lemma evolves_pauseRecording w0 w : evolves I R w0 w -> evolves I R w0 (pauseRecording w).
Proof.
  intros [H1 H2]. unfold pauseRecording.
  destruct (recorderRef (refs w)); [|done].
  destruct (isRecording (state w)) eqn:E; [|done].
  split; [|by repeat case_match].
  assert (Hs : forall v, state v = state w ->
             I (state (setState (fun s => mkRecorderState (isRecording s) true
                  (recordingTime s) (volume s) (error s) (audioBlob s) (audioUrl s)) v))).
  { intros v Hv. cbn. rewrite Hv. by apply (inv_paused A I HI). }
  apply Hs. by repeat case_match.
Qed.

Lemma evolves_resumeRecording w0 w : evolves I R w0 w -> evolves I R w0 (resumeRecording w).
Proof.
  intros [H1 H2]. unfold resumeRecording.
  destruct (recorderRef (refs w)); [|done].
  destruct (isPaused (state w)); [|done].
  split; [|done]. cbn. by apply (inv_resumed A I HI).
Qed.

Lemma evolves_volumeSample w0 a w :
  A a -> evolves I R w0 w -> evolves I R w0 (volumeSample a w).
Proof.
  intros Ha H. unfold volumeSample. case_match; [|done].
  apply evolves_setState; [|done]. intros s. by apply (inv_volume A I HI).
Qed.

Lemma evolves_withStatus w0 idx s w :
  s = Recording \/ s = Processing \/ s = Uploading ->
  evolves I R w0 w -> evolves I R w0 (setSegment idx (withStatus s) w).
Proof. intros Hs. apply evolves_setSegment. intros g g'. by apply (ev_status F R HR). Qed.

Lemma evolves_patchRecorded w0 idx b u w :
  evolves I R w0 w -> evolves I R w0 (setSegment idx (patchRecorded b u) w).
Proof. apply evolves_setSegment. intros g g'. apply (ev_recorded F R HR). Qed.

Lemma evolves_patchCaptureFailed w0 idx m w :
  evolves I R w0 w -> evolves I R w0 (setSegment idx (patchCaptureFailed m) w).
Proof. apply evolves_setSegment. intros g g'. apply (ev_capture F R HR). Qed.

Lemma evolves_patchUploadFailed w0 idx m w :
  F = true -> evolves I R w0 w -> evolves I R w0 (setSegment idx (patchUploadFailed m) w).
Proof. intros HF. apply evolves_setSegment. intros g g'. by apply (ev_failed F R HR). Qed.

Lemma evolves_patchReRecord w0 idx w :
  evolves I R w0 w -> evolves I R w0 (setSegment idx patchReRecord w).
Proof. apply evolves_setSegment. intros g g'. apply (ev_rerecord F R HR). Qed.

Lemma evolves_patchUploaded w0 idx u w :
  evolves I R w0 w -> evolves I R w0 (setSegment idx (patchUploaded u) w).
Proof. apply evolves_setSegment. intros g g'. apply (ev_uploaded F R HR). Qed.

#[local] Hint Resolve evolves_startRecording evolves_startRecording_settled
  evolves_stopRecording_cleanup evolves_stopRecording_callback evolves_resetRecording
  evolves_pauseRecording evolves_resumeRecording evolves_patchRecorded
  evolves_patchCaptureFailed evolves_patchReRecord evolves_patchUploaded : evolves.

#[local] Hint Extern 1 (evolves _ _ _ (setSegment _ (withStatus _) _)) =>
  apply evolves_withStatus; [tauto|] : evolves.

Lemma evolves_uploadSegment w0 b idx w :
  evolves I R w0 w -> evolves I R w0 (uploadSegment b idx w).
Proof. unfold uploadSegment. ecomp. Qed.

#[local] Hint Resolve evolves_uploadSegment : evolves.

Lemma evolves_uploadSegment_settled w0 idx o w :
  (F = false -> uploadFails o = false) ->
  evolves I R w0 w -> evolves I R w0 (uploadSegment_settled idx o w).
Proof.
  intros Ho H. unfold uploadSegment_settled.
  destruct o as [r|[m|]]; cbn in Ho; [destruct (success r) eqn:E; cbn in Ho|..];
    auto with evolves; apply evolves_patchUploadFailed; auto;
    destruct F; auto; by specialize (Ho eq_refl).
Qed.

Lemma evolves_uploadCorrected w0 idx b w :
  evolves I R w0 w -> evolves I R w0 (uploadCorrected idx b w).
Proof. unfold uploadCorrected. ecomp. Qed.

#[local] Hint Resolve evolves_uploadCorrected : evolves.

Lemma evolves_handleAutoStop_resumed w0 idx b w :
  evolves I R w0 w -> evolves I R w0 (handleAutoStop_resumed idx b w).
Proof. unfold handleAutoStop_resumed. ecomp. Qed.

Lemma evolves_handleTouchEnd_resumed w0 idx b w :
  evolves I R w0 w -> evolves I R w0 (handleTouchEnd_resumed idx b w).
Proof. unfold handleTouchEnd_resumed. ecomp. Qed.

#[local] Hint Resolve evolves_handleAutoStop_resumed evolves_handleTouchEnd_resumed : evolves.

Lemma evolves_resumeStop w0 k b w : evolves I R w0 w -> evolves I R w0 (resumeStop k b w).
Proof. unfold resumeStop. ecomp. Qed.

#[local] Hint Resolve evolves_resumeStop : evolves.

Lemma evolves_stopRecording w0 k w : evolves I R w0 w -> evolves I R w0 (stopRecording k w).
Proof. unfold stopRecording. ecomp. Qed.

#[local] Hint Resolve evolves_stopRecording : evolves.

Lemma evolves_stopRecording_settled w0 k b w :
  evolves I R w0 w -> evolves I R w0 (stopRecording_settled k b w).
Proof. unfold stopRecording_settled. ecomp. Qed.

Lemma evolves_tick w0 w : evolves I R w0 w -> evolves I R w0 (tick w).
Proof.
  intros. unfold tick. apply evolves_setState; [|ecomp].
  intros s. apply (inv_time A I HI).
Qed.

Lemma evolves_handleAutoStop w0 w : evolves I R w0 w -> evolves I R w0 (handleAutoStop w).
Proof. unfold handleAutoStop. ecomp. Qed.

Lemma evolves_handleTouchStart w0 w : evolves I R w0 w -> evolves I R w0 (handleTouchStart w).
Proof. unfold handleTouchStart. ecomp. Qed.

Lemma evolves_holdCallback w0 idx w : evolves I R w0 w -> evolves I R w0 (holdCallback idx w).
Proof. unfold holdCallback. ecomp. Qed.

Lemma evolves_handleTouchEnd w0 w : evolves I R w0 w -> evolves I R w0 (handleTouchEnd w).
Proof. unfold handleTouchEnd. ecomp. Qed.

#[local] Hint Resolve evolves_handleTouchEnd : evolves.

Lemma evolves_handleManualStop w0 w : evolves I R w0 w -> evolves I R w0 (handleManualStop w).
Proof. unfold handleManualStop. ecomp. Qed.

Lemma evolves_handleRetryUpload w0 w :
  evolves I R w0 w -> evolves I R w0 (handleRetryUpload w).
Proof. unfold handleRetryUpload. ecomp. Qed.

Lemma evolves_handleRetry w0 w : evolves I R w0 w -> evolves I R w0 (handleRetry w).
Proof. unfold handleRetry. ecomp. Qed.

Lemma evolves_handleNextSegment w0 w :
  evolves I R w0 w -> evolves I R w0 (handleNextSegment w).
Proof.
  intros H. unfold handleNextSegment.
  destruct (currentSegment (orch w) <? 2) eqn:E; [|done].
  by apply evolves_resetRecording, evolves_emit, evolves_setCurrentSegment_next.
Qed.

Lemma evolves_handleComplete w0 w : evolves I R w0 w -> evolves I R w0 (handleComplete w).
Proof. unfold handleComplete. ecomp. Qed.

#[local] Hint Resolve evolves_stopRecording_settled evolves_tick evolves_handleAutoStop
  evolves_handleTouchStart evolves_holdCallback evolves_handleManualStop
  evolves_handleRetryUpload evolves_handleRetry evolves_handleNextSegment
  evolves_handleComplete : evolves.

Lemma evolves_perform w0 a w :
  permits A F a -> evolves I R w0 w -> evolves I R w0 (perform a w).
Proof.
  destruct a as [e| |]; cbn; [|auto with evolves..].
  destruct e; cbn; intros Hp H; try (by ecomp).
  - by repeat case_match; auto using evolves_volumeSample.
  - repeat case_match; auto. apply evolves_uploadSegment_settled; ecomp.
Qed.

Lemma evolves_act w0 a w : permits A F a -> evolves I R w0 w -> evolves I R w0 (act a w).
Proof.
  intros Hp H. unfold act, autoStopEffect.
  repeat case_match; auto using evolves_perform, evolves_handleAutoStop.
Qed.

Lemma evolves_runActs w0 acts w :
  Forall (permits A F) acts -> evolves I R w0 w -> evolves I R w0 (runActs acts w).
Proof.
  intros Hp. revert w. induction Hp as [|a acts Ha _ IH]; intros w H; [done|].
  cbn. by apply IH, evolves_act.
Qed.

End Evolves.

(** The component's events are actions. *)
Lemma runActs_events (evs : list Event) (w : World) :
  runActs (Ev <$> evs) w = run evs w.
Proof. revert w. induction evs as [|e evs IH]; intros w; [done|]. cbn. by rewrite IH. Qed.

Lemma any_action_permitted (a : Action) : permits (fun _ => True) true a.
Proof. destruct a as [e| |]; [destruct e|..]; cbn; done. Qed.

Lemma all_actions_permitted (acts : list Action) : Forall (permits (fun _ => True) true) acts.
Proof. apply Forall_forall. intros a _. apply any_action_permitted. Qed.

Lemma Forall2_same {T} (R : T -> T -> Prop) (l : list T) :
  (forall x, R x x) -> Forall2 R l l.
Proof. intros H. induction l; constructor; auto. Qed.

Lemma pausedOk_inv (A : Q -> Prop) :
  stateInv A (fun s => (isPaused s = true -> isRecording s = true)
                       /\ (is_Some (audioUrl s) <-> is_Some (audioBlob s))).
Proof. split; cbn; try tauto; intros; split; try done; tauto. Qed.

Lemma unitVolume_inv :
  stateInv (fun a => (0 <= a)%Q) (fun s => (0 <= volume s)%Q /\ (volume s <= 1)%Q).
Proof.
  split; cbn; try tauto; try (intros; split; done).
  intros a s Ha _. split.
  - apply Q.min_glb; [|done]. apply Qle_shift_div_l; [done|]. by rewrite Qmult_0_l.
  - apply Q.le_min_r.
Qed.

Lemma trivial_inv (A : Q -> Prop) : stateInv A (fun _ => True).
Proof. by split. Qed.

Lemma trivial_evolving (F : bool) : evolving F (fun _ _ => True).
Proof. by split. Qed.

(** The shape of a segment record: the four conditions of
    [segment_record_invariants], with the position it started at. *)
Lemma shape_evolving :
  evolving true (fun g g' =>
    id g' = id g
    /\ (status g' = Pending ->
        blob g' = None /\ url g' = None /\ uploadUrl g' = None /\ errorMsg g' = None)
    /\ (status g' = Error -> is_Some (errorMsg g'))
    /\ (is_Some (blob g') <-> is_Some (url g'))).
Proof.
  split; cbn.
  1: intros s g g' [->|[->| ->]] ?.
  all: intros; destruct_and?; split_and!; try done; try (intros; by eexists).
Qed.

Lemma retry_grows_evolving :
  evolving true (fun g g' => id g' = id g /\ retryCount g <= retryCount g').
Proof. split; cbn; intros; destruct_and?; split; try done; lia. Qed.

Lemma retry_fixed_evolving :
  evolving false (fun g g' => retryCount g' = retryCount g).
Proof. split; cbn; intros; done. Qed.

(** X1 -- Session state of the hook, whatever the component and other
    clients of the hook have done since the first render: a paused
    session is a recording one, and the preview URL [audioUrl] is present
    exactly when the payload [audioBlob] is. *)
Theorem session_state_invariants (acts : list Action) :
  (isPaused (state (runActs acts initialWorld)) = true ->
   isRecording (state (runActs acts initialWorld)) = true)
  /\ (is_Some (audioUrl (state (runActs acts initialWorld)))
      <-> is_Some (audioBlob (state (runActs acts initialWorld)))).
Proof.
  assert (H : evolves (fun s => (isPaused s = true -> isRecording s = true)
                         /\ (is_Some (audioUrl s) <-> is_Some (audioBlob s)))
                (fun _ _ => True) initialWorld (runActs acts initialWorld)).
  { eapply evolves_runActs;
      [apply pausedOk_inv|apply (trivial_evolving true)|apply all_actions_permitted|].
    apply evolves_start; [|by apply Forall2_same]. cbn. split; [done|]. split; intros [? [=]]. }
  exact (proj1 H).
Qed.

(** X2 -- The volume the hook reports stays between 0 and 1, as long as
    the sampler reads averages of unsigned bytes. *)
Theorem volume_in_unit_interval (acts : list Action) :
  Forall byteAverage acts ->
  (0 <= volume (state (runActs acts initialWorld)))%Q
  /\ (volume (state (runActs acts initialWorld)) <= 1)%Q.
Proof.
  intros Hb.
  assert (H : evolves (fun s => (0 <= volume s)%Q /\ (volume s <= 1)%Q)
                (fun _ _ => True) initialWorld (runActs acts initialWorld)).
  { eapply evolves_runActs; [apply unitVolume_inv|apply (trivial_evolving true)| |].
    - eapply Forall_impl; [exact Hb|]. intros [e| |]; [destruct e|..]; cbn; done.
    - apply evolves_start; [|by apply Forall2_same]. cbn. split; done. }
  exact (proj1 H).
Qed.

Lemma volume_in_unit_interval_witness :
  Forall byteAverage pausedRun
  /\ (0 <= volume (state (runActs pausedRun initialWorld)))%Q
  /\ (volume (state (runActs pausedRun initialWorld)) <= 1)%Q.
Proof.
  assert (H : Forall byteAverage pausedRun) by (repeat constructor; done).
  split; [exact H|]. exact (volume_in_unit_interval pausedRun H).
Defined.

(** X3 -- The segment records of every reachable world: the segment at
    position [p] has id [p]; a pending segment carries no payload, no
    preview URL, no remote URL and no error message; a segment in error
    carries an error message; a payload is stored exactly when a preview
    URL is. *)
Theorem segment_record_invariants (acts : list Action) (p : nat) (g : Segment) :
  segments (orch (runActs acts initialWorld)) !! p = Some g ->
  id g = p
  /\ (status g = Pending ->
      blob g = None /\ url g = None /\ uploadUrl g = None /\ errorMsg g = None)
  /\ (status g = Error -> is_Some (errorMsg g))
  /\ (is_Some (blob g) <-> is_Some (url g)).
Proof.
  intros Hg.
  pose proof (evolves_runActs _ _ _ _ (trivial_inv _) shape_evolving initialWorld acts
                initialWorld (all_actions_permitted acts)) as H.
  destruct H as (_ & H & _).
  { apply evolves_start; [done|]. cbn. repeat constructor; cbn; try done; intros [? [=]]. }
  destruct (Forall2_lookup_r _ _ _ _ _ H Hg) as (g0 & H0 & Hid & Hrest).
  split; [|exact Hrest]. rewrite Hid.
  destruct p as [|[|[|p]]]; cbn in H0; by inversion H0.
Qed.

Lemma segment_record_invariants_witness :
  segments (orch (runActs pausedRun initialWorld)) !! 0 =
    Some (mkSegment 0 Recording None None None 0 None)
  /\ 0 = 0.
Proof.
  assert (H : segments (orch (runActs pausedRun initialWorld)) !! 0 =
              Some (mkSegment 0 Recording None None None 0 None)) by (vm_compute; reflexivity).
  split; [exact H|].
  exact (proj1 (segment_record_invariants pausedRun 0 _ H)).
Defined.

(** X4 -- Along any sequence of actions, from any world, a position keeps
    the id of its segment and its retry count never decreases:
    re-recording and advancing do not reset it. *)
Theorem retry_count_never_decreases (acts : list Action) (w : World) (p : nat)
    (g g' : Segment) :
  segments (orch w) !! p = Some g ->
  segments (orch (runActs acts w)) !! p = Some g' ->
  id g' = id g /\ retryCount g <= retryCount g'.
Proof.
  intros Hg Hg'.
  pose proof (evolves_runActs _ _ _ _ (trivial_inv _) retry_grows_evolving w acts
                w (all_actions_permitted acts)) as H.
  destruct H as (_ & H & _).
  { apply evolves_start; [done|]. apply Forall2_same. intros; split; [done|lia]. }
  exact (Forall2_lookup_lr _ _ _ _ _ _ H Hg Hg').
Qed.

Lemma retry_count_never_decreases_witness :
  segments (orch uploadingWorld) !! 0 = Some uploadingSegment
  /\ segments (orch (runActs [Ev (UploadSettles 0 uploadFailure); Ev ClickRetry]
                      uploadingWorld)) !! 0
     = Some (mkSegment 0 Pending None None None 1 None)
  /\ 0 <= 1.
Proof.
  assert (H1 : segments (orch uploadingWorld) !! 0 = Some uploadingSegment)
    by (vm_compute; reflexivity).
  assert (H2 : segments (orch (runActs [Ev (UploadSettles 0 uploadFailure); Ev ClickRetry]
                                 uploadingWorld)) !! 0
               = Some (mkSegment 0 Pending None None None 1 None))
    by (vm_compute; reflexivity).
  split; [exact H1|]. split; [exact H2|].
  exact (proj2 (retry_count_never_decreases _ _ 0 _ _ H1 H2)).
Defined.

(** X5 -- The retry count of every position changes only when an upload
    fails: no other action, of the component or of the hook, touches
    it. *)
Theorem retry_count_changes_only_on_failed_upload (acts : list Action) (w : World) :
  Forall (fun a => failedUpload a = false) acts ->
  retryCount <$> segments (orch (runActs acts w)) = retryCount <$> segments (orch w).
Proof.
  intros Hf.
  pose proof (evolves_runActs (fun _ => True) false _ _ (trivial_inv _) retry_fixed_evolving
                w acts w) as H.
  destruct H as (_ & H & _).
  { eapply Forall_impl; [exact Hf|]. intros [e| |]; [destruct e|..]; cbn; done. }
  { apply evolves_start; [done|]. by apply Forall2_same. }
  induction H as [|g g' l l' Hg _ IH]; [done|]. cbn. by rewrite Hg, IH.
Qed.

Lemma retry_count_changes_only_witness :
  Forall (fun a => failedUpload a = false) [Ev ClickRetry; Ev TouchStart; CallPause]
  /\ retryCount <$> segments (orch (runActs [Ev ClickRetry; Ev TouchStart; CallPause]
                                     threeFailuresWorld)) = [3; 0; 0].
Proof.
  assert (H : Forall (fun a => failedUpload a = false) [Ev ClickRetry; Ev TouchStart; CallPause])
    by (repeat constructor).
  split; [exact H|].
  exact (retry_count_changes_only_on_failed_upload _ threeFailuresWorld H).
Defined.

(** ** The capture session: reset, pause and resume, start and stop *)

Lemma withoutTimer_clear {K} (o : option nat) (t : nat) (l : list (nat * K)) :
  o = Some t -> Forall (fun p => fst p <> t) (withoutTimer o l).
Proof. intros ->. apply Forall_filter_self. Qed.

Lemma withoutTimer_keep {K} (P : nat * K -> Prop) (o : option nat) (l : list (nat * K)) :
  Forall P l -> Forall P (withoutTimer o l).
Proof. destruct o; cbn; auto using Forall_filter_keep. Qed.

Lemma withoutHandle_gone (o : option nat) (h : nat) (l : list nat) :
  o = Some h -> h ∉ withoutHandle o l.
Proof. intros -> H. apply list_elem_of_filter in H as [H _]. by apply H. Qed.

(** [resetRecording] in one piece. *)
Lemma resetRecording_eq (w : World) :
  resetRecording w =
  mkWorld initialRecorderState initialRefs
    (mkBrowser (clock (browser w)) (nextId (browser w))
       (withoutTimer (volumeRef (refs w)) (withoutTimer (timerRef (refs w))
          (intervals (browser w))))
       (timeouts (browser w))
       (withoutHandle (streamRef (refs w)) (liveStreams (browser w)))
       (withoutHandle (audioContextRef (refs w)) (openContexts (browser w)))
       (withoutHandle (audioUrl (state w)) (objectUrls (browser w))))
    (pend w) (orch w) (log w).
Proof.
  destruct_world w. unfold resetRecording. destruct tr, vr, sr, ar, au; reflexivity.
Qed.

(** X6 -- [resetRecording] can be called in every state.  It leaves the
    session in its initial state with every ref null; the intervals, the
    stream, the audio context and the preview URL the session held are
    cleared, stopped, closed and revoked; what the component keeps and
    the pending promises are not touched; a second reset changes
    nothing. *)
Theorem reset_returns_to_initial_state (w : World) :
  state (resetRecording w) = initialRecorderState
  /\ refs (resetRecording w) = initialRefs
  /\ (forall t k, timerRef (refs w) = Some t \/ volumeRef (refs w) = Some t ->
        armed t k (resetRecording w) = false)
  /\ (forall s, streamRef (refs w) = Some s -> s ∉ liveStreams (browser (resetRecording w)))
  /\ (forall c, audioContextRef (refs w) = Some c ->
        c ∉ openContexts (browser (resetRecording w)))
  /\ (forall u, audioUrl (state w) = Some u -> u ∉ objectUrls (browser (resetRecording w)))
  /\ orch (resetRecording w) = orch w
  /\ pend (resetRecording w) = pend w
  /\ log (resetRecording w) = log w
  /\ resetRecording (resetRecording w) = resetRecording w.
Proof.
  rewrite (resetRecording_eq (resetRecording w)), !(resetRecording_eq w).
  split_and!; try reflexivity.
  - intros t k Ht. apply not_armed_id. cbn. destruct Ht as [Ht|Ht].
    + by apply withoutTimer_keep, withoutTimer_clear.
    + by apply withoutTimer_clear.
  - intros s. apply withoutHandle_gone.
  - intros c. apply withoutHandle_gone.
  - intros u. apply withoutHandle_gone.
Qed.

(** [pauseRecording] and [resumeRecording] in one piece, where their
    guards let them through. *)
Lemma pauseRecording_eq (w : World) :
  is_Some (recorderRef (refs w)) -> isRecording (state w) = true ->
  pauseRecording w =
  mkWorld (mkRecorderState true true (recordingTime (state w)) (volume (state w))
             (error (state w)) (audioBlob (state w)) (audioUrl (state w)))
    (refs w)
    (mkBrowser (clock (browser w)) (nextId (browser w))
       (withoutTimer (volumeRef (refs w)) (withoutTimer (timerRef (refs w))
          (intervals (browser w))))
       (timeouts (browser w)) (liveStreams (browser w)) (openContexts (browser w))
       (objectUrls (browser w)))
    (pend w) (orch w) (log w).
Proof.
  destruct_world w. unfold pauseRecording. cbn. intros [r ->] ->.
  destruct tr, vr; reflexivity.
Qed.

Lemma resumeRecording_eq (w : World) :
  is_Some (recorderRef (refs w)) -> isPaused (state w) = true ->
  resumeRecording w =
  mkWorld (mkRecorderState (isRecording (state w)) false (recordingTime (state w))
             (volume (state w)) (error (state w)) (audioBlob (state w)) (audioUrl (state w)))
    (mkRefs (recorderRef (refs w)) (streamRef (refs w)) (Some (nextId (browser w)))
       (Some (S (nextId (browser w)))) (audioContextRef (refs w)) (analyserRef (refs w)))
    (mkBrowser (clock (browser w)) (S (S (nextId (browser w))))
       ((intervals (browser w) ++ [(nextId (browser w), TickInterval)])
          ++ [(S (nextId (browser w)), VolumeInterval)])
       (timeouts (browser w)) (liveStreams (browser w)) (openContexts (browser w))
       (objectUrls (browser w)))
    (pend w) (orch w) (log w).
Proof.
  destruct_world w. unfold resumeRecording. cbn. intros [r ->] ->. reflexivity.
Qed.

Lemma filter_all {T} (P : T -> Prop) `{!forall x, Decision (P x)} (l : list T) :
  Forall P l -> filter P l = l.
Proof.
  induction 1 as [|x l Hx _ IH]; [done|]. rewrite filter_cons.
  case_decide; [by rewrite IH|done].
Qed.

(** Clearing the same two timers again changes nothing. *)
Lemma withoutTimer_twice {K} (o1 o2 : option nat) (l : list (nat * K)) :
  withoutTimer o2 (withoutTimer o1 (withoutTimer o2 (withoutTimer o1 l)))
  = withoutTimer o2 (withoutTimer o1 l).
Proof.
  destruct o1 as [t1|], o2 as [t2|]; cbn; [| |by rewrite filter_filter_same|done].
  - rewrite (filter_all (fun p => fst p <> t1)) by apply Forall_filter_keep, Forall_filter_self.
    by rewrite filter_filter_same.
  - by rewrite filter_filter_same.
Qed.

(** X7 -- Pause and resume of a recording session whose tick interval is
    the one [timerRef] points to.  The pause keeps the session recording
    and the elapsed time, leaves no tick interval armed, so that no tick
    changes anything until the session is resumed, and a second pause
    changes nothing.  The resume keeps the elapsed time and arms one new
    tick interval, held by [timerRef], whose next tick counts from where
    the pause stopped. *)
Theorem pause_freezes_and_resume_continues (w : World) :
  is_Some (recorderRef (refs w)) ->
  isRecording (state w) = true ->
  ticksOwned w ->
  (isPaused (state (pauseRecording w)) = true
   /\ isRecording (state (pauseRecording w)) = true
   /\ recordingTime (state (pauseRecording w)) = recordingTime (state w)
   /\ noTicks (pauseRecording w)
   /\ (forall t, step (TickFires t) (pauseRecording w) = pauseRecording w)
   /\ pauseRecording (pauseRecording w) = pauseRecording w)
  /\ (isPaused (state (resumeRecording (pauseRecording w))) = false
      /\ isRecording (state (resumeRecording (pauseRecording w))) = true
      /\ recordingTime (state (resumeRecording (pauseRecording w))) = recordingTime (state w)
      /\ timerRef (refs (resumeRecording (pauseRecording w))) = Some (nextId (browser w))
      /\ ticksOwned (resumeRecording (pauseRecording w))
      /\ recordingTime (state (handle (TickFires (nextId (browser w)))
                                  (resumeRecording (pauseRecording w))))
         = recordingTime (state w) + 1).
Proof.
  intros Hrec Hon Hown.
  assert (Hn : noTicks (pauseRecording w)).
  { rewrite pauseRecording_eq by done. unfold noTicks. cbn.
    apply withoutTimer_keep. destruct (timerRef (refs w)) as [t|] eqn:Et; cbn.
    - apply filter_noTicks. eapply Forall_impl; [exact Hown|]. cbn. intros p Hp Hk.
      rewrite <- (Hp Hk). by rewrite Et.
    - eapply Forall_impl; [exact Hown|]. cbn. intros p Hp Hk. specialize (Hp Hk).
      by rewrite Et in Hp. }
  assert (Hp : is_Some (recorderRef (refs (pauseRecording w)))
               /\ isRecording (state (pauseRecording w)) = true
               /\ isPaused (state (pauseRecording w)) = true).
  { by rewrite pauseRecording_eq. }
  destruct Hp as (Hp1 & Hp2 & Hp3).
  split; [split_and!|].
  - done.
  - done.
  - by rewrite pauseRecording_eq.
  - done.
  - intros t. unfold step. cbn [handle]. unfold armed.
    rewrite (not_armed_kind t TickInterval _ Hn). by apply autoStopEffect_same.
  - rewrite (pauseRecording_eq (pauseRecording w)) by done.
    rewrite !(pauseRecording_eq w) by done. cbn. by rewrite withoutTimer_twice.
  - rewrite resumeRecording_eq by done. rewrite pauseRecording_eq by done. cbn.
    split_and!; try done.
    + rewrite pauseRecording_eq in Hn by done. unfold noTicks, ticksOwned in *. cbn in *.
      rewrite !Forall_app. split_and!.
      * eapply Forall_impl; [exact Hn|]. cbn. intros p Hp Hk. by destruct Hp.
      * by repeat constructor.
      * by repeat constructor.
    + unfold armed. cbn. rewrite !existsb_app. cbn. rewrite Nat.eqb_refl. cbn.
      rewrite orb_true_r. cbn. unfold tick. cbn. reflexivity.
Qed.

Lemma pause_freezes_and_resume_continues_witness :
  isRecording (state (recordingAt 5)) = true
  /\ isPaused (state (pauseRecording (recordingAt 5))) = true
  /\ recordingTime (state (resumeRecording (pauseRecording (recordingAt 5)))) = 5.
Proof.
  assert (H1 : is_Some (recorderRef (refs (recordingAt 5)))) by (vm_compute; eauto).
  assert (H2 : isRecording (state (recordingAt 5)) = true) by (vm_compute; reflexivity).
  assert (H3 : ticksOwned (recordingAt 5)).
  { unfold ticksOwned. vm_compute.
    repeat (constructor; [intros; first [reflexivity | discriminate]|]). constructor. }
  destruct (pause_freezes_and_resume_continues (recordingAt 5) H1 H2 H3)
    as ((Hp & _) & (_ & _ & Ht & _)).
  split; [exact H2|]. split; [exact Hp|exact Ht].
Defined.

(** A granted start in one piece. *)
Lemma granted_eq (w : World) :
  startRecording_settled MediaGranted w =
  mkWorld (mkRecorderState true false 0 (volume (state w)) (error (state w))
             (audioBlob (state w)) (audioUrl (state w)))
    (mkRefs (Some (2 + nextId (browser w))) (Some (nextId (browser w)))
       (Some (3 + nextId (browser w))) (Some (4 + nextId (browser w)))
       (Some (1 + nextId (browser w))) (Some (1 + nextId (browser w))))
    (mkBrowser (clock (browser w)) (5 + nextId (browser w))
       ((intervals (browser w) ++ [(3 + nextId (browser w), TickInterval)])
          ++ [(4 + nextId (browser w), VolumeInterval)])
       (timeouts (browser w)) (liveStreams (browser w) ++ [nextId (browser w)])
       (openContexts (browser w) ++ [1 + nextId (browser w)]) (objectUrls (browser w)))
    (pend w) (orch w) (log w).
Proof.
  destruct_world w. reflexivity.
Qed.

Lemma armed_filter_other (t t' : nat) (k : IntervalKind) (l : list (nat * IntervalKind)) :
  t <> t' ->
  existsb (fun p : nat * IntervalKind => Nat.eqb (fst p) t && bool_decide (snd p = k))
    (filter (fun p => fst p <> t') l)
  = existsb (fun p : nat * IntervalKind => Nat.eqb (fst p) t && bool_decide (snd p = k)) l.
Proof.
  intros Hne. induction l as [|[x kx] l IH]; [done|].
  rewrite filter_cons. cbn. case_decide as Hd; cbn; rewrite IH; [done|].
  assert (x = t') as -> by (destruct (decide (x = t')); [done|by destruct Hd]).
  apply Nat.eqb_neq in Hne. rewrite Nat.eqb_sym in Hne. by rewrite Hne.
Qed.

Lemma elem_of_filter_other (s s' : nat) (l : list nat) :
  s <> s' -> s ∈ l -> s ∈ filter (fun v => v <> s') l.
Proof. intros Hne Hin. apply list_elem_of_filter. done. Qed.

(** X8 -- [startRecording] does not look at the session it finds.  When
    the stream is granted while an earlier stream is live and an earlier
    tick interval armed, the refs are overwritten with the new handles;
    the stop that follows, and a reset, release what the refs point to:
    the earlier stream stays live and the earlier interval stays armed. *)
Theorem second_start_leaks_first_session (w : World) (s t : nat) (b : option Blob) :
  s ∈ liveStreams (browser w) -> s < nextId (browser w) ->
  armed t TickInterval w = true -> t < nextId (browser w) ->
  let w1 := startRecording_settled MediaGranted w in
  let w2 := stopRecording_settled (length (pendingStops (pend w))) b
              (stopRecording WaitInternal w1) in
  streamRef (refs w1) = Some (nextId (browser w))
  /\ timerRef (refs w1) = Some (3 + nextId (browser w))
  /\ isRecording (state w2) = false
  /\ s ∈ liveStreams (browser w2) /\ armed t TickInterval w2 = true
  /\ s ∈ liveStreams (browser (resetRecording w1))
  /\ armed t TickInterval (resetRecording w1) = true.
Proof.
  intros Hs Hsn Ht Htn w1 w2. subst w2 w1. rewrite resetRecording_eq, !granted_eq.
  unfold stopRecording, stopRecording_cleanup, stopRecording_settled. cbn.
  rewrite lookup_app_r, Nat.sub_diag by done. cbn.
  unfold armed in *. cbn.
  assert (Ha : forall l2,
    existsb (fun p : nat * IntervalKind => Nat.eqb (fst p) t && bool_decide (snd p = TickInterval))
      (filter (fun p => fst p <> 4 + nextId (browser w))
         (filter (fun p => fst p <> 3 + nextId (browser w))
            ((intervals (browser w) ++ [(3 + nextId (browser w), TickInterval)]) ++ l2)))
    = true).
  { intros l2. rewrite !armed_filter_other by lia. rewrite !existsb_app, Ht. done. }
  assert (Hl : s ∈ filter (fun v => v <> nextId (browser w))
                 (liveStreams (browser w) ++ [nextId (browser w)])).
  { apply elem_of_filter_other; [lia|]. apply elem_of_app. by left. }
  destruct b; cbn; split_and!; try done; apply Ha.
Qed.

Lemma second_start_leaks_first_session_witness :
  1 ∈ liveStreams (browser recordingWorld)
  /\ armed 4 TickInterval recordingWorld = true
  /\ 1 ∈ liveStreams (browser (resetRecording
                                 (startRecording_settled MediaGranted recordingWorld)))
  /\ armed 4 TickInterval (resetRecording (startRecording_settled MediaGranted recordingWorld))
     = true.
Proof.
  assert (H1 : 1 ∈ liveStreams (browser recordingWorld)) by (vm_compute; constructor).
  assert (H2 : 1 < nextId (browser recordingWorld)) by (vm_compute; lia).
  assert (H3 : armed 4 TickInterval recordingWorld = true) by (vm_compute; reflexivity).
  assert (H4 : 4 < nextId (browser recordingWorld)) by (vm_compute; lia).
  destruct (second_start_leaks_first_session recordingWorld 1 4 None H1 H2 H3 H4)
    as (_ & _ & _ & _ & _ & H5 & H6).
  split; [exact H1|]. split; [exact H3|]. split; [exact H5|exact H6].
Defined.

(** The clearing of [stopRecording] in one piece. *)
Lemma cleanup_eq (w : World) :
  stopRecording_cleanup w =
  mkWorld (state w)
    (mkRefs (recorderRef (refs w)) (streamRef (refs w)) None None
       (audioContextRef (refs w)) (analyserRef (refs w)))
    (mkBrowser (clock (browser w)) (nextId (browser w))
       (withoutTimer (volumeRef (refs w)) (withoutTimer (timerRef (refs w))
          (intervals (browser w))))
       (timeouts (browser w)) (liveStreams (browser w))
       (withoutHandle (audioContextRef (refs w)) (openContexts (browser w)))
       (objectUrls (browser w)))
    (pend w) (orch w) (log w).
Proof.
  destruct_world w. unfold stopRecording_cleanup. destruct tr, vr, ar; reflexivity.
Qed.

Lemma withoutHandle_twice (o : option nat) (l : list nat) :
  withoutHandle o (withoutHandle o l) = withoutHandle o l.
Proof. destruct o; cbn; [by rewrite filter_filter_same|done]. Qed.

(** Clearing the interval [timerRef] points to, of a session that owns
    its tick intervals, leaves no tick interval. *)
Lemma owned_ticks_cleared (w : World) :
  ticksOwned w ->
  Forall (fun p => snd p <> TickInterval)
    (withoutTimer (volumeRef (refs w)) (withoutTimer (timerRef (refs w))
       (intervals (browser w)))).
Proof.
  intros Hown. apply withoutTimer_keep. destruct (timerRef (refs w)) as [t|] eqn:Et; cbn.
  - apply filter_noTicks. eapply Forall_impl; [exact Hown|]. cbn. intros p Hp Hk.
    rewrite <- (Hp Hk). by rewrite Et.
  - eapply Forall_impl; [exact Hown|]. cbn. intros p Hp Hk. specialize (Hp Hk).
    by rewrite Et in Hp.
Qed.

Lemma autoStopEffect_below (w w' : World) :
  isRecording (state w') = false \/ recordingTime (state w') < SEGMENT_DURATION ->
  autoStopEffect w w' = w'.
Proof.
  intros H. unfold autoStopEffect. case_match; [done|].
  destruct H as [->|H]; [done|]. apply Nat.leb_gt in H. rewrite H. by rewrite andb_false_r.
Qed.

Lemma autoStopEffect_fires (w w' : World) :
  recordingTime (state w') <> recordingTime (state w) ->
  isRecording (state w') = true ->
  SEGMENT_DURATION <= recordingTime (state w') ->
  autoStopEffect w w' = handleAutoStop w'.
Proof.
  intros Hne Hr Hge. unfold autoStopEffect.
  apply Nat.eqb_neq in Hne. rewrite Nat.eqb_sym in Hne. rewrite Hne, andb_false_r.
  apply Nat.leb_le in Hge. by rewrite Hr, Hge.
Qed.

(** The updater of the tick in either build: what it does to the two
    fields the effect looks at. *)
Lemma tickUpdater_state (strict : bool) (w : World) :
  isRecording (state (tickUpdater strict w)) = isRecording (state w)
  /\ recordingTime (state (tickUpdater strict w)) = recordingTime (state w) + 1.
Proof.
  unfold tickUpdater. cbv zeta. case_match; [|done].
  cbn [state setState isRecording recordingTime]. split; [|done].
  assert (Hst : forall u, isRecording (state (stopRecording WaitInternal u))
                          = isRecording (state u)).
  { intros u. unfold stopRecording. cbv zeta.
    pose proof (cleanup_frame u) as (Hs & _). case_match; cbn; by rewrite Hs. }
  destruct strict; by rewrite ?Hst.
Qed.

(** X9 -- One tick of the hook's 1 s interval, in the production build
    and in the development build, where [React.StrictMode] makes React
    run the updater of the tick twice.  Without strict mode the step is
    the one of [TickFires].  Below the limit the tick adds one second to
    the elapsed time and changes nothing else, in either build.  The tick
    that reaches 60 s in a recording session stops it in the same step:
    the [stopRecording()] of the updater, once in the production build
    and twice in the development build, and the one of [handleAutoStop]
    are all pending; the orchestrator has begun exactly one stop
    sequence, the current segment is processing, and no tick interval is
    armed any more, so that no later tick changes anything. *)
Theorem tick_counts_and_stops_at_limit (strict : bool) (w : World) (t : nat) :
  armed t TickInterval w = true ->
  tickStep false t w = step (TickFires t) w
  /\ (recordingTime (state w) + 1 < MAX_RECORDING_TIME ->
      tickStep strict t w =
      setState (fun s => mkRecorderState (isRecording s) (isPaused s) (recordingTime s + 1)
                           (volume s) (error s) (audioBlob s) (audioUrl s)) w)
  /\ (MAX_RECORDING_TIME <= recordingTime (state w) + 1 ->
      isRecording (state w) = true ->
      is_Some (recorderRef (refs w)) ->
      ticksOwned w ->
      recordingTime (state (tickStep strict t w)) = recordingTime (state w) + 1
      /\ isRecording (state (tickStep strict t w)) = true
      /\ pendingStops (pend (tickStep strict t w))
         = pendingStops (pend w)
           ++ (if strict then [WaitInternal; WaitInternal] else [WaitInternal])
           ++ [WaitAutoStop (currentSegment (orch w))]
      /\ stopCount (tickStep strict t w) = S (stopCount w)
      /\ segments (orch (tickStep strict t w))
         = alter (withStatus Processing) (currentSegment (orch w)) (segments (orch w))
      /\ noTicks (tickStep strict t w)
      /\ (forall t', tickStep strict t' (tickStep strict t w) = tickStep strict t w)).
Proof.
  intros Ha. split; [reflexivity|]. unfold tickStep. rewrite Ha. split.
  - intros Hlt. destruct (tickUpdater_state strict w) as [_ Ht].
    rewrite autoStopEffect_below
      by (right; rewrite Ht; unfold SEGMENT_DURATION, MAX_RECORDING_TIME in *; lia).
    unfold tickUpdater. cbv zeta.
    by destruct (Nat.leb_spec MAX_RECORDING_TIME (recordingTime (state w) + 1)); [lia|].
  - intros Hge Hrec [r Hr] Hown. destruct (tickUpdater_state strict w) as [Hi Ht].
    rewrite autoStopEffect_fires
      by (rewrite ?Hi, ?Ht; unfold SEGMENT_DURATION, MAX_RECORDING_TIME in *; done || lia).
    assert (E : handleAutoStop (tickUpdater strict w) =
      mkWorld (mkRecorderState true (isPaused (state w)) (recordingTime (state w) + 1)
                 (volume (state w)) (error (state w)) (audioBlob (state w))
                 (audioUrl (state w)))
        (mkRefs (Some r) (streamRef (refs w)) None None
           (audioContextRef (refs w)) (analyserRef (refs w)))
        (mkBrowser (clock (browser w)) (nextId (browser w))
           (withoutTimer (volumeRef (refs w)) (withoutTimer (timerRef (refs w))
              (intervals (browser w))))
           (timeouts (browser w)) (liveStreams (browser w))
           (withoutHandle (audioContextRef (refs w)) (openContexts (browser w)))
           (objectUrls (browser w)))
        (mkPromises (pendingStarts (pend w))
           ((pendingStops (pend w)
               ++ (if strict then [WaitInternal; WaitInternal] else [WaitInternal]))
              ++ [WaitAutoStop (currentSegment (orch w))])
           (inflight (pend w)))
        (mkOrch (currentSegment (orch w))
           (alter (withStatus Processing) (currentSegment (orch w)) (segments (orch w)))
           (isHoldStarting (orch w)) (showGuide (orch w)) (holdTimerRef (orch w)))
        (CmdStop :: log w)).
    { unfold handleAutoStop. rewrite Hi, Hrec. cbn [negb].
      unfold tickUpdater. cbv zeta.
      destruct (Nat.leb_spec MAX_RECORDING_TIME (recordingTime (state w) + 1)); [|lia].
      destruct strict.
      - unfold stopRecording. cbv zeta. rewrite !cleanup_eq. cbn. rewrite Hr. cbn.
        rewrite ?Hr. cbn. rewrite ?Hrec, ?withoutHandle_twice. cbn.
        by rewrite <- (app_assoc _ [WaitInternal] [WaitInternal]).
      - unfold stopRecording. cbv zeta. rewrite !cleanup_eq. cbn. rewrite Hr. cbn.
        by rewrite Hrec, withoutHandle_twice. }
    rewrite E. cbn. split_and!; try done.
    + by rewrite <- app_assoc.
    + by apply owned_ticks_cleared.
    + intros t'. unfold armed. cbn.
      rewrite (not_armed_kind t' TickInterval _ (owned_ticks_cleared w Hown)).
      by apply autoStopEffect_same.
Qed.

Lemma tick_counts_and_stops_at_limit_witness :
  armed 4 TickInterval (recordingAt 59) = true
  /\ recordingTime (state (tickStep true 4 (recordingAt 5))) = 6
  /\ stopCount (tickStep false 4 (recordingAt 59)) = 1
  /\ pendingStops (pend (tickStep true 4 (recordingAt 59)))
     = [WaitInternal; WaitInternal; WaitAutoStop 0].
Proof.
  assert (H1 : armed 4 TickInterval (recordingAt 59) = true) by (vm_compute; reflexivity).
  assert (H2 : armed 4 TickInterval (recordingAt 5) = true) by (vm_compute; reflexivity).
  assert (H3 : MAX_RECORDING_TIME <= recordingTime (state (recordingAt 59)) + 1)
    by (vm_compute; lia).
  assert (H4 : isRecording (state (recordingAt 59)) = true) by (vm_compute; reflexivity).
  assert (H5 : is_Some (recorderRef (refs (recordingAt 59)))) by (vm_compute; eauto).
  assert (H6 : ticksOwned (recordingAt 59)).
  { unfold ticksOwned. vm_compute.
    repeat (constructor; [intros; first [reflexivity | discriminate]|]). constructor. }
  split; [exact H1|]. split; [|split].
  - rewrite (proj1 (proj2 (tick_counts_and_stops_at_limit true (recordingAt 5) 4 H2)));
      [reflexivity|vm_compute; lia].
  - exact (proj1 (proj2 (proj2 (proj2
      (proj2 (proj2 (tick_counts_and_stops_at_limit false (recordingAt 59) 4 H1))
         H3 H4 H5 H6))))).
  - exact (proj1 (proj2 (proj2
      (proj2 (proj2 (tick_counts_and_stops_at_limit true (recordingAt 59) 4 H1))
         H3 H4 H5 H6)))).
Defined.

(** ** The orchestrator *)

(** An accepted press in one piece. *)
Lemma handleTouchStart_accepted (w : World) (g : Segment) :
  currentSeg w = Some g -> status g = Pending \/ status g = Error ->
  handleTouchStart w =
  setHoldTimerRef (Some (nextId (browser w)))
    (snd (setTimeout HOLD_DELAY (currentSegment (orch w)) (setIsHoldStarting true w))).
Proof. intros Hg Hs. unfold handleTouchStart. rewrite Hg. by destruct Hs as [-> | ->]. Qed.

(** X10 -- A press on a segment that is pending or in error, held for
    [HOLD_DELAY] milliseconds or more: when the hold timer fires the
    segment is recording and [startRecording] has been issued exactly
    once, whatever the retry count of the segment.  The timer is gone and
    cannot fire again, and a second press is ignored.  A release that
    comes before the microphone is granted is ignored as well: the grant
    that follows still starts the recording. *)
Theorem sustained_hold_starts_recording (w : World) (g : Segment) (d : nat) :
  currentSeg w = Some g ->
  status g = Pending \/ status g = Error ->
  findTimeout (nextId (browser w)) (timeouts (browser w)) = None ->
  HOLD_DELAY <= d ->
  isRecording (state w) = false ->
  let w' := run [TouchStart; Elapse d; HoldTimerFires (nextId (browser w))] w in
  startCount w' = S (startCount w)
  /\ pendingStarts (pend w') = S (pendingStarts (pend w))
  /\ segments (orch w')
     = alter (withStatus Recording) (currentSegment (orch w)) (segments (orch w))
  /\ isHoldStarting (orch w') = false
  /\ timeouts (browser w') = timeouts (browser w)
  /\ step (HoldTimerFires (nextId (browser w))) w' = w'
  /\ step TouchStart w' = w'
  /\ step TouchEnd w' = w'
  /\ isRecording (state (step (MediaSettles MediaGranted) w')) = true.
Proof.
  intros Hg Hs Hfresh Hd Hrec w'.
  assert (Hrun : w' = holdCallback (currentSegment (orch w))
                        (clearTimeout (nextId (browser w))
                           (advanceClock d (handleTouchStart w)))).
  { assert (S1 : step TouchStart w = handleTouchStart w).
    { unfold step. cbn [handle]. rewrite (handleTouchStart_accepted w g Hg Hs).
      by apply autoStopEffect_same. }
    assert (S2 : forall u, step (Elapse d) u = advanceClock d u).
    { intros u. unfold step. cbn [handle]. by apply autoStopEffect_same. }
    unfold w'. cbn [run]. rewrite S1, S2. unfold step. cbn [handle].
    rewrite (handleTouchStart_accepted w g Hg Hs).
    assert (findTimeout (nextId (browser w)) (timeouts (browser (advanceClock d
              (setHoldTimerRef (Some (nextId (browser w)))
                 (snd (setTimeout HOLD_DELAY (currentSegment (orch w))
                         (setIsHoldStarting true w)))))))
            = Some (clock (browser w) + HOLD_DELAY, currentSegment (orch w))) as ->.
    { destruct_world w. cbn in *. by apply findTimeout_app_new. }
    assert ((clock (browser w) + HOLD_DELAY <=? clock (browser (advanceClock d
              (setHoldTimerRef (Some (nextId (browser w)))
                 (snd (setTimeout HOLD_DELAY (currentSegment (orch w))
                         (setIsHoldStarting true w))))))) = true) as ->.
    { apply Nat.leb_le. destruct_world w. cbn in *. lia. }
    by apply autoStopEffect_same. }
  assert (Hproj : state w' = mkRecorderState false (isPaused (state w))
                    (recordingTime (state w)) (volume (state w)) None
                    (audioBlob (state w)) (audioUrl (state w))
    /\ log w' = CmdStart :: log w
    /\ pend w' = mkPromises (S (pendingStarts (pend w))) (pendingStops (pend w))
                   (inflight (pend w))
    /\ segments (orch w')
       = alter (withStatus Recording) (currentSegment (orch w)) (segments (orch w))
    /\ currentSegment (orch w') = currentSegment (orch w)
    /\ isHoldStarting (orch w') = false
    /\ timeouts (browser w') = timeouts (browser w)).
  { rewrite Hrun, (handleTouchStart_accepted w g Hg Hs). clear -Hfresh Hrec.
    destruct_world w. cbn -[filter HOLD_DELAY] in *. subst rec.
    rewrite filter_app_new, (findTimeout_filter _ _ Hfresh). done. }
  destruct Hproj as (H1 & H2 & H3 & H4 & H5 & H6 & H7).
  split_and!; try done.
  - unfold startCount. by rewrite H2.
  - by rewrite H3.
  - unfold step. cbn [handle]. rewrite H7, Hfresh.
    by apply autoStopEffect_same.
  - unfold step. cbn [handle]. unfold handleTouchStart, currentSeg. rewrite H4, H5.
    assert (Hg' : alter (withStatus Recording) (currentSegment (orch w)) (segments (orch w))
                    !! currentSegment (orch w) = Some (withStatus Recording g)).
    { rewrite list_lookup_alter_eq. unfold currentSeg in Hg. by rewrite Hg. }
    rewrite Hg'. cbn. by apply autoStopEffect_same.
  - unfold step. cbn [handle]. unfold handleTouchEnd. rewrite H6, H1. cbn.
    by apply autoStopEffect_same.
  - unfold step. cbn [handle]. rewrite H3. cbn [pendingStarts].
    rewrite autoStopEffect_below; rewrite granted_eq; cbn; [done|].
    right. unfold SEGMENT_DURATION. lia.
Qed.

(** The theorem for a hold on the segment of the sample that is in error
    with three failed uploads behind it. *)
Lemma sustained_hold_starts_recording_witness :
  currentSeg threeFailuresWorld = Some cappedSegment
  /\ startCount (run [TouchStart; Elapse 500; HoldTimerFires 9] threeFailuresWorld) = 2
  /\ segments (orch (run [TouchStart; Elapse 500; HoldTimerFires 9] threeFailuresWorld)) !! 0
     = Some (withStatus Recording cappedSegment).
Proof.
  assert (H1 : currentSeg threeFailuresWorld = Some cappedSegment) by (vm_compute; reflexivity).
  assert (H2 : status cappedSegment = Pending \/ status cappedSegment = Error) by (by right).
  assert (H3 : findTimeout (nextId (browser threeFailuresWorld))
                 (timeouts (browser threeFailuresWorld)) = None) by (vm_compute; reflexivity).
  assert (H4 : HOLD_DELAY <= 500) by (unfold HOLD_DELAY; lia).
  assert (H5 : isRecording (state threeFailuresWorld) = false) by (vm_compute; reflexivity).
  destruct (sustained_hold_starts_recording threeFailuresWorld cappedSegment 500
              H1 H2 H3 H4 H5) as (Hc & _ & Hs & _).
  split; [exact H1|]. split; [exact Hc|].
  change (nextId (browser threeFailuresWorld)) with 9 in Hs. rewrite Hs.
  vm_compute. reflexivity.
Defined.

Lemma forallb_lookup_false {T} (f : T -> bool) (l : list T) (i : nat) (x : T) :
  l !! i = Some x -> f x = false -> forallb f l = false.
Proof.
  revert i. induction l as [|y l IH]; intros [|i]; cbn; try done.
  - intros [= ->] ->. done.
  - intros Hx Hf. rewrite (IH i Hx Hf). apply andb_false_r.
Qed.

(** X11 -- The hold has started a recording and [getUserMedia] rejects:
    the segment stays in [Recording] although the session does not
    record.  In that state presses, releases and clicks on the stop
    button are ignored, and the view renders none of the controls of the
    recorder card: neither the hold button nor the stop button, none of
    the three click controls, and not the button that completes the
    recording. *)
Theorem rejected_start_strands_segment (w : World) (g : Segment) (e : StartError) :
  currentSeg w = Some g ->
  isRecording (state w) = false ->
  let w' := step (MediaSettles (MediaRejected e))
              (holdCallback (currentSegment (orch w)) w) in
  currentSeg w' = Some (withStatus Recording g)
  /\ isRecording (state w') = false
  /\ error (state w') = Some (startErrorMessage e)
  /\ pendingStarts (pend w') = pendingStarts (pend w)
  /\ step TouchStart w' = w' /\ step TouchEnd w' = w' /\ step ClickManualStop w' = w'
  /\ holdButtonRendered w' = false /\ manualStopControlRendered w' = false
  /\ nextControlRendered w' = false /\ reRecordControlRendered w' = false
  /\ retryUploadControlRendered w' = false /\ canProceed w' = false.
Proof.
  intros Hg Hrec w'.
  assert (Hproj : state w' = mkRecorderState false (isPaused (state w))
                    (recordingTime (state w)) (volume (state w))
                    (Some (startErrorMessage e)) (audioBlob (state w)) (audioUrl (state w))
    /\ pend w' = pend w
    /\ segments (orch w')
       = alter (withStatus Recording) (currentSegment (orch w)) (segments (orch w))
    /\ currentSegment (orch w') = currentSegment (orch w)
    /\ isHoldStarting (orch w') = false).
  { unfold w', step. rewrite autoStopEffect_below by (left; by destruct_world w).
    clear -Hrec. destruct_world w. cbn in *. subst rec. split_and!; done. }
  destruct Hproj as (H1 & H2 & H3 & H4 & H5).
  assert (Hc : currentSeg w' = Some (withStatus Recording g)).
  { unfold currentSeg. rewrite H3, H4, list_lookup_alter_eq.
    unfold currentSeg in Hg. by rewrite Hg. }
  assert (Hcan : canRecord w' = false) by (unfold canRecord; by rewrite Hc).
  split_and!; try done.
  - by rewrite H1.
  - by rewrite H1.
  - by rewrite H2.
  - unfold step. cbn [handle]. unfold handleTouchStart. rewrite Hc. cbn.
    by apply autoStopEffect_same.
  - unfold step. cbn [handle]. unfold handleTouchEnd. rewrite H5, H1. cbn.
    by apply autoStopEffect_same.
  - unfold step. cbn [handle]. unfold handleManualStop. rewrite H1. cbn.
    by apply autoStopEffect_same.
  - unfold manualStopControlRendered. by rewrite Hcan.
  - unfold nextControlRendered. by rewrite Hcan, Hc.
  - unfold reRecordControlRendered. by rewrite Hcan, Hc.
  - unfold retryUploadControlRendered. by rewrite Hcan, Hc.
  - unfold canProceed. by apply (forallb_lookup_false _ _ _ _ Hc).
Qed.

Lemma rejected_start_strands_segment_witness :
  currentSeg initialWorld = Some (pendingSegment 0)
  /\ currentSeg (step (MediaSettles (MediaRejected (DOMException "NotAllowedError")))
                  (holdCallback 0 initialWorld))
     = Some (mkSegment 0 Recording None None None 0 None).
Proof.
  assert (H1 : currentSeg initialWorld = Some (pendingSegment 0)) by reflexivity.
  split; [exact H1|].
  exact (proj1 (rejected_start_strands_segment initialWorld (pendingSegment 0)
                  (DOMException "NotAllowedError") H1 eq_refl)).
Defined.

(** The ids of the segments, whatever has happened since the first
    render. *)
Lemma reachable_ids (evs : list Event) :
  id <$> segments (orch (run evs initialWorld)) = [0; 1; 2].
Proof.
  rewrite <- runActs_events.
  pose proof (evolves_runActs _ _ _ _ (trivial_inv _) retry_grows_evolving initialWorld
                (Ev <$> evs) initialWorld (all_actions_permitted _)) as H.
  destruct H as (_ & H & _).
  { apply evolves_start; [done|]. apply Forall2_same. intros; split; [done|lia]. }
  change [0; 1; 2] with (id <$> segments (orch initialWorld)).
  induction H as [|g g' l l' [Hg _] _ IH]; [done|]. cbn. by rewrite Hg, IH.
Qed.

Lemma forallb_Forall_uploaded (l : list Segment) :
  forallb (fun g => bool_decide (status g = Uploaded)) l = true ->
  Forall (fun g => status g = Uploaded) l.
Proof.
  induction l as [|g l IH]; cbn; [constructor|].
  intros [Hg Hl]%andb_true_iff. constructor; [by apply bool_decide_eq_true in Hg|auto].
Qed.

(** X12 -- [handleComplete] in a reachable world, when successful uploads
    deliver a URL.  The button that calls it is rendered exactly when its
    guard holds, so a click on it never ends in the alert.  [onComplete]
    then receives the three segments as they are, with ids 0, 1, 2 in
    this order, each uploaded and with its remote URL.  When the guard
    fails the handler only alerts.  The segments are not changed. *)
Theorem complete_hands_over_three_uploaded_segments (evs : list Event) :
  Forall carriesUrl evs ->
  canProceed (run evs initialWorld) = allUploaded (run evs initialWorld)
  /\ (allUploaded (run evs initialWorld) = true ->
      step ClickComplete (run evs initialWorld)
      = emit (CmdComplete (segments (orch (run evs initialWorld)))) (run evs initialWorld)
      /\ id <$> segments (orch (run evs initialWorld)) = [0; 1; 2]
      /\ Forall (fun g => status g = Uploaded /\ is_Some (uploadUrl g))
           (segments (orch (run evs initialWorld))))
  /\ (allUploaded (run evs initialWorld) = false ->
      step ClickComplete (run evs initialWorld)
      = alert msgWaitForUploads (run evs initialWorld))
  /\ segments (orch (step ClickComplete (run evs initialWorld)))
     = segments (orch (run evs initialWorld)).
Proof.
  intros Hev. set (w := run evs initialWorld).
  assert (Hstep : step ClickComplete w = handleComplete w).
  { unfold step. cbn [handle]. apply autoStopEffect_same; unfold handleComplete;
      by destruct (allUploaded w). }
  split; [done|]. rewrite Hstep. unfold handleComplete. split_and!.
  - intros Ha. rewrite Ha. split; [done|]. split; [apply reachable_ids|].
    assert (H : keeps is_Some initialWorld w).
    { apply keeps_run; [exact Hev|apply keeps_refl]. }
    destruct H as (_ & _ & HS & _).
    specialize (HS _ stable_uploaded_has_url).
    assert (H0 : Forall (fun g => status g = Uploaded -> is_Some (uploadUrl g))
                   (segments (orch initialWorld))) by (repeat constructor; discriminate).
    specialize (HS H0). apply forallb_Forall_uploaded in Ha.
    rewrite Forall_forall in *. intros g Hg. split; [by apply Ha|]. apply HS; [done|by apply Ha].
  - by intros ->.
  - by destruct (allUploaded w).
Qed.

(** The theorem after the three segments have been recorded and
    uploaded. *)
Lemma complete_hands_over_witness :
  Forall carriesUrl fullRun
  /\ allUploaded (run fullRun initialWorld) = true
  /\ log (step ClickComplete (run fullRun initialWorld))
     = CmdComplete (segments (orch (run fullRun initialWorld)))
         :: log (run fullRun initialWorld).
Proof.
  assert (H : Forall carriesUrl fullRun).
  { unfold fullRun, recordAndUpload. cbn [app].
    repeat (constructor; [cbn; try done; intros _; by eexists|]). constructor. }
  assert (Ha : allUploaded (run fullRun initialWorld) = true) by (vm_compute; reflexivity).
  split; [exact H|]. split; [exact Ha|].
  destruct (proj1 (proj2 (complete_hands_over_three_uploaded_segments fullRun H)) Ha)
    as [E _].
  rewrite E. reflexivity.
Defined.

(** X13 -- What the recorder card renders for the current segment.  For
    a segment that is pending or in error: the hold button, the stop
    button while the session records, and none of the click controls.
    For an uploaded segment: the re-record control, and the advance
    control before the last position.  For a segment that is recording,
    processing, recorded or uploading: no control at all.  The
    retry-upload control is rendered in no state: it asks for a segment in
    error inside the branch taken when the segment is not in error. *)
Theorem controls_rendered_by_status (w : World) (g : Segment) :
  currentSeg w = Some g ->
  retryUploadControlRendered w = false
  /\ (status g = Pending \/ status g = Error ->
      holdButtonRendered w = true
      /\ manualStopControlRendered w = isRecording (state w)
      /\ nextControlRendered w = false /\ reRecordControlRendered w = false)
  /\ (status g = Uploaded ->
      holdButtonRendered w = false /\ manualStopControlRendered w = false
      /\ reRecordControlRendered w = true
      /\ nextControlRendered w = (currentSegment (orch w) <? 2))
  /\ (status g = Recording \/ status g = Processing \/ status g = Recorded
      \/ status g = Uploading ->
      holdButtonRendered w = false /\ manualStopControlRendered w = false
      /\ nextControlRendered w = false /\ reRecordControlRendered w = false).
Proof.
  intros Hg.
  unfold retryUploadControlRendered, holdButtonRendered, manualStopControlRendered,
    nextControlRendered, reRecordControlRendered, canRecord.
  rewrite Hg. destruct (status g); cbn; split_and!; try done;
    intros; destruct_or?; done.
Qed.

Lemma controls_rendered_by_status_witness :
  currentSeg (recordingAt 5) = Some (mkSegment 0 Recording None None None 0 None)
  /\ holdButtonRendered (recordingAt 5) = false
  /\ manualStopControlRendered (recordingAt 5) = false.
Proof.
  assert (H : currentSeg (recordingAt 5) = Some (mkSegment 0 Recording None None None 0 None))
    by (vm_compute; reflexivity).
  destruct (controls_rendered_by_status _ _ H) as (_ & _ & _ & H4).
  destruct H4 as (H5 & H6 & _); [by left|].
  split; [exact H|]. split; [exact H5|exact H6].
Defined.

(** X14 -- A stop whose RecordRTC callback delivers a payload, awaited by
    [handleAutoStop] or by [handleTouchEnd] for position [idx].  The
    upload client is called twice for that position: first with the
    MIME-corrected blob, then with the blob as delivered; both calls stay
    in flight.  The segment is left uploading with the blob as delivered
    and the third of the three object URLs created on the way; the first
    is the hook's [audioUrl], the second is stored nowhere.  The session
    is out of recording. *)
Theorem completed_stop_uploads_twice (w : World) (k idx : nat) (b : Blob) (g : Segment)
    (waiter : StopWaiter) :
  pendingStops (pend w) !! k = Some waiter ->
  waiter = WaitAutoStop idx \/ waiter = WaitManualStop idx ->
  is_Some (recorderRef (refs w)) ->
  segments (orch w) !! idx = Some g ->
  let w' := step (StopCompletes k (Some b)) w in
  log w' = CmdUpload b idx :: CmdUpload (correctedBlob b) idx :: log w
  /\ inflight (pend w') = inflight (pend w) ++ [(correctedBlob b, idx); (b, idx)]
  /\ pendingStops (pend w') = delete k (pendingStops (pend w))
  /\ segments (orch w') !! idx
     = Some (mkSegment (id g) Uploading (Some b) (Some (2 + nextId (browser w)))
               (uploadUrl g) (retryCount g) (errorMsg g))
  /\ objectUrls (browser w')
     = objectUrls (browser w)
         ++ [nextId (browser w); 1 + nextId (browser w); 2 + nextId (browser w)]
  /\ audioUrl (state w') = Some (nextId (browser w))
  /\ audioBlob (state w') = Some b
  /\ isRecording (state w') = false.
Proof.
  intros Hk Hw [r Hr] Hg w'.
  assert (E : w' = stopRecording_settled k (Some b) w
              /\ isRecording (state (stopRecording_settled k (Some b) w)) = false).
  { assert (Hi : isRecording (state (stopRecording_settled k (Some b) w)) = false).
    { unfold stopRecording_settled. rewrite Hk. clear -Hw Hr.
      destruct_world w. cbn in *. subst rr.
      destruct Hw as [-> | ->]; destruct sr; reflexivity. }
    split; [|exact Hi]. unfold w', step. cbn [handle]. apply autoStopEffect_below. by left. }
  destruct E as [-> Hi]. split_and!; try exact Hi.
  all: unfold stopRecording_settled; rewrite Hk; clear Hi Hk.
  all: destruct_world w; cbn in *; subst rr.
  all: destruct Hw as [-> | ->]; destruct sr; cbn; try reflexivity.
  all: try (by rewrite <- !app_assoc).
  all: by rewrite !list_lookup_alter_eq, Hg.
Qed.

(** The theorem for the release five seconds into the sample recording. *)
Lemma completed_stop_uploads_twice_witness :
  pendingStops (pend (step TouchEnd (recordingAt 5))) !! 0 = Some (WaitManualStop 0)
  /\ log (step (StopCompletes 0 (Some sampleBlob)) (step TouchEnd (recordingAt 5)))
     = CmdUpload sampleBlob 0 :: CmdUpload (correctedBlob sampleBlob) 0
         :: log (step TouchEnd (recordingAt 5)).
Proof.
  assert (H1 : pendingStops (pend (step TouchEnd (recordingAt 5))) !! 0
               = Some (WaitManualStop 0)) by (vm_compute; reflexivity).
  assert (H2 : is_Some (recorderRef (refs (step TouchEnd (recordingAt 5)))))
    by (vm_compute; eauto).
  assert (H3 : segments (orch (step TouchEnd (recordingAt 5))) !! 0
               = Some (mkSegment 0 Processing None None None 0 None))
    by (vm_compute; reflexivity).
  split; [exact H1|].
  exact (proj1 (completed_stop_uploads_twice _ 0 0 sampleBlob _ _ H1 (or_intror eq_refl) H2 H3)).
Defined.

(** X15 -- The MIME correction of the stop handlers keeps the bytes,
    yields a blob that is neither typed [audio/wav] nor untyped, leaves a
    blob of any other type as it is, and corrects nothing twice.  It is
    not applied to what the segment stores: a retry-upload of a segment
    whose stop delivered a blob typed [audio/wav] sends that blob,
    uncorrected. *)
Theorem mime_correction_properties (b : Blob) :
  blob_data (correctedBlob b) = blob_data b
  /\ String.eqb (blob_type (correctedBlob b)) "audio/wav" = false
  /\ String.eqb (blob_type (correctedBlob b)) "" = false
  /\ (String.eqb (blob_type b) "audio/wav" = false -> String.eqb (blob_type b) "" = false ->
      correctedBlob b = b)
  /\ correctedBlob (correctedBlob b) = correctedBlob b
  /\ (forall w g, currentSeg w = Some g -> blob g = Some b -> retryCount g < MAX_RETRIES ->
        log (handleRetryUpload w) = CmdUpload b (currentSegment (orch w)) :: log w).
Proof.
  unfold correctedBlob.
  destruct (String.eqb (blob_type b) "audio/wav") eqn:E1;
    destruct (String.eqb (blob_type b) "") eqn:E2; cbn; rewrite ?E1, ?E2; cbn;
    split_and!; try done.
  all: intros w g Hg Hb Hlt; unfold handleRetryUpload; rewrite Hg, Hb;
    apply Nat.leb_gt in Hlt; rewrite Hlt; by destruct_world w.
Qed.

Lemma alter_insert {T} (f : T -> T) (i : nat) (l : list T) (x : T) :
  l !! i = Some x -> alter f i l = <[i := f x]> l.
Proof.
  revert i. induction l as [|y l IH]; intros [|i] H; try done; cbn in *.
  - by injection H as ->.
  - f_equal. by apply IH.
Qed.



(** X17 -- A result that arrives late.  While an upload for the current
    position is in flight the segment is re-recorded ([handleRetry],
    below the cap), and then the upload succeeds: the segment, which was
    reset to pending, becomes uploaded with the URL of the old recording
    and without a payload, and the view offers to advance.  If the upload
    fails instead, the reset segment goes into error with one more
    retry. *)
Theorem late_upload_result_after_rerecord (w : World) (k : nat) (b : Blob)
    (o : UploadOutcome) (g : Segment) :
  currentSeg w = Some g ->
  retryCount g < MAX_RETRIES ->
  inflight (pend w) !! k = Some (b, currentSegment (orch w)) ->
  let w' := run [ClickRetry; UploadSettles k o] w in
  (forall r, o = Resolved r -> success r = true ->
     currentSeg w' = Some (mkSegment (id g) Uploaded None None (truthy (result_url r))
                             (retryCount g) None)
     /\ nextControlRendered w' = (currentSegment (orch w) <? 2)
     /\ reRecordControlRendered w' = true)
  /\ (uploadFails o = true ->
      exists msg, currentSeg w' = Some (mkSegment (id g) Error None None None
                                          (retryCount g + 1) (Some msg))).
Proof.
  intros Hg Hlt Hk w'.
  set (w1 := step ClickRetry w).
  assert (H1 : currentSegment (orch w1) = currentSegment (orch w)
               /\ segments (orch w1)
                  = alter patchReRecord (currentSegment (orch w)) (segments (orch w))
               /\ inflight (pend w1) = inflight (pend w)).
  { unfold w1, step. cbn [handle]. unfold handleRetry. rewrite Hg.
    apply Nat.leb_gt in Hlt. rewrite Hlt.
    rewrite autoStopEffect_below by (left; by rewrite resetRecording_eq).
    rewrite resetRecording_eq. cbn. by destruct (url g). }
  destruct H1 as (Hc & Hs & Hf).
  assert (Hg1 : segments (orch w1) !! currentSegment (orch w) = Some (patchReRecord g)).
  { rewrite Hs, list_lookup_alter_eq. unfold currentSeg in Hg. by rewrite Hg. }
  assert (E : w' = uploadSegment_settled (currentSegment (orch w)) o
                     (setPend (fun p => mkPromises (pendingStarts p) (pendingStops p)
                                           (delete k (inflight p))) w1)).
  { unfold w'. cbn [run]. fold w1. unfold step. cbn [handle]. rewrite Hf, Hk.
    apply autoStopEffect_same; by destruct o as [[[] ? ?]|[?|]]. }
  clearbody w'. subst w'. split.
  - intros r -> Hr.
    assert (Hcur : currentSeg (uploadSegment_settled (currentSegment (orch w)) (Resolved r)
                     (setPend (fun p => mkPromises (pendingStarts p) (pendingStops p)
                                           (delete k (inflight p))) w1))
                   = Some (mkSegment (id g) Uploaded None None
                             (truthy (result_url r)) (retryCount g) None)).
    { unfold currentSeg. cbn. rewrite Hr. cbn.
      by rewrite Hc, list_lookup_alter_eq, Hg1. }
    split; [exact Hcur|].
    unfold nextControlRendered, reRecordControlRendered, canRecord. rewrite Hcur. cbn.
    rewrite Hr. cbn. by rewrite Hc.
  - intros Hfail.
    destruct (upload_failure_segment (currentSegment (orch w)) o
                (setPend (fun p => mkPromises (pendingStarts p) (pendingStops p)
                                      (delete k (inflight p))) w1)
                (patchReRecord g) Hfail Hg1) as (msg & Hm & Hcm).
    exists msg. unfold currentSeg. rewrite Hcm. cbn [orch setPend currentSegment].
    by rewrite Hc, Hm.
Qed.

(** The theorem after the sample run: the first of the two uploads of the
    stop has succeeded, the view offers the re-record control, and the
    second upload is still in flight. *)
Lemma late_upload_result_after_rerecord_witness :
  reRecordControlRendered (run sampleRun initialWorld) = true
  /\ inflight (pend (run sampleRun initialWorld)) !! 0 = Some (sampleBlob, 0)
  /\ currentSeg (run [ClickRetry; UploadSettles 0 uploadSuccess] (run sampleRun initialWorld))
     = Some (mkSegment 0 Uploaded None None
               (Some "https://cos.example/audio/segment_0.webm") 0 None).
Proof.
  assert (H0 : reRecordControlRendered (run sampleRun initialWorld) = true)
    by (vm_compute; reflexivity).
  assert (H1 : currentSeg (run sampleRun initialWorld) = Some uploadedSegment)
    by (vm_compute; reflexivity).
  assert (H2 : retryCount uploadedSegment < MAX_RETRIES) by (vm_compute; lia).
  assert (H3 : inflight (pend (run sampleRun initialWorld)) !! 0
               = Some (sampleBlob, currentSegment (orch (run sampleRun initialWorld))))
    by (vm_compute; reflexivity).
  split; [exact H0|]. split; [exact H3|].
  exact (proj1 (proj1 (late_upload_result_after_rerecord _ 0 sampleBlob uploadSuccess
                         uploadedSegment H1 H2 H3) _ eq_refl eq_refl)).
Defined.

(** ** The countdown *)

Lemma padStart2_pretty (n : nat) :
  n < 100 ->
  padStart2 (pretty (Z.of_nat n)) = String (digit (n / 10)) (String (digit (n mod 10)) EmptyString).
Proof.
  intros Hn.
  assert (H : forallb (fun k => String.eqb (padStart2 (pretty (Z.of_nat k)))
                          (String (digit (k / 10)) (String (digit (k mod 10)) EmptyString)))
                (seq 0 100) = true) by (vm_compute; reflexivity).
  rewrite forallb_forall in H. apply String.eqb_eq, H, in_seq. lia.
Qed.

Lemma digit_inj (a b : nat) : a < 10 -> b < 10 -> digit a = digit b -> a = b.
Proof.
  intros Ha Hb H. apply pretty_N_char_inj in H; lia.
Qed.

Lemma two_digits_inj (a b : nat) :
  a < 100 -> b < 100 -> digit (a / 10) = digit (b / 10) -> digit (a mod 10) = digit (b mod 10) ->
  a = b.
Proof.
  intros Ha Hb H1 H2.
  apply digit_inj in H1; [|apply Nat.Div0.div_lt_upper_bound; lia..].
  apply digit_inj in H2; [|apply Nat.mod_upper_bound; lia..].
  rewrite (Nat.div_mod_eq a 10), (Nat.div_mod_eq b 10). lia.
Qed.

Lemma formatTime_nat (n : nat) :
  n < 100 * 60 -> formatTime (Z.of_nat n) = clockFace (n / 60) (n mod 60).
Proof.
  intros Hn. unfold formatTime. cbv zeta.
  change 60%Z with (Z.of_nat 60). rewrite Z.rem_mod_nonneg by lia. rewrite <- Nat2Z.inj_div, <- Nat2Z.inj_mod.
  rewrite !padStart2_pretty; [done|..].
  - pose proof (Nat.mod_upper_bound n 60). lia.
  - apply Nat.Div0.div_lt_upper_bound. lia.
Qed.

(** X18 -- [formatTime] on a whole number of seconds below 100 minutes:
    the text is two digits of minutes, a colon and two digits of seconds,
    five characters, and different times give different texts.  The
    countdown of a recording session that has not passed the limit is
    such a text for the seconds that remain. *)
Theorem format_time_is_a_clock_face (n : nat) :
  n < 100 * 60 ->
  formatTime (Z.of_nat n) = clockFace (n / 60) (n mod 60)
  /\ String.length (formatTime (Z.of_nat n)) = 5
  /\ (forall m, m < 100 * 60 -> formatTime (Z.of_nat m) = formatTime (Z.of_nat n) -> m = n)
  /\ (forall w, isRecording (state w) = true ->
        recordingTime (state w) = SEGMENT_DURATION - n -> n <= SEGMENT_DURATION ->
        countdown w = Some (clockFace (n / 60) (n mod 60))).
Proof.
  intros Hn. split; [by apply formatTime_nat|]. split; [by rewrite formatTime_nat|]. split.
  - intros m Hm. rewrite !formatTime_nat by done. unfold clockFace. intros [= H1 H2 H3 H4].
    assert (Hq : m / 60 = n / 60).
    { apply two_digits_inj; try done; apply Nat.Div0.div_lt_upper_bound; lia. }
    assert (Hr : m mod 60 = n mod 60).
    { pose proof (Nat.mod_upper_bound m 60). pose proof (Nat.mod_upper_bound n 60).
      apply two_digits_inj; try done; lia. }
    rewrite (Nat.div_mod_eq m 60), (Nat.div_mod_eq n 60). lia.
  - intros w Hr Ht Hle. unfold countdown. rewrite Hr, Ht.
    replace (Z.of_nat SEGMENT_DURATION - Z.of_nat (SEGMENT_DURATION - n))%Z with (Z.of_nat n)
      by lia.
    by rewrite formatTime_nat.
Qed.

Lemma format_time_witness :
  formatTime 59 = "00:59"
  /\ countdown (recordingAt 5) = Some "00:55".
Proof.
  assert (H1 : 59 < 100 * 60) by lia.
  assert (H2 : 55 < 100 * 60) by lia.
  split.
  - exact (proj1 (format_time_is_a_clock_face 59 H1)).
  - refine (proj2 (proj2 (proj2 (format_time_is_a_clock_face 55 H2))) (recordingAt 5) _ _ _).
    + vm_compute. reflexivity.
    + vm_compute. reflexivity.
    + unfold SEGMENT_DURATION. lia.
Defined.

(** ** Re-recording *)

Lemma not_elem_of_filter_ne (x : nat) (l : list nat) : x ∉ filter (fun v => v <> x) l.
Proof. intros H. apply list_elem_of_filter in H as [H _]. by apply H. Qed.

Lemma withoutHandle_keeps_gone (o : option nat) (h : nat) (l : list nat) :
  h ∉ l -> h ∉ withoutHandle o l.
Proof.
  destruct o; cbn; [|done]. intros Hn Hin. apply list_elem_of_filter in Hin as [_ Hin]. auto.
Qed.

(** X19 -- A re-record request below the cap: the current segment goes
    back to pending without payload, preview URL, remote URL and error
    message, and keeps its id and its retry count; its preview URL is
    revoked; the session is reset to its initial state; the view renders
    the hold button again.  Uploads of the old recording that are in
    flight stay in flight. *)
Theorem rerecord_below_cap_resets_segment (w : World) (g : Segment) :
  currentSeg w = Some g ->
  retryCount g < MAX_RETRIES ->
  let w' := step ClickRetry w in
  segments (orch w')
  = <[currentSegment (orch w) := mkSegment (id g) Pending None None None (retryCount g) None]>
      (segments (orch w))
  /\ currentSegment (orch w') = currentSegment (orch w)
  /\ (forall u, url g = Some u -> u ∉ objectUrls (browser w'))
  /\ state w' = initialRecorderState
  /\ refs w' = initialRefs
  /\ log w' = CmdReset :: log w
  /\ pend w' = pend w
  /\ holdButtonRendered w' = true.
Proof.
  intros Hg Hlt w'.
  assert (E : w' = resetRecording (emit CmdReset
                     (setSegment (currentSegment (orch w)) patchReRecord
                        match url g with
                        | Some u => revokeObjectURL u w
                        | None => w
                        end))).
  { unfold w', step. cbn [handle]. unfold handleRetry. rewrite Hg.
    apply Nat.leb_gt in Hlt. rewrite Hlt.
    apply autoStopEffect_below. left. by rewrite resetRecording_eq. }
  clearbody w'. subst w'. rewrite resetRecording_eq.
  assert (Hs : segments (orch w) !! currentSegment (orch w) = Some g) by exact Hg.
  split_and!.
  - cbn. destruct (url g); cbn; by rewrite (alter_insert _ _ _ _ Hs).
  - by destruct (url g).
  - intros u ->. cbn. apply withoutHandle_keeps_gone. apply not_elem_of_filter_ne.
  - done.
  - done.
  - by destruct (url g).
  - by destruct (url g).
  - unfold holdButtonRendered, canRecord, currentSeg. cbn.
    destruct (url g); cbn; by rewrite list_lookup_alter_eq, Hs.
Qed.

Lemma rerecord_below_cap_witness :
  currentSeg oneFailureWorld = Some failedOnceSegment
  /\ segments (orch (step ClickRetry oneFailureWorld)) !! 0
     = Some (mkSegment 0 Pending None None None 1 None).
Proof.
  assert (H1 : currentSeg oneFailureWorld = Some failedOnceSegment) by (vm_compute; reflexivity).
  assert (H2 : retryCount failedOnceSegment < MAX_RETRIES) by (vm_compute; lia).
  split; [exact H1|].
  rewrite (proj1 (rerecord_below_cap_resets_segment oneFailureWorld failedOnceSegment H1 H2)).
  vm_compute. reflexivity.
Defined.

(** ** The upload client and the orchestrator *)

(** X20 -- [uploadSegment] with the upload client of the repository.  The
    promise of [uploadAudioSegment] always resolves.  The segment becomes
    uploaded exactly when the response is [ok] and its body is parsed
    and not [null]; its remote URL is the [url] member of the body, and
    is missing when the body has none or an empty one.  In every other
    case the segment goes into error, its retry count grows by one, and
    its error message is not empty: the message of the error caught, or
    the default one for a response that is not [ok], for an error without
    message and for a thrown value that is no [Error]. *)
Theorem backend_upload_outcome (w : World) (k idx : nat) (b : Blob) (g : Segment)
    (o : BackendOutcome) :
  inflight (pend w) !! k = Some (b, idx) ->
  segments (orch w) !! idx = Some g ->
  (forall u, o = JsonParsed (BodyValue u) ->
     segments (orch (step (UploadSettles k (uploadAudioSegment o)) w)) !! idx
     = Some (mkSegment (id g) Uploaded (blob g) (url g) (truthy u) (retryCount g) (errorMsg g)))
  /\ ((forall u, o <> JsonParsed (BodyValue u)) ->
      exists m,
        segments (orch (step (UploadSettles k (uploadAudioSegment o)) w)) !! idx
        = Some (mkSegment (id g) Error (blob g) (url g) (uploadUrl g) (retryCount g + 1)
                  (Some m))
        /\ String.eqb m "" = false
        /\ (o = ResponseNotOk -> m = msgUploadFailed))
  /\ uploadFails (uploadAudioSegment o)
     = match o with JsonParsed (BodyValue _) => false | _ => true end.
Proof.
  intros Hk Hg.
  assert (E : step (UploadSettles k (uploadAudioSegment o)) w
              = uploadSegment_settled idx (uploadAudioSegment o)
                  (setPend (fun p => mkPromises (pendingStarts p) (pendingStops p)
                                        (delete k (inflight p))) w)).
  { unfold step. cbn [handle]. rewrite Hk.
    apply autoStopEffect_same; by destruct o as [[m|]| |[m|]|[m|u]]. }
  rewrite E. split_and!.
  - intros u ->. cbn. by rewrite list_lookup_alter_eq, Hg.
  - intros Hne.
    assert (Hm : forall m, String.eqb m "" = false -> orElse (Some m) msgUploadFailed = m).
    { intros m Hm. unfold orElse, truthy. by destruct m. }
    assert (Hd : String.eqb msgUploadFailed "" = false) by reflexivity.
    assert (Hc : forall e, exists m,
               segments (orch (uploadSegment_settled idx (Resolved (uploadCaught e))
                   (setPend (fun p => mkPromises (pendingStarts p) (pendingStops p)
                                          (delete k (inflight p))) w))) !! idx
               = Some (mkSegment (id g) Error (blob g) (url g) (uploadUrl g)
                         (retryCount g + 1) (Some m))
               /\ String.eqb m "" = false
               /\ (e = ThrownError msgUploadFailed -> m = msgUploadFailed)).
    { intros e. exists (orElse (result_error (uploadCaught e)) msgUploadFailed).
      split; [cbn; by rewrite list_lookup_alter_eq, Hg|].
      destruct e as [m|]; cbn; [|done].
      destruct (String.eqb m "") eqn:Em.
      - apply String.eqb_eq in Em as ->. split; [done|]. by intros [=].
      - rewrite (Hm m Em). split; [done|]. by intros [= ->]. }
    destruct o as [e| |e|[m|u]]; unfold uploadAudioSegment, uploadViaBackend.
    + destruct (Hc e) as (m & H1 & H2 & _). exists m. by split_and!.
    + destruct (Hc (ThrownError msgUploadFailed)) as (m & H1 & H2 & H3). exists m.
      split_and!; [done|done|]. intros _. by apply H3.
    + destruct (Hc e) as (m & H1 & H2 & _). exists m. by split_and!.
    + destruct (Hc (ThrownError m)) as (m' & H1 & H2 & _). exists m'. by split_and!.
    + by destruct (Hne u).
  - by destruct o as [[m|]| |[m|]|[m|u]].
Qed.

(** The theorem for a response that is not [ok], and for a body without
    [url], in the sample world with two uploads in flight. *)
Lemma backend_upload_outcome_witness :
  inflight (pend uploadingWorld) !! 0 = Some (sampleBlob, 0)
  /\ segments (orch (step (UploadSettles 0 (uploadAudioSegment (JsonParsed (BodyValue None))))
                       uploadingWorld)) !! 0
     = Some (mkSegment 0 Uploaded (Some sampleBlob) (Some 8) None 0 None).
Proof.
  assert (H1 : inflight (pend uploadingWorld) !! 0 = Some (sampleBlob, 0))
    by (vm_compute; reflexivity).
  assert (H2 : segments (orch uploadingWorld) !! 0 = Some uploadingSegment)
    by (vm_compute; reflexivity).
  split; [exact H1|].
  exact (proj1 (backend_upload_outcome uploadingWorld 0 0 sampleBlob uploadingSegment
                  (JsonParsed (BodyValue None)) H1 H2) None eq_refl).
Defined.

(** ** The order form *)

Lemma removeNonDigits_allDigits (v : string) :
  VerifyForm.allDigits (VerifyForm.removeNonDigits v) = true.
Proof.
  induction v as [|c r IH]; [done|]. cbn.
  destruct (VerifyForm.isDigit c) eqn:E; [|done]. cbn. by rewrite E.
Qed.

Lemma removeNonDigits_id (v : string) :
  VerifyForm.allDigits v = true -> VerifyForm.removeNonDigits v = v.
Proof.
  induction v as [|c r IH]; [done|]. cbn. intros [Hc Hr]%andb_true_iff.
  by rewrite Hc, IH.
Qed.

Lemma slice_allDigits (n : nat) (v : string) :
  VerifyForm.allDigits v = true -> VerifyForm.allDigits (VerifyForm.slice n v) = true.
Proof.
  unfold VerifyForm.slice. revert n. induction v as [|c r IH]; intros [|n]; try done.
  cbn. intros [Hc Hr]%andb_true_iff. by rewrite Hc, IH.
Qed.

Lemma slice_length (n : nat) (v : string) :
  String.length (VerifyForm.slice n v) = Nat.min n (String.length v).
Proof.
  unfold VerifyForm.slice. revert n. induction v as [|c r IH]; intros [|n]; try done.
  cbn. by rewrite IH.
Qed.

Lemma slice_id (n : nat) (v : string) :
  String.length v <= n -> VerifyForm.slice n v = v.
Proof.
  unfold VerifyForm.slice. revert n. induction v as [|c r IH]; intros [|n]; cbn; try done.
  - lia.
  - intros H. rewrite IH; [done|lia].
Qed.

(** What one input keeps of the text typed into it, for a field of [n]
    digits. *)
Lemma sanitized_field (n : nat) (v : string) :
  VerifyForm.allDigits (VerifyForm.slice n (VerifyForm.removeNonDigits v)) = true
  /\ String.length (VerifyForm.slice n (VerifyForm.removeNonDigits v))
     = Nat.min n (VerifyForm.digitCount v)
  /\ VerifyForm.slice n (VerifyForm.removeNonDigits
       (VerifyForm.slice n (VerifyForm.removeNonDigits v)))
     = VerifyForm.slice n (VerifyForm.removeNonDigits v)
  /\ (String.length v = n -> VerifyForm.allDigits v = true ->
      VerifyForm.slice n (VerifyForm.removeNonDigits v) = v).
Proof.
  assert (Hd := removeNonDigits_allDigits v).
  split; [by apply slice_allDigits|]. split; [apply slice_length|]. split.
  - rewrite (removeNonDigits_id (VerifyForm.slice n _)) by (by apply slice_allDigits).
    apply slice_id. rewrite slice_length. lia.
  - intros Hl Ha. rewrite (removeNonDigits_id v Ha). apply slice_id. lia.
Qed.

(** X21 -- The two inputs of the form keep only digits: whatever is
    typed or pasted, the order number holds the first 16 digits of the
    text and the tail the first 4, so the stored value passes the format
    check exactly when the text holds that many digits; a value that
    passes the check is stored as it is, and sanitising a stored value
    again changes nothing.  The other cells of the form are not
    touched. *)
Theorem inputs_keep_digits_only (v : string) (f : VerifyForm.Form) :
  (VerifyForm.allDigits (VerifyForm.orderSn (VerifyForm.onOrderSnChange v f)) = true
   /\ String.length (VerifyForm.orderSn (VerifyForm.onOrderSnChange v f))
      = Nat.min 16 (VerifyForm.digitCount v)
   /\ (VerifyForm.isValidOrderSn (VerifyForm.orderSn (VerifyForm.onOrderSnChange v f)) = true
       <-> 16 <= VerifyForm.digitCount v)
   /\ (VerifyForm.isValidOrderSn v = true ->
       VerifyForm.orderSn (VerifyForm.onOrderSnChange v f) = v)
   /\ VerifyForm.onOrderSnChange (VerifyForm.orderSn (VerifyForm.onOrderSnChange v f))
        (VerifyForm.onOrderSnChange v f)
      = VerifyForm.onOrderSnChange v f
   /\ VerifyForm.onOrderSnChange v f
      = VerifyForm.setOrderSn (VerifyForm.orderSn (VerifyForm.onOrderSnChange v f)) f)
  /\ (VerifyForm.allDigits (VerifyForm.mobileTail (VerifyForm.onMobileTailChange v f)) = true
      /\ String.length (VerifyForm.mobileTail (VerifyForm.onMobileTailChange v f))
         = Nat.min 4 (VerifyForm.digitCount v)
      /\ (VerifyForm.isValidMobileTail
            (VerifyForm.mobileTail (VerifyForm.onMobileTailChange v f)) = true
          <-> 4 <= VerifyForm.digitCount v)
      /\ (VerifyForm.isValidMobileTail v = true ->
          VerifyForm.mobileTail (VerifyForm.onMobileTailChange v f) = v)
      /\ VerifyForm.onMobileTailChange
           (VerifyForm.mobileTail (VerifyForm.onMobileTailChange v f))
           (VerifyForm.onMobileTailChange v f)
         = VerifyForm.onMobileTailChange v f
      /\ VerifyForm.onMobileTailChange v f
         = VerifyForm.setMobileTail
             (VerifyForm.mobileTail (VerifyForm.onMobileTailChange v f)) f).
Proof.
  destruct (sanitized_field 16 v) as (A1 & L1 & I1 & P1).
  destruct (sanitized_field 4 v) as (A2 & L2 & I2 & P2).
  unfold VerifyForm.onOrderSnChange, VerifyForm.onMobileTailChange,
    VerifyForm.isValidOrderSn, VerifyForm.isValidMobileTail.
  cbn [VerifyForm.orderSn VerifyForm.mobileTail VerifyForm.setOrderSn VerifyForm.setMobileTail].
  split; split_and!; try done.
  - rewrite A1, L1, andb_true_r, Nat.eqb_eq. lia.
  - intros [Hl%Nat.eqb_eq Ha]%andb_true_iff. by apply P1.
  - unfold VerifyForm.setOrderSn. cbn. by rewrite I1.
  - rewrite A2, L2, andb_true_r, Nat.eqb_eq. lia.
  - intros [Hl%Nat.eqb_eq Ha]%andb_true_iff. by apply P2.
  - unfold VerifyForm.setMobileTail. cbn. by rewrite I2.
Qed.

Lemma truthy_not_empty (s : option string) (t : string) :
  truthy s = Some t -> String.eqb t "" = false.
Proof. destruct s as [[|c r]|]; cbn; intros [= <-]; done. Qed.

Lemma formInvariant_step (e : VerifyForm.Event) (f : VerifyForm.Form) :
  formInvariant f -> formInvariant (VerifyForm.step e f).
Proof.
  intros (Hc & Hr & Ht). destruct e as [v|v| |k o|k]; cbn.
  - done.
  - done.
  - unfold VerifyForm.handleSubmit. cbn.
    destruct (VerifyForm.isValidOrderSn (VerifyForm.orderSn f)) eqn:E1; cbn; [|done].
    destruct (VerifyForm.isValidMobileTail (VerifyForm.mobileTail f)) eqn:E2; cbn; [|done].
    split_and!; cbn; [by rewrite E1, E2|by apply Forall_app; split; [|repeat constructor]|done].
  - destruct (VerifyForm.requests f !! k) as [[sn tail]|] eqn:Ek; [|done].
    pose proof (Forall_lookup_1 _ _ _ _ Hr Ek) as [Hsn Htail]. cbn in Hsn, Htail.
    unfold VerifyForm.handleSubmit_settled.
    destruct o as [data|]; [destruct (VerifyForm.verifiedTaskId data) as [t|] eqn:Et|]; cbn.
    + split_and!; [done|by apply Forall_delete|].
      apply Forall_app. split; [done|]. repeat constructor; cbn; try done.
      unfold VerifyForm.verifiedTaskId in Et. destruct (VerifyForm.success data); [|done].
      destruct (truthy (VerifyForm.taskId data)) eqn:E1.
      * injection Et as <-. by eapply truthy_not_empty.
      * by eapply truthy_not_empty.
    + split_and!; [done|by apply Forall_delete|done].
    + split_and!; [done|by apply Forall_delete|done].
  - destruct (VerifyForm.timers f !! k) as [[t [sn tail]]|] eqn:Ek; [|done].
    pose proof (Forall_lookup_1 _ _ _ _ Ht Ek) as (H1 & H2 & H3). cbn in H1, H2, H3.
    split_and!; cbn; [by rewrite H1, H2, H3|done|by apply Forall_delete].
Qed.

(** X22 -- Whatever the user types, however often the form is submitted
    and however the requests end, and whatever the page's URL put into
    the order number: every request sent to [/api/verify] carries an
    order number of 16 digits and a tail of 4 digits, and every call of
    [onVerified] carries a task id that is not empty together with the
    pair of the request it answers. *)
Theorem form_sends_only_checked_values (order_sn : option string)
    (evs : list VerifyForm.Event) :
  forallb VerifyForm.wellFormed
    (VerifyForm.calls (VerifyForm.run evs (VerifyForm.mount order_sn))) = true.
Proof.
  assert (H : forall f, formInvariant f -> formInvariant (VerifyForm.run evs f)).
  { induction evs as [|e evs IH]; intros f Hf; [done|]. cbn. by apply IH, formInvariant_step. }
  apply H. unfold VerifyForm.mount. destruct (truthy order_sn); by split_and!.
Qed.

(** ** The player *)

(** X23 -- The cursor of the player, for a cursor inside the segments
    and no auto-advance pending.  A click on a segment button moves the
    cursor to that segment.  When the audio ends and nothing else happens
    before the 500 ms timer fires, the cursor moves to the next segment,
    or stays at the last one: it stays inside the segments.  But the timer
    adds one to whatever the cursor is by then: after a click on the last
    segment in between, the cursor is past the segments, there is no
    current URL, and the play and download buttons are disabled. *)
Theorem player_cursor_and_auto_advance (segments : list Player.Segment) (s : Player.State) :
  Player.currentSegment s < length segments ->
  Player.advanceTimers s = 0 ->
  (forall i, i < length segments ->
     Player.currentSegment (Player.step segments (Player.ClickSegment i) s) = i)
  /\ Player.currentSegment
       (Player.run segments [Player.AudioEnded; Player.AdvanceTimerFires] s)
     = (if Player.currentSegment s + 1 <? length segments
        then Player.currentSegment s + 1 else Player.currentSegment s)
  /\ Player.currentSegment
       (Player.run segments [Player.AudioEnded; Player.AdvanceTimerFires] s)
     < length segments
  /\ (Player.currentSegment s + 1 < length segments ->
      Player.currentSegment
        (Player.run segments
           [Player.AudioEnded; Player.ClickSegment (length segments - 1);
            Player.AdvanceTimerFires] s)
      = length segments
      /\ Player.currentUrl segments
           (Player.run segments
              [Player.AudioEnded; Player.ClickSegment (length segments - 1);
               Player.AdvanceTimerFires] s)
         = None
      /\ Player.controlsDisabled segments
           (Player.run segments
              [Player.AudioEnded; Player.ClickSegment (length segments - 1);
               Player.AdvanceTimerFires] s)
         = true).
Proof.
  intros Hc Ht. split_and!.
  - intros i Hi. cbn [Player.step]. apply Nat.ltb_lt in Hi. rewrite Hi.
    unfold Player.handleSegmentChange.
    destruct (Nat.eqb_spec i (Player.currentSegment s)); [done|done].
  - cbn [Player.run Player.step]. unfold Player.handleEnded.
    destruct (Player.currentSegment s + 1 <? length segments);
      cbn [Player.advanceTimers Player.currentSegment]; [done|by rewrite Ht].
  - cbn [Player.run Player.step]. unfold Player.handleEnded.
    destruct (Nat.ltb_spec (Player.currentSegment s + 1) (length segments));
      cbn [Player.advanceTimers Player.currentSegment]; [lia|by rewrite Ht].
  - intros Hlt.
    assert (E : Player.run segments
                  [Player.AudioEnded; Player.ClickSegment (length segments - 1);
                   Player.AdvanceTimerFires] s
                = Player.mkState (length segments) false 0%Q (Player.duration s) 0
                    (S (Player.playTimers s))).
    { cbn [Player.run Player.step]. unfold Player.handleEnded.
      destruct (Nat.ltb_spec (Player.currentSegment s + 1) (length segments)); [|lia].
      destruct (Nat.ltb_spec (length segments - 1) (length segments)); [|lia].
      unfold Player.handleSegmentChange. cbn [Player.currentSegment].
      destruct (Nat.eqb_spec (length segments - 1) (Player.currentSegment s)); [lia|].
      cbn [Player.advanceTimers Player.currentSegment Player.isPlaying Player.progress
           Player.duration Player.playTimers]. rewrite Ht. f_equal; lia. }
    rewrite E. unfold Player.controlsDisabled, Player.currentUrl.
    cbn [Player.currentSegment]. rewrite lookup_ge_None_2 by lia. done.
Qed.

(** The theorem for three segments and the cursor on the second one. *)
Lemma player_cursor_witness :
  Player.currentSegment Player.onSecondSegment = 1
  /\ Player.currentSegment
       (Player.run Player.sampleSegments
          [Player.AudioEnded; Player.ClickSegment 2; Player.AdvanceTimerFires]
          Player.onSecondSegment)
     = 3.
Proof.
  assert (H1 : Player.currentSegment Player.onSecondSegment < length Player.sampleSegments)
    by (cbn; lia).
  assert (H2 : Player.advanceTimers Player.onSecondSegment = 0) by reflexivity.
  assert (H3 : Player.currentSegment Player.onSecondSegment + 1 < length Player.sampleSegments)
    by (cbn; lia).
  split; [reflexivity|].
  exact (proj1 (proj2 (proj2 (proj2
    (player_cursor_and_auto_advance Player.sampleSegments Player.onSecondSegment H1 H2))) H3)).
Defined.

(** ** The service worker *)

Lemma cacheNamed_openWith (name : string) (f : ServiceWorker.Cache -> ServiceWorker.Cache)
    (cs : ServiceWorker.CacheStorage) :
  ServiceWorker.cacheNamed name (ServiceWorker.openWith name f cs)
  = Some (f (default [] (ServiceWorker.cacheNamed name cs))).
Proof.
  induction cs as [|[n c] cs IH]; cbn.
  - by rewrite String.eqb_refl.
  - destruct (String.eqb n name) eqn:E; cbn; rewrite E; [done|exact IH].
Qed.

Lemma cacheNamed_openWith_other (name name' : string)
    (f : ServiceWorker.Cache -> ServiceWorker.Cache) (cs : ServiceWorker.CacheStorage) :
  String.eqb name' name = false ->
  ServiceWorker.cacheNamed name' (ServiceWorker.openWith name f cs)
  = ServiceWorker.cacheNamed name' cs.
Proof.
  intros Hne. induction cs as [|[n c] cs IH]; cbn.
  - rewrite String.eqb_sym. by rewrite Hne.
  - destruct (String.eqb n name) eqn:E; cbn; [|by rewrite IH].
    apply String.eqb_eq in E as ->. rewrite String.eqb_sym. by rewrite Hne.
Qed.

Lemma cacheNamed_filter (cs : ServiceWorker.CacheStorage) :
  ServiceWorker.cacheNamed ServiceWorker.CACHE_NAME
    (filter (fun p => fst p = ServiceWorker.CACHE_NAME) cs)
  = ServiceWorker.cacheNamed ServiceWorker.CACHE_NAME cs.
Proof.
  induction cs as [|[n c] cs IH]; [done|]. rewrite filter_cons. cbn.
  case_decide as Hd; cbn in *.
  - subst n. by rewrite !String.eqb_refl.
  - apply String.eqb_neq in Hd. by rewrite Hd.
Qed.

Lemma cachePut_cacheable (self : string) (u : ServiceWorker.Url) (r : ServiceWorker.Response)
    (c : ServiceWorker.Cache) :
  ServiceWorker.cacheable self (u, r) -> Forall (ServiceWorker.cacheable self) c ->
  Forall (ServiceWorker.cacheable self) (ServiceWorker.cachePut u r c).
Proof.
  intros Hu Hc. apply Forall_app. split; [by apply Forall_filter_keep|].
  constructor; [done|constructor].
Qed.

Lemma cleanCaches_openWith (self : string) (f : ServiceWorker.Cache -> ServiceWorker.Cache)
    (cs : ServiceWorker.CacheStorage) :
  (forall c, Forall (ServiceWorker.cacheable self) c -> Forall (ServiceWorker.cacheable self) (f c)) ->
  ServiceWorker.cleanCaches self cs ->
  ServiceWorker.cleanCaches self (ServiceWorker.openWith ServiceWorker.CACHE_NAME f cs).
Proof.
  intros Hf Hcs c. rewrite cacheNamed_openWith. intros [= <-]. apply Hf.
  destruct (ServiceWorker.cacheNamed ServiceWorker.CACHE_NAME cs) as [c0|] eqn:E; cbn.
  - by apply Hcs.
  - constructor.
Qed.

Lemma cleanCaches_step (self : string) (e : ServiceWorker.Event)
    (cs : ServiceWorker.CacheStorage) :
  ServiceWorker.cleanCaches self cs -> ServiceWorker.cleanCaches self (ServiceWorker.step self e cs).
Proof.
  intros Hcs. destruct e as [fetched| |req network]; cbn.
  - apply cleanCaches_openWith; [|done]. intros c Hc.
    destruct fetched as [rs|]; [|done]. case_match; [|done].
    assert (Hz : Forall (fun p => fst p ∈ ServiceWorker.STATIC_ASSETS self)
                   (zip (ServiceWorker.STATIC_ASSETS self) rs)).
    { apply Forall_forall. intros [u r] Hin. cbn. by apply elem_of_zip_l in Hin. }
    revert c Hc. induction Hz as [|[u r] l Hu _ IH]; intros c Hc; [done|].
    cbn. apply IH. apply cachePut_cacheable; [by left|done].
  - intros c. unfold ServiceWorker.onActivate. rewrite cacheNamed_filter. apply Hcs.
  - unfold ServiceWorker.onFetch.
    destruct (ServiceWorker.intercepted req) eqn:Ei; cbn; [|done].
    destruct network as [r|]; cbn; [|by repeat case_match].
    destruct (Nat.eqb_spec (ServiceWorker.status r) 200) as [Hs|]; [|done].
    apply cleanCaches_openWith; [|done]. intros c Hc. apply cachePut_cacheable; [|done].
    right. unfold ServiceWorker.intercepted in Ei.
    apply andb_true_iff in Ei as [[_ Hp]%andb_true_iff Ha].
    apply negb_true_iff in Hp, Ha. by split_and!.
Qed.

(** X24 -- Whatever events the worker has handled since there was no
    cache at all, every entry of its cache is a static asset stored by
    the installation, or a response with status 200 to a request it
    answers itself: no response to a path under [/api/], no audio file
    and no response with another status is ever cached. *)
Theorem worker_caches_only_pages_with_status_200 (self : string)
    (evs : list ServiceWorker.Event) :
  ServiceWorker.cleanCaches self (ServiceWorker.run self evs []).
Proof.
  assert (H : forall cs, ServiceWorker.cleanCaches self cs ->
                         ServiceWorker.cleanCaches self (ServiceWorker.run self evs cs)).
  { induction evs as [|e evs IH]; intros cs Hcs; [done|]. cbn. by apply IH, cleanCaches_step. }
  apply H. by intros c.
Qed.

Lemma cacheMatch_put (u : ServiceWorker.Url) (r : ServiceWorker.Response)
    (c : list (ServiceWorker.Url * ServiceWorker.Response)) :
  ServiceWorker.cacheMatch u (ServiceWorker.cachePut u r c) = Some r.
Proof.
  unfold ServiceWorker.cachePut. induction c as [|[k r'] c IH].
  - cbn. by rewrite bool_decide_eq_true_2.
  - rewrite filter_cons. case_decide as Hd; cbn [fst] in Hd; [|exact IH].
    rewrite <- app_comm_cons. cbn [ServiceWorker.cacheMatch].
    by rewrite bool_decide_eq_false_2.
Qed.

(** X25 -- The [fetch] listener.  Requests that are not GET, paths under
    [/api/] and audio files are not handled: the upload of a recording
    and the audio itself always go to the network.  Any other request is
    answered with the network's response when there is one, and that
    response is cached when its status is 200 and only then.  Once the
    activation has deleted the caches of other names, a request answered
    with status 200 is answered with the same response when the network
    fails afterwards.  When the network fails and no cache holds the
    request, a navigation gets the cached [/index.html] and anything else
    a response [Offline] with status 503. *)
Theorem worker_answers_offline_from_cache (self : string) (req : ServiceWorker.Request)
    (r : ServiceWorker.Response) (cs : list (string * list (ServiceWorker.Url * ServiceWorker.Response))) :
  ServiceWorker.intercepted req = true ->
  ServiceWorker.status r = 200 ->
  ServiceWorker.onFetch self req (Some r) (ServiceWorker.onActivate cs)
  = (ServiceWorker.RespondWith (Some r),
     ServiceWorker.openWith ServiceWorker.CACHE_NAME
       (ServiceWorker.cachePut (ServiceWorker.url req) r) (ServiceWorker.onActivate cs))
  /\ fst (ServiceWorker.onFetch self req None
            (snd (ServiceWorker.onFetch self req (Some r) (ServiceWorker.onActivate cs))))
     = ServiceWorker.RespondWith (Some r)
  /\ (forall r', ServiceWorker.status r' <> 200 ->
        ServiceWorker.onFetch self req (Some r') cs = (ServiceWorker.RespondWith (Some r'), cs))
  /\ (ServiceWorker.cachesMatch (ServiceWorker.url req) cs = None ->
      ServiceWorker.onFetch self req None cs
      = (ServiceWorker.RespondWith
           (if String.eqb (ServiceWorker.mode req) "navigate"
            then ServiceWorker.cachesMatch (ServiceWorker.mkUrl self "/index.html" "") cs
            else Some ServiceWorker.offlineResponse), cs))
  /\ (forall req' network,
        String.eqb (ServiceWorker.method req') "GET" = false
        \/ String.prefix "/api/" (ServiceWorker.pathname (ServiceWorker.url req')) = true
        \/ ServiceWorker.isAudioPath (ServiceWorker.pathname (ServiceWorker.url req')) = true ->
        ServiceWorker.onFetch self req' network cs = (ServiceWorker.NotHandled, cs)).
Proof.
  intros Hi Hs. unfold ServiceWorker.onFetch. rewrite Hi. cbn [negb fst snd].
  rewrite Hs. cbn [Nat.eqb]. split_and!.
  - done.
  - assert (Hm : ServiceWorker.cachesMatch (ServiceWorker.url req)
                   (ServiceWorker.openWith ServiceWorker.CACHE_NAME
                      (ServiceWorker.cachePut (ServiceWorker.url req) r)
                      (ServiceWorker.onActivate cs)) = Some r).
    { unfold ServiceWorker.onActivate.
      assert (Ha : Forall (fun p : string * list (ServiceWorker.Url * ServiceWorker.Response) =>
                             fst p = ServiceWorker.CACHE_NAME)
                     (filter (fun p => fst p = ServiceWorker.CACHE_NAME) cs))
        by apply Forall_filter_self.
      destruct Ha as [|[n c] l Hn _].
      - cbn [ServiceWorker.openWith ServiceWorker.cachesMatch]. by rewrite cacheMatch_put.
      - cbn [fst] in Hn. subst n. cbn [ServiceWorker.openWith]. rewrite String.eqb_refl.
        cbn [ServiceWorker.cachesMatch]. by rewrite cacheMatch_put. }
    by rewrite Hm.
  - intros r' Hr'. by destruct (Nat.eqb_spec (ServiceWorker.status r') 200).
  - intros ->. by destruct (String.eqb (ServiceWorker.mode req) "navigate").
  - intros req' network H. unfold ServiceWorker.intercepted.
    destruct H as [-> | [-> | ->]]; cbn; by rewrite ?andb_false_r.
Qed.

(** The theorem for the page [/record] of the worker's origin. *)
Lemma worker_answers_offline_witness :
  fst (ServiceWorker.onFetch "https://capsule.example"
         (ServiceWorker.mkRequest "GET"
            (ServiceWorker.mkUrl "https://capsule.example" "/record" "") "navigate")
         None
         (snd (ServiceWorker.onFetch "https://capsule.example"
                 (ServiceWorker.mkRequest "GET"
                    (ServiceWorker.mkUrl "https://capsule.example" "/record" "") "navigate")
                 (Some (ServiceWorker.mkResponse 200 "<html>"))
                 (ServiceWorker.onActivate []))))
  = ServiceWorker.RespondWith (Some (ServiceWorker.mkResponse 200 "<html>")).
Proof.
  exact (proj1 (proj2 (worker_answers_offline_from_cache "https://capsule.example"
    (ServiceWorker.mkRequest "GET"
       (ServiceWorker.mkUrl "https://capsule.example" "/record" "") "navigate")
    (ServiceWorker.mkResponse 200 "<html>") [] eq_refl eq_refl))).
Defined.

(** ** The cursor of the recorder *)

(** X26 -- The cursor of the recorder never moves back: whatever happens,
    the position of the current segment stays where it is or grows, and
    from a position among the three it never leaves the three.  A segment
    that has been left cannot become the current one again. *)
Theorem cursor_only_moves_forward (acts : list Action) (w : World) :
  currentSegment (orch w) <= currentSegment (orch (runActs acts w))
  /\ (currentSegment (orch w) <= 2 -> currentSegment (orch (runActs acts w)) <= 2).
Proof.
  pose proof (evolves_runActs _ _ _ _ (trivial_inv _) (trivial_evolving true) w acts
                w (all_actions_permitted acts)) as H.
  destruct H as (_ & _ & H).
  { apply evolves_start; [done|]. by apply Forall2_same. }
  exact H.
Qed.
